(** * vue-csv-processor: the CSV parsing and encoding-detection core

    A shallow embedding of [src/utils/csv-parser.js],
    [src/utils/encoding-detector.js] and of the two column auto-matchers
    ([autoMatchFields] of [VueCsvMap.vue], [autoMapColumns] of
    [VueCsvProcessor.vue]), with the properties of the specification that
    concern them.

    Conventions.
    - A JavaScript string is the list of its UTF-16 code units ([jsstring]).
    - An [ArrayBuffer] viewed through [Uint8Array] is a list of integers;
      reading past the end gives [undefined], modelled by [None].
    - A plain JavaScript object used as a dictionary is a [gmap] keyed by
      strings. *)

From Stdlib Require Import ZArith NArith Ascii String Decimal DecimalNat Bool Lia.
From stdpp Require Import base option list gmap.

Local Open Scope Z_scope.

(** ** Text encodings: [encoding-detector.js] *)

Module Enc.

(** The identifiers that [detectBOM] and [detectEncoding] can return. *)
Inductive Encoding : Set :=
| UTF8          (* 'UTF-8' *)
| UTF16LE       (* 'UTF-16LE' *)
| UTF16BE       (* 'UTF-16BE' *)
| UTF32LE       (* 'UTF-32LE' *)
| UTF32BE       (* 'UTF-32BE' *)
| Windows1252.  (* 'windows-1252' *)

(** [uint8Array[k] === v]: an index past the end reads [undefined], which
    is strictly equal to no number. *)
Definition byteIs (uint8Array : list Z) (k : nat) (v : Z) : bool :=
  match uint8Array !! k with
  | Some b => b =? v
  | None => false
  end.

(** [detectBOM], test by test in the order of the source. *)
Definition detectBOM (buffer : list Z) : option Encoding :=
  let uint8Array := take 4 buffer in
  (* UTF-8 BOM (EF BB BF) *)
  if byteIs uint8Array 0 0xEF && byteIs uint8Array 1 0xBB
     && byteIs uint8Array 2 0xBF then Some UTF8
  (* UTF-16 LE BOM (FF FE) *)
  else if byteIs uint8Array 0 0xFF && byteIs uint8Array 1 0xFE then Some UTF16LE
  (* UTF-16 BE BOM (FE FF) *)
  else if byteIs uint8Array 0 0xFE && byteIs uint8Array 1 0xFF then Some UTF16BE
  (* UTF-32 LE BOM (FF FE 00 00) *)
  else if byteIs uint8Array 0 0xFF && byteIs uint8Array 1 0xFE
          && byteIs uint8Array 2 0x00 && byteIs uint8Array 3 0x00 then Some UTF32LE
  (* UTF-32 BE BOM (00 00 FE FF) *)
  else if byteIs uint8Array 0 0x00 && byteIs uint8Array 1 0x00
          && byteIs uint8Array 2 0xFE && byteIs uint8Array 3 0xFF then Some UTF32BE
  else None.

(** [(b & 0xC0) === 0x80] *)
Definition isContinuation (b : Z) : bool := Z.land b 0xC0 =? 0x80.

(** The scanning loop of [detectEncoding].  The list is the part of the
    buffer from index [i] on; [i += n] drops [n] more elements, [break]
    returns.  The result is the pair [(isUtf8, hasHighAscii)] at loop
    exit. *)
Fixpoint scan (bytes : list Z) (hasHighAscii : bool) : bool * bool :=
  match bytes with
  | [] => (true, hasHighAscii)
  | byte :: rest =>
    if 127 <? byte then
      if (0xC0 <=? byte) && (byte <=? 0xDF) then
        (* 2-byte sequence *)
        match rest with
        | c1 :: rest1 =>
          if isContinuation c1 then scan rest1 true else (false, true)
        | _ => (false, true)
        end
      else if (0xE0 <=? byte) && (byte <=? 0xEF) then
        (* 3-byte sequence *)
        match rest with
        | c1 :: c2 :: rest2 =>
          if isContinuation c1 && isContinuation c2
          then scan rest2 true else (false, true)
        | _ => (false, true)
        end
      else if (0xF0 <=? byte) && (byte <=? 0xF7) then
        (* 4-byte sequence *)
        match rest with
        | c1 :: c2 :: c3 :: rest3 =>
          if isContinuation c1 && isContinuation c2 && isContinuation c3
          then scan rest3 true else (false, true)
        | _ => (false, true)
        end
      else (false, true)  (* invalid UTF-8 start byte *)
    else scan rest hasHighAscii
  end.

Definition detectEncoding (buffer : list Z) : Encoding :=
  match detectBOM buffer with
  | Some bomEncoding => bomEncoding
  | None =>
    let '(isUtf8, hasHighAscii) := scan buffer false in
    if isUtf8 && hasHighAscii then UTF8 else Windows1252
  end.

(** *** The structural description of UTF-8 used by the specification *)

(** A buffer is structured as UTF-8 when it splits into bytes up to 127
    and multi-byte sequences: a lead byte in 0xC0-0xDF, 0xE0-0xEF or
    0xF0-0xF7 followed, inside the buffer, by one, two or three bytes [c]
    with [c & 0xC0 = 0x80]. *)
Inductive Utf8Structured : list Z → Prop :=
| structured_end : Utf8Structured []
| structured_ascii b rest :
    b ≤ 127 → Utf8Structured rest → Utf8Structured (b :: rest)
| structured_two b c1 rest :
    0xC0 ≤ b ≤ 0xDF →
    Z.land c1 0xC0 = 0x80 →
    Utf8Structured rest → Utf8Structured (b :: c1 :: rest)
| structured_three b c1 c2 rest :
    0xE0 ≤ b ≤ 0xEF →
    Z.land c1 0xC0 = 0x80 → Z.land c2 0xC0 = 0x80 →
    Utf8Structured rest → Utf8Structured (b :: c1 :: c2 :: rest)
| structured_four b c1 c2 c3 rest :
    0xF0 ≤ b ≤ 0xF7 →
    Z.land c1 0xC0 = 0x80 → Z.land c2 0xC0 = 0x80 → Z.land c3 0xC0 = 0x80 →
    Utf8Structured rest → Utf8Structured (b :: c1 :: c2 :: c3 :: rest).

(** Some byte of the buffer is greater than 127. *)
Definition HasHighByte (buffer : list Z) : Prop := ∃ b, b ∈ buffer ∧ 127 < b.

(** The value of [hasHighAscii] after a scan that started with the flag
    [h] and read all of [bs]. *)
Definition sawHigh (h : bool) (bs : list Z) : bool :=
  h || existsb (λ b, 127 <? b) bs.

End Enc.

(** ** JavaScript strings *)

Module Js.

(** A string is its sequence of UTF-16 code units. *)
Abbreviation jsstring := (list N).

(** A literal of printable ASCII characters. *)
Fixpoint js (s : string) : jsstring :=
  match s with
  | EmptyString => []
  | String a s' => N_of_ascii a :: js s'
  end.

Definition TAB : N := 9.
Definition LF : N := 10.
Definition CR : N := 13.
Definition DQUOTE : N := 34.     (* the double quote character *)
Definition COMMA : N := 44.
Definition SEMICOLON : N := 59.
Definition PIPE : N := 124.
Definition BOM : N := 0xFEFF.

(** The code units removed by [String.prototype.trim]: ECMAScript
    WhiteSpace (TAB, VT, FF, SP, NBSP, ZWNBSP and the category Zs) and
    LineTerminator (LF, CR, LS, PS). *)
Definition isTrimmed (c : N) : bool :=
  ((9 <=? c) && (c <=? 13) || (c =? 0x20) || (c =? 0xA0) || (c =? 0x1680)
   || (0x2000 <=? c) && (c <=? 0x200A) || (c =? 0x2028) || (c =? 0x2029)
   || (c =? 0x202F) || (c =? 0x205F) || (c =? 0x3000) || (c =? 0xFEFF))%N.

Fixpoint trimStart (s : jsstring) : jsstring :=
  match s with
  | c :: rest => if isTrimmed c then trimStart rest else s
  | [] => []
  end.

(** [s.trim()] *)
Definition trim (s : jsstring) : jsstring :=
  reverse (trimStart (reverse (trimStart s))).

Definition digit (d : N) : N := 48 + d.

Fixpoint uintCodes (u : Decimal.uint) : jsstring :=
  match u with
  | Decimal.Nil => []
  | Decimal.D0 u' => digit 0 :: uintCodes u'
  | Decimal.D1 u' => digit 1 :: uintCodes u'
  | Decimal.D2 u' => digit 2 :: uintCodes u'
  | Decimal.D3 u' => digit 3 :: uintCodes u'
  | Decimal.D4 u' => digit 4 :: uintCodes u'
  | Decimal.D5 u' => digit 5 :: uintCodes u'
  | Decimal.D6 u' => digit 6 :: uintCodes u'
  | Decimal.D7 u' => digit 7 :: uintCodes u'
  | Decimal.D8 u' => digit 8 :: uintCodes u'
  | Decimal.D9 u' => digit 9 :: uintCodes u'
  end.

(** [`${n}`] for a non-negative integer: its decimal digits. *)
Definition showNat (n : nat) : jsstring := uintCodes (Nat.to_uint n).

(** Number of occurrences of a code unit: [(s.match(/c/g) || []).length]. *)
Definition countChar (c : N) (s : jsstring) : nat :=
  length (filter (λ x, x = c) s).

(** [a.findIndex(p)], with [None] for the result -1. *)
Fixpoint findIndex {A} (p : A → bool) (a : list A) : option nat :=
  match a with
  | [] => None
  | x :: rest => if p x then Some 0%nat else S <$> findIndex p rest
  end.

Fixpoint startsWith (s sub : jsstring) : bool :=
  match sub, s with
  | [], _ => true
  | _ :: _, [] => false
  | y :: sub', x :: s' => (x =? y)%N && startsWith s' sub'
  end.

(** [s.includes(sub)] *)
Fixpoint includes (s sub : jsstring) : bool :=
  startsWith s sub ||
  match s with
  | [] => false
  | _ :: s' => includes s' sub
  end.

(** A plain object [{}] used as a dictionary with string keys. *)
Abbreviation object := (gmap jsstring jsstring).

Definition PROTO : jsstring := js "__proto__".

(** The assignment [o[k] = v] on an object created by [{}], for a string
    value [v].  Every key creates or updates an own property, except
    ["__proto__"]: that name resolves to the accessor inherited from
    [Object.prototype], whose setter ignores a value that is neither an
    object nor [null], so the assignment leaves [o] without such a
    property. *)
Definition assign (k v : jsstring) (o : object) : object :=
  if decide (k = PROTO) then o else <[k := v]> o.

(** Truthiness of [o[k]]: a present, non-empty string. *)
Definition truthy (v : option jsstring) : bool :=
  match v with
  | Some (_ :: _) => true
  | _ => false
  end.

(** The property names that every object created by [{}] inherits from
    [Object.prototype] (ECMAScript, Annex B included).  Read on an object
    that has no own property of that name, each of them gives a function,
    and ["__proto__"] the prototype itself: a truthy value. *)
Definition objectPrototypeNames : list jsstring :=
  [ js "constructor"; js "hasOwnProperty"; js "isPrototypeOf";
    js "propertyIsEnumerable"; js "toLocaleString"; js "toString";
    js "valueOf"; js "__defineGetter__"; js "__defineSetter__";
    js "__lookupGetter__"; js "__lookupSetter__"; js "__proto__" ].

End Js.

(** ** The CSV parser: [csv-parser.js] *)

Module Csv.
Import Js.

Record ParseOptions : Type := {
  hasHeaders : bool;
  delimiter : jsstring;
  trimFields : bool;
  encoding : jsstring;
  skipEmptyLines : bool
}.

(** The defaults of the destructuring at the head of [parseCSV]. *)
Definition defaultOptions : ParseOptions := {|
  hasHeaders := true;
  delimiter := [];
  trimFields := true;
  encoding := js "UTF-8";
  skipEmptyLines := true
|}.

(** The four variables of the tokenizer loop. *)
Record Tok : Type := {
  lines : list (list jsstring);
  currentLine : list jsstring;
  currentField : jsstring;
  inQuotes : bool
}.

Definition initTok : Tok :=
  {| lines := []; currentLine := []; currentField := []; inQuotes := false |}.

(** [currentField += c] *)
Definition addChar (c : N) (st : Tok) : Tok :=
  {| lines := lines st; currentLine := currentLine st;
     currentField := currentField st ++ [c]; inQuotes := inQuotes st |}.

(** [inQuotes = !inQuotes] *)
Definition toggleQuotes (st : Tok) : Tok :=
  {| lines := lines st; currentLine := currentLine st;
     currentField := currentField st; inQuotes := negb (inQuotes st) |}.

(** The field as pushed on the line: trimmed when [trimFields]. *)
Definition finishField (o : ParseOptions) (field : jsstring) : jsstring :=
  if trimFields o then trim field else field.

(** End of field: push the field on the current line, reset it. *)
Definition endField (o : ParseOptions) (st : Tok) : Tok :=
  {| lines := lines st;
     currentLine := currentLine st ++ [finishField o (currentField st)];
     currentField := []; inQuotes := inQuotes st |}.

(** [!skipEmptyLines || line.some(field => field.length > 0)] *)
Definition keepLine (o : ParseOptions) (line : list jsstring) : bool :=
  negb (skipEmptyLines o) || existsb (λ field, (0 <? length field)%nat) line.

(** End of line: push the last field, commit the line unless it is
    skipped, reset line and field. *)
Definition endLine (o : ParseOptions) (st : Tok) : Tok :=
  let line := currentLine st ++ [finishField o (currentField st)] in
  {| lines := if keepLine o line then lines st ++ [line] else lines st;
     currentLine := []; currentField := []; inQuotes := inQuotes st |}.

(** [char === delimiter || (delimiter === '' && char === ',')], for the
    one-unit string [char]. *)
Definition isDelimiter (o : ParseOptions) (c : N) : bool :=
  bool_decide (delimiter o = [c])
  || bool_decide (delimiter o = []) && (c =? COMMA)%N.

(** [nextChar === c], where [nextChar] is the character after the current
    one, or [''] (equal to no character) at the end of the text. *)
Definition nextIs (rest : jsstring) (c : N) : bool :=
  match rest with
  | nextChar :: _ => (nextChar =? c)%N
  | [] => false
  end.

(** The additional [i++] inside the loop body. *)
Definition skip (rest : jsstring) : jsstring :=
  match rest with
  | _ :: rest' => rest'
  | [] => rest
  end.

(** The [for] loop over the text.  The list is the text from index [i]
    on: [char] is its head and [rest] starts at [nextChar]. *)
Fixpoint tokenize (o : ParseOptions) (text : jsstring) (st : Tok) : Tok :=
  match text with
  | [] => st
  | char :: rest =>
    if (char =? DQUOTE)%N then
      if inQuotes st && nextIs rest DQUOTE then
        (* escaped quote: skip the next quote *)
        tokenize o (skip rest) (addChar DQUOTE st)
      else
        tokenize o rest (toggleQuotes st)
    else if isDelimiter o char && negb (inQuotes st) then
      tokenize o rest (endField o st)
    else if ((char =? LF)%N || (char =? CR)%N && nextIs rest LF)
            && negb (inQuotes st) then
      (* end of line; skip the \n of \r\n *)
      tokenize o (if (char =? CR)%N then skip rest else rest) (endLine o st)
    else
      tokenize o rest (addChar char st)
  end.

(** The last line, when the text does not end with a line break. *)
Definition lastLine (o : ParseOptions) (st : Tok) : list (list jsstring) :=
  if (0 <? length (currentField st))%nat || (0 <? length (currentLine st))%nat
  then
    let line := currentLine st ++ [finishField o (currentField st)] in
    if keepLine o line then lines st ++ [line] else lines st
  else lines st.

(** Removal of a leading U+FEFF. *)
Definition stripBOM (csvText : jsstring) : jsstring :=
  match csvText with
  | c :: rest => if (c =? BOM)%N then rest else csvText
  | [] => csvText
  end.

(** The lines of fields that the first half of [parseCSV] computes. *)
Definition tokenLines (o : ParseOptions) (csvText : jsstring)
  : list (list jsstring) :=
  lastLine o (tokenize o (stripBOM csvText) initTok).

(** A row: the object built for one data line, header name to value. *)
Abbreviation Row := object.

(** The value [parseCSV] returns. *)
Record ParseResult : Type := {
  data : list Row;
  headers : list jsstring;
  errors : list jsstring
}.

(** [`Line ${lineIndex + 1} has ${n} fields, expected ${m}`] *)
Definition lineError (lineIndex n m : nat) : jsstring :=
  js "Line " ++ showNat (lineIndex + 1) ++ js " has " ++ showNat n
  ++ js " fields, expected " ++ showNat m.

(** The adjustment of a line whose length differs from the header count:
    [[...line, ...Array(m - line.length).fill('')]] when shorter,
    [line.slice(0, m)] otherwise. *)
Definition adjustLine (m : nat) (line : list jsstring) : list jsstring :=
  if (length line <? m)%nat
  then line ++ replicate (m - length line) []
  else take m line.

(** [headers.forEach((header, index) => ...)] from position [index] on,
    assigning into [row]. *)
Fixpoint fillRow (hs : list jsstring) (index : nat) (line : list jsstring)
    (row : Row) : Row :=
  match hs with
  | [] => row
  | header :: hs' =>
    let value :=
      if (index <? length line)%nat then default [] (line !! index) else [] in
    fillRow hs' (S index) line (assign header value row)
  end.

(** The callback of [lines.map]: it returns the row and, through
    [errors.push], extends the error list. *)
Definition convertLine (hs : list jsstring) (lineIndex : nat)
    (line : list jsstring) (errs : list jsstring) : Row * list jsstring :=
  if negb (length line =? length hs)%nat then
    (fillRow hs 0 (adjustLine (length hs) line) ∅,
     errs ++ [lineError lineIndex (length line) (length hs)])
  else
    (fillRow hs 0 line ∅, errs).

(** [lines.map(callback)] from index [lineIndex] on, threading [errors]. *)
Fixpoint convertLines (hs : list jsstring) (lineIndex : nat)
    (ls : list (list jsstring)) (errs : list jsstring)
  : list Row * list jsstring :=
  match ls with
  | [] => ([], errs)
  | line :: ls' =>
    let '(row, errs1) := convertLine hs lineIndex line errs in
    let '(rows, errs2) := convertLines hs (S lineIndex) ls' errs1 in
    (row :: rows, errs2)
  end.

(** [`Column ${index + 1}`] *)
Definition columnName (index : nat) : jsstring :=
  js "Column " ++ showNat (index + 1).

(** Header extraction: the headers and the lines left as data. *)
Definition splitHeaders (o : ParseOptions) (ls : list (list jsstring))
  : list jsstring * list (list jsstring) :=
  match ls with
  | [] => ([], [])
  | first :: others =>
    if hasHeaders o then (first, others)
    else (imap (λ index _, columnName index) first, ls)
  end.

(** [parseCSV] from the BOM handling on, for the text [csvText]. *)
Definition parseText (csvText : jsstring) (o : ParseOptions) : ParseResult :=
  let ls := tokenLines o csvText in
  if (length ls =? 0)%nat then
    {| data := []; headers := []; errors := [js "Empty CSV content"] |}
  else
    let '(hs, dataLines) := splitHeaders o ls in
    let '(rows, errs) := convertLines hs 0 dataLines [] in
    {| data := rows; headers := hs; errors := errs |}.

(** The [content] argument: a string or an [ArrayBuffer]. *)
Inductive Content : Type :=
| Text (s : jsstring)
| Buffer (bytes : list Z).

(** A call either returns a value or throws. *)
Inductive Outcome (A : Type) : Type :=
| Returns (a : A)
| Throws.
Arguments Returns {A} a.
Arguments Throws {A}.

(** The platform's [TextDecoder]: [decoder label bytes] is the decoded
    text, or [None] when [new TextDecoder(label)] throws because the
    label names no encoding. *)
Definition Decoder : Type := jsstring → list Z → option jsstring.

(** [parseCSV(content, options)] *)
Definition parseCSV (decoder : Decoder) (content : Content)
    (o : ParseOptions) : Outcome ParseResult :=
  match content with
  | Buffer bytes =>
    match decoder (encoding o) bytes with
    | Some csvText => Returns (parseText csvText o)
    | None => Throws
    end
  | Text csvText => Returns (parseText csvText o)
  end.

(** *** [detectDelimiter] *)

(** [s.split(/\r?\n/)]: [cur] is the piece being read. *)
Fixpoint splitLines (s : jsstring) (cur : jsstring) : list jsstring :=
  match s with
  | [] => [cur]
  | c :: rest =>
    if (c =? LF)%N then cur :: splitLines rest []
    else if (c =? CR)%N && nextIs rest LF then cur :: splitLines (skip rest) []
    else splitLines rest (cur ++ [c])
  end.

(** [pieces.join('\n')] *)
Fixpoint joinLines (pieces : list jsstring) : jsstring :=
  match pieces with
  | [] => []
  | [piece] => piece
  | piece :: others => piece ++ LF :: joinLines others
  end.

(** [csvContent.split(/\r?\n/).slice(0, 5).join('\n')] *)
Definition sampleLines (csvContent : jsstring) : jsstring :=
  joinLines (take 5 (splitLines csvContent [])).

(** The object [counts], as its entries in [Object.entries] order. *)
Definition counts (sample : jsstring) : list (N * nat) :=
  [ (COMMA, countChar COMMA sample);
    (SEMICOLON, countChar SEMICOLON sample);
    (TAB, countChar TAB sample);
    (PIPE, countChar PIPE sample) ].

(** One call of the [forEach] callback on the pair
    [(maxCount, detectedDelimiter)]. *)
Definition pick (acc : nat * N) (entry : N * nat) : nat * N :=
  let '(maxCount, detectedDelimiter) := acc in
  let '(delim, count) := entry in
  if (maxCount <? count)%nat then (count, delim)
  else (maxCount, detectedDelimiter).

(** The character [detectDelimiter] returns. *)
Definition detectedChar (csvContent : jsstring) : N :=
  snd (foldl pick (0%nat, COMMA) (counts (sampleLines csvContent))).

(** [detectDelimiter(csvContent)], a one-character string. *)
Definition detectDelimiter (csvContent : jsstring) : jsstring :=
  [detectedChar csvContent].

(** *** Notions used to state the properties *)

(** [currentField += v] for a whole string [v]. *)
Definition appendField (v : jsstring) (st : Tok) : Tok :=
  {| lines := lines st; currentLine := currentLine st;
     currentField := currentField st ++ v; inQuotes := inQuotes st |}.

(** The content of a field written with every quote doubled. *)
Fixpoint doubleQuotes (v : jsstring) : jsstring :=
  match v with
  | [] => []
  | c :: v' =>
    if (c =? DQUOTE)%N then DQUOTE :: DQUOTE :: doubleQuotes v'
    else c :: doubleQuotes v'
  end.

(** The field at position [index] of a line as [fillRow] reads it: the
    empty string past the end. *)
Definition cell (line : list jsstring) (index : nat) : jsstring :=
  if (index <? length line)%nat then default [] (line !! index) else [].

(** The error that [convertLine] pushes for the line at [lineIndex], if
    any. *)
Definition mismatch (hs : list jsstring) (lineIndex : nat)
    (line : list jsstring) : list jsstring :=
  if decide (length line = length hs) then []
  else [lineError lineIndex (length line) (length hs)].

(** The shape of every string in [errors]. *)
Definition ErrorShape (e : jsstring) : Prop :=
  e = js "Empty CSV content" ∨ ∃ lineIndex n m, e = lineError lineIndex n m.

(** The candidate delimiters in the order [detectDelimiter] visits them. *)
Definition candidates : list N := [COMMA; SEMICOLON; TAB; PIPE].

End Csv.

(** ** Column auto-matching: [VueCsvMap.vue] and [VueCsvProcessor.vue] *)

Module AutoMatch.
Import Js.

(** A field definition [{ required, label }]; [label] may be absent. *)
Record FieldDefinition : Type := {
  required : bool;
  label : option jsstring
}.

(** The [fields] object, as its entries in [Object.keys] order:
    [Object.keys(fields).forEach(k => ... fields[k] ...)] visits them one
    after the other. *)
Definition Fields : Type := list (jsstring * FieldDefinition).

(** The reactive [mapping] object, field name to column header. *)
Abbreviation Mapping := object.

(** Truthiness of the read [mapping[fieldName]].  An own entry is read
    as it is: a non-empty string is truthy, the empty string is not.
    Without own entry the read goes to [Object.prototype]: it is truthy
    for the names defined there ([constructor], [toString], ...) and
    [undefined] for every other name.  The mapping is created by [{}] and
    written by assignments and [delete] only, so it never has an own
    ["__proto__"] (see [assign]): that name always reads the prototype. *)
Definition isMapped (mapping : Mapping) (fieldName : jsstring) : bool :=
  if decide (fieldName = PROTO) then true
  else
    match mapping !! fieldName with
    | Some column => truthy (Some column)
    | None => bool_decide (fieldName ∈ objectPrototypeNames)
    end.

(** [fields[fieldName].label || fieldName] *)
Definition labelOrName (fieldName : jsstring) (def : FieldDefinition)
  : jsstring :=
  match label def with
  | Some (c :: l) => c :: l
  | _ => fieldName
  end.

(** [mapField(field, column)]: [mapping[field] = column]. *)
Definition mapField (field column : jsstring) (mapping : Mapping) : Mapping :=
  assign field column mapping.

(** [Object.keys(mapping).forEach(key => { delete mapping[key] })] *)
Definition clearMapping (mapping : Mapping) : Mapping :=
  foldl (λ acc key, delete key acc) mapping (elements (dom mapping)).

(** The props of [VueCsvMap] read by [autoMatchFields]. *)
Record MapProps : Type := {
  autoMatch : bool;
  autoMatchIgnoreCase : bool
}.

Section Matchers.

(** [String.prototype.toLowerCase], a built-in of the platform. *)
Variable toLowerCase : jsstring → jsstring.

(** The [findIndex] of [autoMatchFields], in either case mode. *)
Definition findMatch (props : MapProps) (parsedHeaders : list jsstring)
    (fieldName fieldLabel : jsstring) : option nat :=
  if autoMatchIgnoreCase props then
    findIndex (λ header,
      bool_decide (toLowerCase header = toLowerCase fieldLabel)
      || bool_decide (toLowerCase header = toLowerCase fieldName)) parsedHeaders
  else
    findIndex (λ header,
      bool_decide (header = fieldLabel)
      || bool_decide (header = fieldName)) parsedHeaders.

(** The header a field is matched with: [parsedHeaders[matchIndex]] when
    [matchIndex !== -1]. *)
Definition matchedHeader (props : MapProps) (parsedHeaders : list jsstring)
    (entry : jsstring * FieldDefinition) : option jsstring :=
  let '(fieldName, def) := entry in
  matchIndex ← findMatch props parsedHeaders fieldName (labelOrName fieldName def);
  parsedHeaders !! matchIndex.

(** The body of the [forEach] of [autoMatchFields] for one field. *)
Definition autoMatchField (props : MapProps) (parsedHeaders : list jsstring)
    (mapping : Mapping) (entry : jsstring * FieldDefinition) : Mapping :=
  if isMapped mapping entry.1 then mapping   (* skip if already mapped *)
  else
    match matchedHeader props parsedHeaders entry with
    | Some header => mapField entry.1 header mapping
    | None => mapping
    end.

(** [autoMatchFields] of [VueCsvMap]; the events it emits are left out.
    [parsedData] is the list of parsed rows, read for [hasData] only. *)
Definition autoMatchFields (props : MapProps) (fields : Fields)
    (parsedHeaders : list jsstring) (parsedData : list object)
    (mapping : Mapping) : Mapping :=
  let hasData :=
    (0 <? length parsedData)%nat && (0 <? length parsedHeaders)%nat in
  if negb (autoMatch props) || negb hasData then mapping
  else foldl (autoMatchField props parsedHeaders) mapping fields.

(** The two [findIndex] of [autoMapColumns]: exact, then partial. *)
Definition findColumn (parsedHeaders : list jsstring) (fieldLabel : jsstring)
  : option nat :=
  match findIndex (λ header,
          bool_decide (toLowerCase header = toLowerCase fieldLabel))
          parsedHeaders with
  | Some matchIndex => Some matchIndex
  | None =>
    findIndex (λ header,
      includes (toLowerCase header) (toLowerCase fieldLabel)
      || includes (toLowerCase fieldLabel) (toLowerCase header)) parsedHeaders
  end.

(** The body of the [forEach] of [autoMapColumns] for one field. *)
Definition autoMapColumn (parsedHeaders : list jsstring)
    (mapping : Mapping) (entry : jsstring * FieldDefinition) : Mapping :=
  let '(fieldKey, def) := entry in
  match findColumn parsedHeaders (labelOrName fieldKey def) with
  | Some matchIndex =>
    match parsedHeaders !! matchIndex with
    | Some header => assign fieldKey header mapping
    | None => mapping
    end
  | None => mapping
  end.

(** [autoMapColumns] of [VueCsvProcessor]. *)
Definition autoMapColumns (fields : Fields) (parsedHeaders : list jsstring)
    (mapping : Mapping) : Mapping :=
  if (length parsedHeaders =? 0)%nat then mapping
  else foldl (autoMapColumn parsedHeaders) (clearMapping mapping) fields.

End Matchers.

(** Lower-casing of the letters A-Z, the restriction of [toLowerCase] to
    ASCII text; used to run the matchers on examples. *)
Definition asciiLower (s : jsstring) : jsstring :=
  (λ c, if (65 <=? c) && (c <=? 90) then c + 32 else c)%N <$> s.

End AutoMatch.

(** ** The table of encodings: [encoding-detector.js] *)

Module EncTable.
Import Js Enc.

(** The string each detected encoding stands for. *)
Definition encodingName (e : Encoding) : jsstring :=
  match e with
  | UTF8 => js "UTF-8"
  | UTF16LE => js "UTF-16LE"
  | UTF16BE => js "UTF-16BE"
  | UTF32LE => js "UTF-32LE"
  | UTF32BE => js "UTF-32BE"
  | Windows1252 => js "windows-1252"
  end.

(** [SUPPORTED_ENCODINGS], as pairs [(value, label)]. *)
Definition SUPPORTED_ENCODINGS : list (jsstring * jsstring) :=
  [ (js "UTF-8", js "UTF-8 (Standard)");
    (js "ISO-8859-1", js "ISO-8859-1 (Latin-1)");
    (js "windows-1252", js "Windows-1252 (Western European)");
    (js "ISO-8859-15", js "ISO-8859-15 (Latin-9)");
    (js "macintosh", js "Mac Roman");
    (js "windows-1251", js "Windows-1251 (Cyrillic)");
    (js "ISO-8859-2", js "ISO-8859-2 (Central European)");
    (js "ISO-8859-5", js "ISO-8859-5 (Cyrillic)") ].

(** [SUPPORTED_ENCODINGS.map(e => e.value)] *)
Definition supportedValues : list jsstring := fst <$> SUPPORTED_ENCODINGS.

(** A byte as a [Uint8Array] holds it. *)
Definition isByte (b : Z) : Prop := 0 ≤ b ≤ 255.

End EncTable.

(** ** Writing CSV text, to state what the parser reads back

    The repository has no CSV writer.  The functions of this module
    describe the texts on which the theorems about reading back are
    stated: fields between quotes or plain, joined by a delimiter, rows
    ended by a line feed. *)

Module Writer.
Import Js Csv.

(** A field between quotes, its own quotes doubled. *)
Definition quoted (v : jsstring) : jsstring :=
  DQUOTE :: doubleQuotes v ++ [DQUOTE].

(** A character that an unquoted field can hold as it is: no quote, no
    delimiter, no line feed, no carriage return. *)
Definition plainChar (o : ParseOptions) (c : N) : bool :=
  negb (c =? DQUOTE)%N && negb (isDelimiter o c)
  && negb (c =? LF)%N && negb (c =? CR)%N.

(** A field as written: between quotes when [q], as it is otherwise. *)
Definition writeField (f : bool * jsstring) : jsstring :=
  if f.1 then quoted f.2 else f.2.

(** A field is well written when it is quoted or holds plain characters
    only. *)
Definition wellWritten (o : ParseOptions) (f : bool * jsstring) : bool :=
  f.1 || forallb (plainChar o) f.2.

(** The fields of a row, separated by the delimiter [d]. *)
Fixpoint writeRow (d : N) (row : list (bool * jsstring)) : jsstring :=
  match row with
  | [] => []
  | [f] => writeField f
  | f :: row' => writeField f ++ d :: writeRow d row'
  end.

(** The rows of a table, each ended by a line feed. *)
Fixpoint writeTable (d : N) (rows : list (list (bool * jsstring))) : jsstring :=
  match rows with
  | [] => []
  | row :: rows' => writeRow d row ++ LF :: writeTable d rows'
  end.

(** The values of a written row. *)
Definition rowValues (row : list (bool * jsstring)) : list jsstring :=
  (λ f : bool * jsstring, f.2) <$> row.

(** The values of a written row as the parser gives them back. *)
Definition readRow (o : ParseOptions) (row : list (bool * jsstring))
  : list jsstring :=
  (λ f : bool * jsstring, finishField o f.2) <$> row.

(** The lines the parser commits for a written table. *)
Definition readTable (o : ParseOptions) (rows : list (list (bool * jsstring)))
  : list (list jsstring) :=
  filter (λ line, keepLine o line = true) (readRow o <$> rows).

(** The text with every line feed written as carriage return, line feed. *)
Fixpoint lfToCrlf (s : jsstring) : jsstring :=
  match s with
  | [] => []
  | c :: s' => if (c =? LF)%N then CR :: LF :: lfToCrlf s' else c :: lfToCrlf s'
  end.

End Writer.

(** ** Required fields: [VueCsvMap.vue] *)

Module Mapper.
Import Js AutoMatch.

(** [hasMissingRequiredFields]: some required field reads as unmapped. *)
Definition hasMissingRequiredFields (fields : Fields) (mapping : Mapping)
  : bool :=
  existsb (λ entry : jsstring * FieldDefinition,
             required entry.2 && negb (isMapped mapping entry.1)) fields.

(** The test of the exact pass of [autoMapColumns] on one header. *)
Definition exactMatch (toLowerCase : jsstring → jsstring)
    (fieldLabel header : jsstring) : bool :=
  bool_decide (toLowerCase header = toLowerCase fieldLabel).

(** The test of the partial pass of [autoMapColumns] on one header. *)
Definition partialMatch (toLowerCase : jsstring → jsstring)
    (fieldLabel header : jsstring) : bool :=
  includes (toLowerCase header) (toLowerCase fieldLabel)
  || includes (toLowerCase fieldLabel) (toLowerCase header).

(** The test of [autoMatchFields] on one header, in either case mode. *)
Definition fieldMatch (toLowerCase : jsstring → jsstring) (props : MapProps)
    (fieldName fieldLabel header : jsstring) : bool :=
  if autoMatchIgnoreCase props then
    bool_decide (toLowerCase header = toLowerCase fieldLabel)
    || bool_decide (toLowerCase header = toLowerCase fieldName)
  else
    bool_decide (header = fieldLabel) || bool_decide (header = fieldName).

End Mapper.

(** ** The processor: [VueCsvProcessor.vue] *)

Module Processor.
Import Js Enc EncTable Csv AutoMatch.

(** The methods wait for the file to be read and decoded and for
    nothing else; the model takes the outcome of reading and decoding as
    given and runs each call to its end, one call after the other.  The
    events emitted are left out. *)

(** The refs and the reactive mapping of the component.  [file] tells
    whether a file is held; [fileBuffer] is its content once read. *)
Record State : Type := {
  file : bool;
  fileBuffer : option (list Z);
  rawContent : jsstring;
  hasHeaders : bool;
  parsedData : list Row;
  parsedHeaders : list jsstring;
  errors : list jsstring;
  encoding : jsstring;
  mapping : Mapping
}.

(** The props read by the methods below; [encodingError] is
    [text.errors.encodingError]. *)
Record Props : Type := {
  fields : Fields;
  autoMatch : bool;
  defaultEncoding : jsstring;
  encodingError : jsstring
}.

(** [errors.value.push(msg)] *)
Definition pushError (msg : jsstring) (st : State) : State :=
  {| file := file st; fileBuffer := fileBuffer st; rawContent := rawContent st;
     hasHeaders := hasHeaders st; parsedData := parsedData st;
     parsedHeaders := parsedHeaders st; errors := errors st ++ [msg];
     encoding := encoding st; mapping := mapping st |}.

(** The options [processFile] passes to [parseCSV]. *)
Definition parseOptions (st : State) (delimiter : jsstring) : ParseOptions :=
  {| Csv.hasHeaders := hasHeaders st; delimiter := delimiter;
     trimFields := true; Csv.encoding := encoding st; skipEmptyLines := true |}.

Section Methods.

(** The platform: [TextDecoder], the message of the error it throws for
    a label, and [String.prototype.toLowerCase]. *)
Variable decoder : Decoder.
Variable decoderMessage : jsstring → jsstring.
Variable toLowerCase : jsstring → jsstring.

Variable props : Props.

(** [processFile]: decode with the current encoding, detect the
    delimiter, parse, store the result, auto-map.  [parseCSV] is given a
    string, so it is [parseText]; a failing decoder is caught and
    reported. *)
Definition processFile (st : State) : State :=
  if negb (file st) then st
  else
    match fileBuffer st with
    | None => st
    | Some buffer =>
      match decoder (encoding st) buffer with
      | None =>
        pushError (encodingError props ++ js ": "
                   ++ decoderMessage (encoding st)) st
      | Some raw =>
        let delimiter := detectDelimiter raw in
        let result := parseText raw (parseOptions st delimiter) in
        {| file := file st; fileBuffer := fileBuffer st; rawContent := raw;
           hasHeaders := hasHeaders st;
           parsedData := data result;
           parsedHeaders := headers result;
           errors :=
             if (0 <? length (Csv.errors result))%nat
             then errors st ++ Csv.errors result else errors st;
           encoding := encoding st;
           mapping :=
             if autoMatch props
             then autoMapColumns toLowerCase (fields props) (headers result)
                    (mapping st)
             else mapping st |}
      end
    end.

(** [toggleHeaders] *)
Definition toggleHeaders (st : State) : State :=
  let st' :=
    {| file := file st; fileBuffer := fileBuffer st;
       rawContent := rawContent st; hasHeaders := negb (hasHeaders st);
       parsedData := parsedData st; parsedHeaders := parsedHeaders st;
       errors := errors st; encoding := encoding st; mapping := mapping st |} in
  if file st then processFile st' else st'.

(** [changeEncoding(newEncoding)] *)
Definition changeEncoding (newEncoding : jsstring) (st : State) : State :=
  let st' :=
    {| file := file st; fileBuffer := fileBuffer st;
       rawContent := rawContent st; hasHeaders := hasHeaders st;
       parsedData := parsedData st; parsedHeaders := parsedHeaders st;
       errors := errors st; encoding := newEncoding; mapping := mapping st |} in
  if file st && bool_decide (is_Some (fileBuffer st)) then processFile st'
  else st'.

(** [detectEncoding(buffer) || props.defaultEncoding] *)
Definition detectedOrDefault (buffer : list Z) : jsstring :=
  match encodingName (detectEncoding buffer) with
  | [] => defaultEncoding props
  | name => name
  end.

(** [setFile(newFile)].  [newFile] is [None] for [null], [Some None] for
    a file whose reading fails, [Some (Some bytes)] for a file read as
    [bytes]. *)
Definition setFile (newFile : option (option (list Z))) (st : State) : State :=
  match newFile with
  | None =>
    {| file := false; fileBuffer := None; rawContent := [];
       hasHeaders := hasHeaders st; parsedData := []; parsedHeaders := [];
       errors := []; encoding := encoding st; mapping := mapping st |}
  | Some None =>
    {| file := true; fileBuffer := fileBuffer st; rawContent := rawContent st;
       hasHeaders := hasHeaders st; parsedData := parsedData st;
       parsedHeaders := parsedHeaders st;
       errors := [js "Error loading file: Error reading file"];
       encoding := encoding st; mapping := mapping st |}
  | Some (Some buffer) =>
    processFile
      {| file := true; fileBuffer := Some buffer; rawContent := rawContent st;
         hasHeaders := hasHeaders st; parsedData := parsedData st;
         parsedHeaders := parsedHeaders st; errors := [];
         encoding :=
           if bool_decide (encoding st = defaultEncoding props)
           then detectedOrDefault buffer else encoding st;
         mapping := mapping st |}
  end.

End Methods.

(** The state [setup] creates. *)
Definition initialState (props : Props) : State :=
  {| file := false; fileBuffer := None; rawContent := [];
     hasHeaders := true; parsedData := []; parsedHeaders := [];
     errors := []; encoding := defaultEncoding props; mapping := ∅ |}.

(** The bytes of an ASCII text. *)
Definition asciiBytes (s : string) : list Z := Z.of_N <$> js s.

(** A decoder to run the processor on examples: it knows the labels of
    [SUPPORTED_ENCODINGS] and reads each byte as the code unit of the same
    value, which is what the decoders of these encodings do on ASCII
    bytes. *)
Definition exampleDecoder : Decoder :=
  λ label bytes,
    if bool_decide (label ∈ supportedValues) then Some (Z.to_N <$> bytes)
    else None.

(** Props and states to run the processor on examples: one field
    [name], and a state that holds a file read as [bytes]. *)
Definition exampleProps : Props :=
  {| fields := [ (js "name", {| required := true; label := None |}) ];
     autoMatch := true; defaultEncoding := js "UTF-8";
     encodingError := js "Error processing file with selected encoding" |}.

Definition heldState (bytes : list Z) (withHeaders : bool) (m : Mapping)
  : State :=
  {| file := true; fileBuffer := Some bytes; rawContent := [];
     hasHeaders := withHeaders; parsedData := []; parsedHeaders := [];
     errors := []; encoding := js "UTF-8"; mapping := m |}.

End Processor.

(** * Properties *)

(** ** Encoding detection *)

Section EncodingFacts.
Import Enc.

(** Induction on the length of the remaining buffer, the measure that
    decreases along the scanning loop. *)
Lemma buffer_length_ind (P : list Z → Prop) :
  (∀ bs, (∀ bs', (length bs' < length bs)%nat → P bs') → P bs) →
  ∀ bs, P bs.
Proof.
  intros step bs.
  remember (length bs) as n eqn:Hn.
  revert bs Hn.
  induction (lt_wf n) as [n _ IH].
  intros bs ->. apply step. intros bs' Hlt. by eapply IH.
Qed.

Lemma isContinuation_true c : isContinuation c = true ↔ Z.land c 0xC0 = 0x80.
Proof. unfold isContinuation. apply Z.eqb_eq. Qed.

(** A structured buffer is scanned to the end, whatever the flag. *)
Lemma scan_complete bs :
  Utf8Structured bs → ∀ h, (scan bs h).1 = true.
Proof.
  induction 1 as [|b rest Hb _ IH|b c1 rest Hb H1 _ IH
                  |b c1 c2 rest Hb H1 H2 _ IH
                  |b c1 c2 c3 rest Hb H1 H2 H3 _ IH]; intros h; simpl.
  - done.
  - destruct (Z.ltb_spec 127 b); [lia | apply IH].
  - apply isContinuation_true in H1.
    destruct (Z.ltb_spec 127 b); [|lia].
    destruct (Z.leb_spec 0xC0 b); [|lia].
    destruct (Z.leb_spec b 0xDF); [|lia].
    simpl. rewrite H1. apply IH.
  - apply isContinuation_true in H1, H2.
    destruct (Z.ltb_spec 127 b); [|lia].
    destruct (Z.leb_spec 0xC0 b); [|lia].
    destruct (Z.leb_spec b 0xDF); [lia|].
    destruct (Z.leb_spec 0xE0 b); [|lia].
    destruct (Z.leb_spec b 0xEF); [|lia].
    simpl. rewrite H1, H2. apply IH.
  - apply isContinuation_true in H1, H2, H3.
    destruct (Z.ltb_spec 127 b); [|lia].
    destruct (Z.leb_spec 0xC0 b); [|lia].
    destruct (Z.leb_spec b 0xDF); [lia|].
    destruct (Z.leb_spec 0xE0 b); [|lia].
    destruct (Z.leb_spec b 0xEF); [lia|].
    destruct (Z.leb_spec 0xF0 b); [|lia].
    destruct (Z.leb_spec b 0xF7); [|lia].
    simpl. rewrite H1, H2, H3. apply IH.
Qed.

(** A scan that reaches the end has read a structured buffer, and its
    flag tells whether a byte above 127 was met. *)
Lemma scan_sound bs :
  ∀ h, (scan bs h).1 = true →
       Utf8Structured bs ∧ (scan bs h).2 = sawHigh h bs.
Proof.
  induction bs as [bs IH] using buffer_length_ind. intros h.
  destruct bs as [|b rest]; simpl.
  { intros _. split; [constructor|]. unfold sawHigh. simpl. by rewrite orb_false_r. }
  unfold sawHigh. simpl.
  destruct (Z.ltb_spec 127 b) as [Hhi|Hlo].
  2:{ intros Hs. destruct (IH rest ltac:(simpl; lia) h Hs) as [Hu Hf].
      split; [by constructor|]. by rewrite Hf. }
  rewrite orb_true_r.
  destruct (Z.leb_spec 0xC0 b), (Z.leb_spec b 0xDF); simpl.
  { destruct rest as [|c1 rest1]; [done|].
    destruct (isContinuation c1) eqn:E1; [|done].
    apply isContinuation_true in E1. intros Hs.
    destruct (IH rest1 ltac:(simpl; lia) true Hs) as [Hu Hf].
    split; [by constructor|]. by rewrite Hf. }
  all: destruct (Z.leb_spec 0xE0 b), (Z.leb_spec b 0xEF); simpl.
  all: try (destruct rest as [|c1 [|c2 rest2]]; [done|done|];
    destruct (isContinuation c1) eqn:E1; [|done];
    destruct (isContinuation c2) eqn:E2; [|done]; simpl;
    apply isContinuation_true in E1, E2; intros Hs;
    destruct (IH rest2 ltac:(simpl; lia) true Hs) as [Hu Hf];
    split; [by constructor|]; by rewrite Hf).
  all: destruct (Z.leb_spec 0xF0 b), (Z.leb_spec b 0xF7); simpl; try done.
  all: destruct rest as [|c1 [|c2 [|c3 rest3]]]; [done|done|done|];
    destruct (isContinuation c1) eqn:E1; [|done];
    destruct (isContinuation c2) eqn:E2; [|done];
    destruct (isContinuation c3) eqn:E3; [|done]; simpl;
    apply isContinuation_true in E1, E2, E3; intros Hs;
    destruct (IH rest3 ltac:(simpl; lia) true Hs) as [Hu Hf];
    split; [by constructor|]; by rewrite Hf.
Qed.

Lemma sawHigh_false bs : sawHigh false bs = true ↔ HasHighByte bs.
Proof.
  unfold sawHigh, HasHighByte. simpl. rewrite existsb_exists.
  split; intros (b & Hin & Hb); exists b.
  - split; [by apply list_elem_of_In | by apply Z.ltb_lt].
  - split; [by apply list_elem_of_In | by apply Z.ltb_lt].
Qed.

(** The scan, summarised: without a BOM, UTF-8 is the answer exactly for
    structured buffers holding a byte above 127. *)
Lemma detectEncoding_no_bom buffer :
  detectBOM buffer = None →
  (detectEncoding buffer = UTF8 ↔ HasHighByte buffer ∧ Utf8Structured buffer)
  ∧ (detectEncoding buffer = UTF8 ∨ detectEncoding buffer = Windows1252).
Proof.
  intros Hbom. unfold detectEncoding. rewrite Hbom.
  destruct (scan buffer false) as [u h] eqn:Hs.
  split.
  - split.
    + destruct u, h; try done. intros _.
      destruct (scan_sound buffer false) as [Hu Hf]; [by rewrite Hs|].
      rewrite Hs in Hf. simpl in Hf. split; [|done].
      by apply sawHigh_false.
    + intros [Hh Hu]. pose proof (scan_complete _ Hu false) as Hc.
      destruct (scan_sound buffer false Hc) as [_ Hf].
      apply sawHigh_false in Hh. rewrite Hs in Hc, Hf. simpl in *.
      by rewrite Hc, Hf, Hh.
  - destruct (u && h); auto.
Qed.

(** A buffer of bytes up to 127 carries no BOM. *)
Lemma detectBOM_ascii buffer :
  Forall (λ b, b ≤ 127) buffer → detectBOM buffer = None.
Proof.
  intros Hall. unfold detectBOM, byteIs.
  destruct buffer as [|b0 [|b1 [|b2 [|b3 rest]]]]; simpl;
    repeat match goal with
    | H : Forall _ (_ :: _) |- _ => apply Forall_cons in H as [? H]
    end;
    repeat match goal with
    | |- context [?x =? ?y] => destruct (Z.eqb_spec x y); try lia; simpl
    end; done.
Qed.

Lemma ascii_not_high buffer :
  Forall (λ b, b ≤ 127) buffer → ¬ HasHighByte buffer.
Proof.
  intros Hall (b & Hin & Hb).
  rewrite Forall_forall in Hall. specialize (Hall b Hin). simpl in Hall. lia.
Qed.

(** C1: the claim asks that a buffer starting with FF FE 00 00 be detected
    as UTF-32LE.  In the source the two-byte test for FF FE comes first, so
    [detectBOM] and [detectEncoding] answer UTF-16LE on every such buffer,
    and the later test for FF FE 00 00 can never succeed: no buffer at all
    is detected as UTF-32LE. *)
Theorem detectEncoding_FF_FE_00_00 :
  (∀ rest, detectBOM (0xFF :: 0xFE :: 0x00 :: 0x00 :: rest) = Some UTF16LE
           ∧ detectEncoding (0xFF :: 0xFE :: 0x00 :: 0x00 :: rest) = UTF16LE)
  ∧ (∀ buffer, detectBOM buffer ≠ Some UTF32LE)
  ∧ (∀ buffer, detectEncoding buffer ≠ UTF32LE).
Proof.
  assert (Hbom : ∀ buffer, detectBOM buffer ≠ Some UTF32LE).
  { intros buffer. unfold detectBOM.
    destruct (byteIs (take 4 buffer) 0 0xEF && _ && _); [done|].
    destruct (byteIs (take 4 buffer) 0 0xFF), (byteIs (take 4 buffer) 1 0xFE);
      simpl; try done; by repeat case_match. }
  split; [|split].
  - intros rest. split; reflexivity.
  - exact Hbom.
  - intros buffer. unfold detectEncoding.
    destruct (detectBOM buffer) as [e|] eqn:He.
    + intros ->. by apply (Hbom buffer).
    + destruct (scan buffer false) as [u h]. by destruct (u && h).
Qed.

(** The theorem on the BOM of UTF-32LE followed by the letter A. *)
Lemma detectEncoding_FF_FE_00_00_witness :
  detectEncoding [0xFF; 0xFE; 0x00; 0x00; 0x41; 0x00; 0x00; 0x00] = UTF16LE.
Proof.
  exact (proj2 (proj1 detectEncoding_FF_FE_00_00 [0x41; 0x00; 0x00; 0x00])).
Defined.

(** C7: for a buffer without BOM, [detectEncoding] answers UTF-8 exactly
    when the buffer holds a byte above 127 and is structured as UTF-8 (every
    byte above 127 that the scan meets leads a sequence with its
    continuation bytes inside the buffer), and Windows-1252 otherwise; the
    empty buffer, every buffer of bytes up to 127 and every buffer starting
    with C3 41 are Windows-1252. *)
Theorem detectEncoding_without_BOM :
  (∀ buffer, detectBOM buffer = None →
     (detectEncoding buffer = UTF8 ↔ HasHighByte buffer ∧ Utf8Structured buffer)
     ∧ (detectEncoding buffer ≠ UTF8 → detectEncoding buffer = Windows1252))
  ∧ detectEncoding [] = Windows1252
  ∧ (∀ buffer, Forall (λ b, b ≤ 127) buffer →
       detectBOM buffer = None ∧ detectEncoding buffer = Windows1252)
  ∧ (∀ rest, detectBOM (0xC3 :: 0x41 :: rest) = None
             ∧ detectEncoding (0xC3 :: 0x41 :: rest) = Windows1252).
Proof.
  split; [|split; [|split]].
  - intros buffer Hbom.
    destruct (detectEncoding_no_bom buffer Hbom) as [Hiff Hor].
    split; [done|]. by destruct Hor.
  - reflexivity.
  - intros buffer Hall. pose proof (detectBOM_ascii buffer Hall) as Hbom.
    split; [done|].
    destruct (detectEncoding_no_bom buffer Hbom) as [Hiff [Hu|Hw]]; [|done].
    apply Hiff in Hu as [Hh _]. by apply ascii_not_high in Hh.
  - intros rest. split; reflexivity.
Qed.

(** The theorem at the buffer C3 A9, the UTF-8 encoding of U+00E9. *)
Lemma detectEncoding_without_BOM_witness :
  detectBOM [0xC3; 0xA9] = None
  ∧ (detectEncoding [0xC3; 0xA9] = UTF8
     ↔ HasHighByte [0xC3; 0xA9] ∧ Utf8Structured [0xC3; 0xA9]).
Proof.
  split; [reflexivity|].
  exact (proj1 (proj1 detectEncoding_without_BOM [0xC3; 0xA9] eq_refl)).
Defined.

End EncodingFacts.

(** ** The tokenizer *)

Section TokenizerFacts.
Import Js Csv.

Variable o : ParseOptions.

Lemma addChar_appendField c st : addChar c st = appendField [c] st.
Proof. reflexivity. Qed.

Lemma appendField_nil st : appendField [] st = st.
Proof. destruct st. unfold appendField. simpl. by rewrite app_nil_r. Qed.

Lemma appendField_app a b st :
  appendField b (appendField a st) = appendField (a ++ b) st.
Proof. unfold appendField. simpl. by rewrite app_assoc. Qed.

Lemma toggleQuotes_appendField v st :
  toggleQuotes (appendField v st) = appendField v (toggleQuotes st).
Proof. reflexivity. Qed.

Lemma toggleQuotes_twice st : toggleQuotes (toggleQuotes st) = st.
Proof. destruct st. unfold toggleQuotes. simpl. by rewrite negb_involutive. Qed.

(** Opening quote: outside quotes a quote only switches the mode. *)
Lemma tokenize_open_quote rest st :
  inQuotes st = false →
  tokenize o (DQUOTE :: rest) st = tokenize o rest (toggleQuotes st).
Proof. intros Hq. simpl. by rewrite Hq. Qed.

(** Closing quote: a quote in quote mode that no quote follows. *)
Lemma tokenize_close_quote rest st :
  nextIs rest DQUOTE = false →
  tokenize o (DQUOTE :: rest) st = tokenize o rest (toggleQuotes st).
Proof. intros Hn. simpl. by rewrite Hn, andb_false_r. Qed.

(** Escaped quote: two quotes in quote mode give one quote. *)
Lemma tokenize_escaped_quote rest st :
  inQuotes st = true →
  tokenize o (DQUOTE :: DQUOTE :: rest) st = tokenize o rest (addChar DQUOTE st).
Proof. intros Hq. simpl. by rewrite Hq. Qed.

(** In quote mode every character but the quote is appended. *)
Lemma tokenize_quoted_char c rest st :
  inQuotes st = true → c ≠ DQUOTE →
  tokenize o (c :: rest) st = tokenize o rest (addChar c st).
Proof.
  intros Hq Hc. simpl.
  destruct (N.eqb_spec c DQUOTE); [done|].
  by rewrite Hq, !andb_false_r.
Qed.

(** The body of a quoted field up to its closing quote. *)
Lemma tokenize_quoted_body v : ∀ rest st,
  inQuotes st = true → nextIs rest DQUOTE = false →
  tokenize o (doubleQuotes v ++ DQUOTE :: rest) st
  = tokenize o rest (toggleQuotes (appendField v st)).
Proof.
  induction v as [|c v IH]; intros rest st Hq Hn.
  - simpl app. rewrite tokenize_close_quote by done. by rewrite appendField_nil.
  - cbn [doubleQuotes]. destruct (N.eqb_spec c DQUOTE) as [->|Hc].
    + cbn [app]. rewrite tokenize_escaped_quote by done.
      rewrite IH by done. by rewrite addChar_appendField, appendField_app.
    + cbn [app]. rewrite tokenize_quoted_char by done.
      rewrite IH by done. by rewrite addChar_appendField, appendField_app.
Qed.

(** A whole quoted field: its content, with doubled quotes undone, is
    appended to the field; line and mode are as before. *)
Lemma tokenize_quoted_field v rest st :
  inQuotes st = false → nextIs rest DQUOTE = false →
  tokenize o (DQUOTE :: doubleQuotes v ++ DQUOTE :: rest) st
  = tokenize o rest (appendField v st).
Proof.
  intros Hq Hn. rewrite tokenize_open_quote by done.
  rewrite tokenize_quoted_body; [|by simpl; rewrite Hq|done].
  by rewrite toggleQuotes_appendField, toggleQuotes_twice.
Qed.

Lemma doubleQuotes_plain q : DQUOTE ∉ q → doubleQuotes q = q.
Proof.
  induction q as [|c q IH]; [done|]. intros Hnot.
  apply not_elem_of_cons in Hnot as [Hc Hq]. simpl.
  destruct (N.eqb_spec c DQUOTE); [done|]. by rewrite IH.
Qed.

(** A carriage return that no line feed follows leaves the committed
    lines alone. *)
Lemma tokenize_lone_CR rest st :
  nextIs rest LF = false →
  tokenize o (CR :: rest) st
  = tokenize o rest (if isDelimiter o CR && negb (inQuotes st)
                     then endField o st else addChar CR st).
Proof.
  intros Hn. simpl. rewrite Hn. simpl.
  by destruct (isDelimiter o CR && negb (inQuotes st)).
Qed.

End TokenizerFacts.

(** ** Rows *)

Section RowFacts.
Import Js Csv.

Lemma assign_lookup (k v : jsstring) (o : object) (k' : jsstring) :
  assign k v o !! k' =
  if decide (k = PROTO) then o !! k'
  else if decide (k = k') then Some v else o !! k'.
Proof.
  unfold assign. destruct (decide (k = PROTO)); [done|].
  destruct (decide (k = k')) as [->|Hne].
  - by rewrite lookup_insert_eq.
  - by rewrite lookup_insert_ne.
Qed.

Lemma assign_assign (k v v' : jsstring) (o : object) :
  assign k v (assign k v' o) = assign k v o.
Proof.
  unfold assign. destruct (decide (k = PROTO)); [done|].
  by rewrite insert_insert_eq.
Qed.

Lemma assign_commute (k1 v1 k2 v2 : jsstring) (o : object) :
  k1 ≠ k2 → assign k1 v1 (assign k2 v2 o) = assign k2 v2 (assign k1 v1 o).
Proof.
  intros Hne. unfold assign.
  destruct (decide (k1 = PROTO)), (decide (k2 = PROTO)); try done.
  by apply insert_insert_ne.
Qed.

Lemma fillRow_cell hs index line row :
  fillRow hs index line row =
  match hs with
  | [] => row
  | header :: hs' =>
      fillRow hs' (S index) line (assign header (cell line index) row)
  end.
Proof. by destruct hs. Qed.

(** A name that is no header keeps what the row had for it. *)
Lemma fillRow_lookup_other hs : ∀ index line row h,
  h ∉ hs → fillRow hs index line row !! h = row !! h.
Proof.
  induction hs as [|h0 hs IH]; intros index line row h Hnot; [done|].
  apply not_elem_of_cons in Hnot as [Hne Hnot].
  rewrite fillRow_cell, IH by done.
  rewrite assign_lookup. destruct (decide (h0 = PROTO)); [done|].
  by rewrite decide_False.
Qed.

(** No row gets an entry named [__proto__]. *)
Lemma fillRow_lookup_proto hs : ∀ index line row,
  fillRow hs index line row !! PROTO = row !! PROTO.
Proof.
  induction hs as [|h0 hs IH]; intros index line row; [done|].
  rewrite fillRow_cell, IH, assign_lookup.
  destruct (decide (h0 = PROTO)) as [->|Hne]; [done|].
  by destruct (decide (h0 = PROTO)).
Qed.

(** The entry under a header is the field of its last column. *)
Lemma fillRow_lookup_last hs : ∀ index line row h k,
  hs !! k = Some h →
  (∀ k', (k < k')%nat → hs !! k' ≠ Some h) →
  h ≠ PROTO →
  fillRow hs index line row !! h = Some (cell line (index + k)).
Proof.
  induction hs as [|h0 hs IH]; intros index line row h k Hk Hlast Hproto;
    [done|].
  rewrite fillRow_cell. destruct k as [|k]; simpl in Hk.
  - simplify_eq. rewrite fillRow_lookup_other.
    + rewrite assign_lookup, decide_False, decide_True by done.
      by rewrite Nat.add_0_r.
    + intros Hin. apply list_elem_of_lookup in Hin as [k' Hk'].
      by apply (Hlast (S k')); [lia|].
  - rewrite (IH (S index) line _ h k); [|done| |done].
    + f_equal. f_equal. lia.
    + intros k' Hlt. apply (Hlast (S k')). lia.
Qed.

(** The names of a row: those it had and the headers, [__proto__]
    excepted. *)
Lemma fillRow_dom hs : ∀ index line row,
  dom (fillRow hs index line row)
  = dom row ∪ (list_to_set hs ∖ {[PROTO]} : gset jsstring).
Proof.
  induction hs as [|h0 hs IH]; intros index line row.
  - cbn [fillRow]. rewrite list_to_set_nil.
    apply set_eq. intros x.
    rewrite elem_of_union, elem_of_difference, elem_of_empty. tauto.
  - rewrite fillRow_cell, IH, list_to_set_cons. unfold assign.
    apply set_eq. intros x.
    destruct (decide (h0 = PROTO)) as [->|Hne].
    + rewrite !elem_of_union, !elem_of_difference, elem_of_union,
        !elem_of_singleton. tauto.
    + rewrite dom_insert_L.
      rewrite !elem_of_union, !elem_of_difference, elem_of_union,
        !elem_of_singleton.
      split; [|tauto]. intros [[->|?]|?]; tauto.
Qed.

Lemma size_list_to_set_le (hs : list jsstring) :
  (size (list_to_set hs : gset jsstring) ≤ length hs)%nat.
Proof.
  induction hs as [|h hs IH].
  - rewrite list_to_set_nil, size_empty. done.
  - rewrite list_to_set_cons, size_union_alt, size_singleton.
    assert (list_to_set hs ∖ {[h]} ⊆ (list_to_set hs : gset jsstring)) as Hsub
      by apply subseteq_difference_l, reflexivity.
    apply subseteq_size in Hsub. simpl. lia.
Qed.

(** A repeated header makes the set of names smaller than the list. *)
Lemma size_list_to_set_repeated (hs : list jsstring) :
  ¬ NoDup hs → (size (list_to_set hs : gset jsstring) < length hs)%nat.
Proof.
  induction hs as [|h hs IH]; intros Hdup.
  - destruct Hdup. constructor.
  - rewrite list_to_set_cons. destruct (decide (h ∈ hs)) as [Hin|Hnotin].
    + assert ({[h]} ∪ list_to_set hs = (list_to_set hs : gset jsstring)) as ->.
      { apply subseteq_union_1_L, singleton_subseteq_l.
        by apply elem_of_list_to_set. }
      pose proof (size_list_to_set_le hs). simpl. lia.
    + assert (¬ NoDup hs) as Hd by (intros Hnd; apply Hdup; by constructor).
      specialize (IH Hd).
      rewrite size_union, size_singleton; [simpl; lia|].
      apply disjoint_singleton_l. by rewrite elem_of_list_to_set.
Qed.

Lemma repeated_not_NoDup (hs : list jsstring) h j k :
  (j < k)%nat → hs !! j = Some h → hs !! k = Some h → ¬ NoDup hs.
Proof.
  intros Hlt Hj Hk Hnd.
  pose proof (NoDup_lookup hs j k h Hnd Hj Hk). lia.
Qed.

(** A field whose header comes again later is overwritten. *)
Lemma fillRow_overwritten hs : ∀ index line row h v v',
  h ∈ hs →
  fillRow hs index line (assign h v row)
  = fillRow hs index line (assign h v' row).
Proof.
  induction hs as [|h0 hs IH]; intros index line row h v v' Hin.
  - by apply elem_of_nil in Hin.
  - rewrite !(fillRow_cell (h0 :: hs)).
    destruct (decide (h0 = h)) as [->|Hne].
    + by rewrite !assign_assign.
    + apply elem_of_cons in Hin as [->|Hin]; [done|].
      rewrite !(assign_commute h0 _ h) by done. by apply IH.
Qed.

(** Rows depend on the line through the cells that are read only. *)
Lemma fillRow_ext hs : ∀ index line line' row,
  (∀ p, (p < length hs)%nat → cell line (index + p) = cell line' (index + p)) →
  fillRow hs index line row = fillRow hs index line' row.
Proof.
  induction hs as [|h0 hs IH]; intros index line line' row Hcells; [done|].
  rewrite !(fillRow_cell (h0 :: hs)).
  pose proof (Hcells 0%nat ltac:(simpl; lia)) as H0.
  rewrite Nat.add_0_r in H0. rewrite H0. apply IH.
  intros p Hp. specialize (Hcells (S p) ltac:(simpl; lia)).
  by replace (S index + p)%nat with (index + S p)%nat by lia.
Qed.

Lemma cell_insert_ne line j x p :
  p ≠ j → cell (<[j := x]> line) p = cell line p.
Proof.
  intros Hne. unfold cell. rewrite length_insert.
  by rewrite list_lookup_insert_ne.
Qed.

(** The field of a column whose header comes again later does not reach
    the row. *)
Lemma fillRow_forgets hs : ∀ index line row j x,
  (∀ p h, (index + p = j)%nat → hs !! p = Some h →
          ∃ p', (p < p')%nat ∧ hs !! p' = Some h) →
  fillRow hs index (<[j := x]> line) row = fillRow hs index line row.
Proof.
  induction hs as [|h0 hs IH]; intros index line row j x Hlater; [done|].
  rewrite !(fillRow_cell (h0 :: hs)).
  destruct (decide (index = j)) as [->|Hne].
  - destruct (Hlater 0%nat h0 ltac:(lia) eq_refl) as (p' & Hlt & Hp').
    destruct p' as [|p']; [lia|]. simpl in Hp'.
    rewrite (fillRow_ext hs (S j) (<[j := x]> line) line).
    + apply fillRow_overwritten. by eapply list_elem_of_lookup_2.
    + intros p _. apply cell_insert_ne. lia.
  - rewrite cell_insert_ne by done. apply IH.
    intros p h Hp Hh. destruct (Hlater (S p) h ltac:(lia) Hh) as (p' & Hlt & Hp').
    destruct p' as [|p']; [lia|]. exists p'. split; [lia|done].
Qed.

Lemma adjustLine_length m line : length (adjustLine m line) = m.
Proof.
  unfold adjustLine. destruct (Nat.ltb_spec (length line) m).
  - rewrite length_app, length_replicate. lia.
  - rewrite length_take. lia.
Qed.

Lemma adjustLine_same line : adjustLine (length line) line = line.
Proof.
  unfold adjustLine. rewrite Nat.ltb_irrefl. by rewrite firstn_all.
Qed.

(** Padding with empty strings or truncating, cell by cell. *)
Lemma adjustLine_lookup m line j :
  adjustLine m line !! j
  = if decide (j < m)%nat then Some (default [] (line !! j)) else None.
Proof.
  unfold adjustLine. destruct (Nat.ltb_spec (length line) m).
  - destruct (decide (j < m)%nat).
    + destruct (decide (j < length line)%nat).
      * rewrite lookup_app_l by done.
        destruct (lookup_lt_is_Some_2 line j) as [x Hx]; [done|].
        by rewrite Hx.
      * rewrite lookup_app_r by lia.
        rewrite (lookup_ge_None_2 line j) by lia. simpl.
        rewrite lookup_replicate_2 by lia. done.
    + apply lookup_ge_None_2. rewrite length_app, length_replicate. lia.
  - destruct (decide (j < m)%nat).
    + rewrite lookup_take_lt by done.
      destruct (lookup_lt_is_Some_2 line j) as [x Hx]; [lia|].
      by rewrite Hx.
    + apply lookup_ge_None_2. rewrite length_take. lia.
Qed.

Lemma convertLine_row hs lineIndex line errs :
  (convertLine hs lineIndex line errs).1
  = fillRow hs 0 (adjustLine (length hs) line) ∅.
Proof.
  unfold convertLine. destruct (Nat.eqb_spec (length line) (length hs)) as [E|E].
  - simpl. by rewrite <- E, adjustLine_same.
  - done.
Qed.

Lemma convertLine_errors hs lineIndex line errs :
  (convertLine hs lineIndex line errs).2 = errs ++ mismatch hs lineIndex line.
Proof.
  unfold convertLine, mismatch.
  destruct (Nat.eqb_spec (length line) (length hs)) as [E|E]; simpl.
  - by rewrite decide_True, app_nil_r.
  - by rewrite decide_False.
Qed.

(** [lines.map]: one row per line, in order, and the errors of the
    mismatching lines, in order. *)
Lemma convertLines_spec hs ls : ∀ lineIndex errs,
  convertLines hs lineIndex ls errs
  = ((λ line, fillRow hs 0 (adjustLine (length hs) line) ∅) <$> ls,
     errs ++ concat (imap (λ i line, mismatch hs (lineIndex + i) line) ls)).
Proof.
  induction ls as [|line ls IH]; intros lineIndex errs; simpl.
  - by rewrite app_nil_r.
  - pose proof (convertLine_row hs lineIndex line errs) as Hr.
    pose proof (convertLine_errors hs lineIndex line errs) as He.
    destruct (convertLine hs lineIndex line errs) as [row errs1].
    simpl in Hr, He. subst. rewrite IH. rewrite Nat.add_0_r.
    rewrite <- app_assoc. do 4 f_equal.
    apply imap_ext. intros i x _. simpl. f_equal. lia.
Qed.

End RowFacts.

(** ** The parser *)

Section ParserFacts.
Import Js Csv.

Lemma adjustLine_insert m line j x :
  (j < length line)%nat →
  adjustLine m (<[j := x]> line) = <[j := x]> (adjustLine m line).
Proof.
  intros Hj. unfold adjustLine. rewrite length_insert.
  destruct (Nat.ltb_spec (length line) m).
  - by rewrite insert_app_l.
  - destruct (decide (j < m)%nat).
    + by rewrite take_insert_lt.
    + rewrite take_insert_ge by lia.
      rewrite list_insert_ge; [done|]. rewrite length_take. lia.
Qed.

Lemma finishField_nil o : finishField o [] = [].
Proof. unfold finishField. by destruct (trimFields o). Qed.

Lemma mismatch_shape hs ls : ∀ g : nat → nat,
  Forall ErrorShape (concat (imap (λ i line, mismatch hs (g i) line) ls)).
Proof.
  induction ls as [|line ls IH]; intros g; simpl; [constructor|].
  apply Forall_app. split.
  - unfold mismatch. destruct (decide _); constructor; [|constructor].
    right. eauto.
  - exact (IH (g ∘ S)).
Qed.

(** [parseText] in terms of the lines, the headers and the rows. *)
Lemma parseText_lines csvText o hs dataLines :
  tokenLines o csvText ≠ [] →
  splitHeaders o (tokenLines o csvText) = (hs, dataLines) →
  parseText csvText o =
  {| data := (λ line, fillRow hs 0 (adjustLine (length hs) line) ∅) <$> dataLines;
     headers := hs;
     errors := concat (imap (mismatch hs) dataLines) |}.
Proof.
  intros Hne Hsplit. unfold parseText.
  destruct (tokenLines o csvText) as [|l ls] eqn:Hls; [done|].
  cbn [length Nat.eqb]. rewrite Hsplit, convertLines_spec. done.
Qed.

Lemma parseText_empty csvText o :
  tokenLines o csvText = [] →
  parseText csvText o =
  {| data := []; headers := []; errors := [js "Empty CSV content"] |}.
Proof. intros Hls. unfold parseText. by rewrite Hls. Qed.

(** A text that is one quoted field, quotes inside it doubled. *)
Lemma tokenLines_quoted_field o v :
  finishField o v ≠ [] →
  tokenLines o (DQUOTE :: doubleQuotes v ++ [DQUOTE]) = [[finishField o v]].
Proof.
  intros Hv. unfold tokenLines. cbn [stripBOM].
  change (DQUOTE =? BOM)%N with false. cbv iota.
  rewrite tokenize_quoted_field by done.
  unfold lastLine, appendField, keepLine. simpl.
  destruct v as [|c v]; [by rewrite finishField_nil in Hv|]. simpl.
  destruct (finishField o (c :: v)) as [|c' v'] eqn:Hf; [done|].
  simpl. by rewrite !orb_true_r.
Qed.

Lemma parseCSV_quoted_field decoder o v :
  hasHeaders o = false →
  finishField o v ≠ [] →
  parseCSV decoder (Text (DQUOTE :: doubleQuotes v ++ [DQUOTE])) o
  = Returns {| data := [ {[ columnName 0 := finishField o v ]} ];
               headers := [columnName 0];
               errors := [] |}.
Proof.
  intros Hh Hv. unfold parseCSV. f_equal.
  rewrite (parseText_lines _ o [columnName 0] [[finishField o v]]).
  - reflexivity.
  - by rewrite tokenLines_quoted_field.
  - rewrite tokenLines_quoted_field by done. unfold splitHeaders.
    by rewrite Hh.
Qed.

(** Decoding a buffer is the one step that can throw. *)
Lemma parseCSV_buffer_throws (decoder : Decoder) bytes o :
  parseCSV decoder (Buffer bytes) o = Throws
  ↔ decoder (encoding o) bytes = None.
Proof. unfold parseCSV. by destruct (decoder (encoding o) bytes). Qed.

(** C5: in quote mode two quotes in a row append one quote to the field
    and both are consumed; hence a quoted field whose quotes are doubled
    gives its content back, as the value of the field up to trimming, and
    the field of the specification, [She said] and a quoted [hi] inside
    quotes, parses to [She said] followed by [hi] between two quotes. *)
Theorem doubled_quote_escape :
  (∀ o rest st,
     inQuotes st = true →
     tokenize o (DQUOTE :: DQUOTE :: rest) st
     = tokenize o rest (addChar DQUOTE st))
  ∧ (∀ o v rest st,
       inQuotes st = false → nextIs rest DQUOTE = false →
       tokenize o (DQUOTE :: doubleQuotes v ++ DQUOTE :: rest) st
       = tokenize o rest (appendField v st))
  ∧ (∀ (decoder : Decoder) o v,
       hasHeaders o = false → finishField o v ≠ [] →
       parseCSV decoder (Text (DQUOTE :: doubleQuotes v ++ [DQUOTE])) o
       = Returns {| data := [ {[ columnName 0 := finishField o v ]} ];
                    headers := [columnName 0];
                    errors := [] |})
  ∧ (∀ (decoder : Decoder) o,
       parseCSV decoder
         (Text ([DQUOTE] ++ js "She said " ++ [DQUOTE; DQUOTE] ++ js "hi"
                ++ [DQUOTE; DQUOTE; DQUOTE]))
         {| hasHeaders := false; delimiter := delimiter o;
            trimFields := trimFields o; encoding := encoding o;
            skipEmptyLines := skipEmptyLines o |}
       = Returns
           {| data := [ {[ js "Column 1" :=
                             js "She said " ++ [DQUOTE] ++ js "hi" ++ [DQUOTE] ]} ];
              headers := [js "Column 1"];
              errors := [] |}).
Proof.
  split; [|split; [|split]].
  - intros. by apply tokenize_escaped_quote.
  - intros. by apply tokenize_quoted_field.
  - intros. by apply parseCSV_quoted_field.
  - intros decoder o.
    pose proof (parseCSV_quoted_field decoder
      {| hasHeaders := false; delimiter := delimiter o;
         trimFields := trimFields o; encoding := encoding o;
         skipEmptyLines := skipEmptyLines o |}
      (js "She said " ++ [DQUOTE] ++ js "hi" ++ [DQUOTE]) eq_refl) as H.
    unfold finishField in H. simpl in H.
    destruct (trimFields o); apply H; done.
Qed.

(** The theorem on the field [say "hi"] read into an empty state. *)
Lemma doubled_quote_escape_witness :
  tokenize defaultOptions
    (DQUOTE :: doubleQuotes (js "say " ++ [DQUOTE] ++ js "hi" ++ [DQUOTE])
     ++ DQUOTE :: js ",x") initTok
  = tokenize defaultOptions (js ",x")
      (appendField (js "say " ++ [DQUOTE] ++ js "hi" ++ [DQUOTE]) initTok).
Proof.
  apply (proj1 (proj2 doubled_quote_escape)); reflexivity.
Defined.

(** C6: for every text with at least one committed line, the errors are
    exactly one ["Line i has n fields, expected m"] per data line whose
    field count [n] differs from the header count [m], in line order and
    with [i] counted from 1 among the data lines; every data line, padded
    with empty strings or truncated to [m] fields, gives its row.  The
    text [a,b,c\n1,2] gives the row and the error of the specification. *)
Theorem field_count_mismatch :
  (∀ (decoder : Decoder) csvText o hs dataLines,
     tokenLines o csvText ≠ [] →
     splitHeaders o (tokenLines o csvText) = (hs, dataLines) →
     ∃ r, parseCSV decoder (Text csvText) o = Returns r
          ∧ headers r = hs
          ∧ errors r = concat (imap (mismatch hs) dataLines)
          ∧ data r = (λ line, fillRow hs 0 (adjustLine (length hs) line) ∅)
                     <$> dataLines)
  ∧ (∀ hs lineIndex line,
       mismatch hs lineIndex line =
       if decide (length line = length hs) then []
       else [js "Line " ++ showNat (lineIndex + 1) ++ js " has "
             ++ showNat (length line) ++ js " fields, expected "
             ++ showNat (length hs)])
  ∧ (∀ m line,
       length (adjustLine m line) = m
       ∧ ∀ j, adjustLine m line !! j
              = if decide (j < m)%nat then Some (default [] (line !! j))
                else None)
  ∧ (∀ decoder : Decoder,
       parseCSV decoder (Text (js "a,b,c" ++ [LF] ++ js "1,2")) defaultOptions
       = Returns
           {| data := [ {[ js "a" := js "1"; js "b" := js "2"; js "c" := [] ]} ];
              headers := [js "a"; js "b"; js "c"];
              errors := [js "Line 1 has 2 fields, expected 3"] |}).
Proof.
  split; [|split; [|split]].
  - intros decoder csvText o hs dataLines Hne Hsplit.
    exists (parseText csvText o). split; [reflexivity|].
    by rewrite (parseText_lines csvText o hs dataLines).
  - reflexivity.
  - intros m line. split; [apply adjustLine_length|apply adjustLine_lookup].
  - intros decoder. vm_compute. reflexivity.
Qed.

(** The theorem on a header of two columns and a data line of three. *)
Lemma field_count_mismatch_witness :
  ∃ r, parseCSV (λ _ _, None) (Text (js "a,b" ++ [LF] ++ js "1,2,3"))
         defaultOptions = Returns r
       ∧ headers r = [js "a"; js "b"]
       ∧ errors r = [js "Line 1 has 3 fields, expected 2"]
       ∧ data r = [ {[ js "a" := js "1"; js "b" := js "2" ]} ].
Proof.
  destruct (proj1 field_count_mismatch (λ _ _, None)
              (js "a,b" ++ [LF] ++ js "1,2,3") defaultOptions
              [js "a"; js "b"] [[js "1"; js "2"; js "3"]])
    as (r & Hr & Hh & He & Hd).
  - vm_compute. discriminate.
  - vm_compute. reflexivity.
  - exists r. repeat split; [exact Hr|exact Hh|rewrite He|rewrite Hd];
      vm_compute; reflexivity.
Defined.

(** C9: the rows built for a header that stands at two or more columns.
    For a repeated header [h] other than [__proto__] the row of a data
    line has one entry for [h], the field of the last column named [h]
    (the empty string if the line is shorter), as the claim says.  For
    the header [__proto__] the code departs from it: the assignment
    [row[header] = line[index]] creates no property, and the row has no
    entry under that name at all.  Whatever the name, the row has fewer
    entries than there are columns, and the field of the earlier column
    does not reach the row: changing it changes nothing. *)
Theorem repeated_header_last_wins hs lineIndex line errs h j k :
  (j < k)%nat →
  hs !! j = Some h →
  hs !! k = Some h →
  (∀ k', (k < k')%nat → hs !! k' ≠ Some h) →
  (h ≠ PROTO →
   (convertLine hs lineIndex line errs).1 !! h = Some (default [] (line !! k)))
  ∧ (h = PROTO → (convertLine hs lineIndex line errs).1 !! h = None)
  ∧ (size (convertLine hs lineIndex line errs).1 < length hs)%nat
  ∧ (∀ x, (convertLine hs lineIndex (<[j := x]> line) errs).1
          = (convertLine hs lineIndex line errs).1).
Proof.
  intros Hjk Hj Hk Hlast. rewrite !convertLine_row.
  split; [|split; [|split]].
  - intros Hproto.
    rewrite (fillRow_lookup_last hs 0 _ ∅ h k Hk Hlast Hproto).
    unfold cell. rewrite adjustLine_length, adjustLine_lookup. simpl.
    apply lookup_lt_Some in Hk.
    destruct (Nat.ltb_spec k (length hs)); [|lia].
    by rewrite decide_True.
  - intros ->. by rewrite fillRow_lookup_proto.
  - apply (Nat.le_lt_trans _ (size (list_to_set hs : gset jsstring))).
    + rewrite <- size_dom, fillRow_dom, dom_empty_L.
      apply subseteq_size. rewrite union_empty_l_L.
      apply subseteq_difference_l. reflexivity.
    + apply size_list_to_set_repeated.
      by apply (repeated_not_NoDup hs h j k).
  - intros x. rewrite convertLine_row.
    destruct (decide (j < length line)%nat) as [Hlt|Hge].
    + rewrite adjustLine_insert by done. apply fillRow_forgets.
      intros p h' Hp Hh'. simpl in Hp. subst p.
      exists k. split; [done|]. congruence.
    + by rewrite list_insert_ge by lia.
Qed.

(** The theorem on the failing input: the headers [__proto__, __proto__]
    and the line [1, 2], as [parseCSV] gets them from the text
    [__proto__,__proto__\n1,2].  The row is empty, where the claim
    announces the entry [__proto__: 2]. *)
Lemma repeated_header_last_wins_witness :
  parseCSV (λ _ _, None)
    (Text (js "__proto__,__proto__" ++ [LF] ++ js "1,2")) defaultOptions
  = Returns {| data := [ (convertLine [js "__proto__"; js "__proto__"] 0
                            [js "1"; js "2"] []).1 ];
               headers := [js "__proto__"; js "__proto__"];
               errors := [] |}
  ∧ (convertLine [js "__proto__"; js "__proto__"] 0 [js "1"; js "2"] []).1
      !! js "__proto__" = None
  ∧ (convertLine [js "__proto__"; js "__proto__"] 0 [js "1"; js "2"] []).1
    = ∅.
Proof.
  split; [vm_compute; reflexivity|]. split; [|vm_compute; reflexivity].
  destruct (repeated_header_last_wins [js "__proto__"; js "__proto__"] 0
              [js "1"; js "2"] [] (js "__proto__") 0 1) as (_ & Hnone & _).
  - lia.
  - reflexivity.
  - reflexivity.
  - intros k' Hk'. destruct k' as [|[|k']]; [lia|lia|discriminate].
  - apply Hnone. reflexivity.
Defined.

(** The same rows for a repeated header of another name: the headers
    [id, id] and the line [1, 2] give the one entry [id: 2]. *)
Lemma repeated_id_header_last_entry :
  parseCSV (λ _ _, None) (Text (js "id,id" ++ [LF] ++ js "1,2")) defaultOptions
  = Returns {| data := [ {[ js "id" := js "2" ]} ];
               headers := [js "id"; js "id"];
               errors := [] |}.
Proof. vm_compute. reflexivity. Qed.

End ParserFacts.

(** ** Delimiter detection *)

Section DelimiterFacts.
Import Js Csv.



(** The outcome of the four comparisons, for any four counts. *)
Lemma pick_first_maximum (n1 n2 n3 n4 : nat) :
  let count c :=
    if (c =? COMMA)%N then n1 else if (c =? SEMICOLON)%N then n2
    else if (c =? TAB)%N then n3 else n4 in
  let d := snd (foldl pick (0%nat, COMMA)
                  [(COMMA, n1); (SEMICOLON, n2); (TAB, n3); (PIPE, n4)]) in
  d ∈ candidates
  ∧ (∀ c, c ∈ candidates → (count c ≤ count d)%nat)
  ∧ (∀ i j c, candidates !! i = Some c → candidates !! j = Some d →
              (i < j)%nat → (count c < count d)%nat).
Proof.
  intros count d. subst count d. unfold candidates. simpl.
  repeat match goal with
  | |- context [(?a <? ?b)%nat] => destruct (Nat.ltb_spec a b); simpl
  end.
  all: split; [set_solver|]; split.
  all: try (intros c Hc;
            repeat (apply elem_of_cons in Hc as [->|Hc]; [simpl; lia|]);
            by apply elem_of_nil in Hc).
  all: intros i j c Hi Hj Hlt;
       destruct j as [|[|[|[|j]]]]; simpl in Hj; try discriminate Hj;
       destruct i as [|[|[|[|i]]]]; simpl in Hi; try lia;
       injection Hi as <-; simpl; lia.
Qed.



End DelimiterFacts.

(** ** Column auto-matching *)

Section AutoMatchFacts.
Import Js AutoMatch.

Variable toLowerCase : jsstring → jsstring.

(** An index found by [findIndex] is an index of the list, so that
    [parsedHeaders[matchIndex]] is a header. *)
Lemma findIndex_lookup {A} (p : A → bool) (a : list A) i :
  findIndex p a = Some i → ∃ x, a !! i = Some x ∧ p x = true.
Proof.
  revert i. induction a as [|x a IH]; intros i; simpl; [done|].
  destruct (p x) eqn:Hp.
  - intros [= <-]. eauto.
  - destruct (findIndex p a) as [i'|]; [|done]. simpl.
    intros [= <-]. by apply IH.
Qed.

Lemma delete_keys_lookup (keys : list jsstring) : ∀ (m : Mapping) k,
  foldl (λ acc key, delete key acc) m keys !! k
  = if decide (k ∈ keys) then None else m !! k.
Proof.
  induction keys as [|key keys IH]; intros m k; cbn [foldl].
  - destruct (decide (k ∈ [])) as [Hin|_]; [|done].
    by apply elem_of_nil in Hin.
  - rewrite IH.
    destruct (decide (k ∈ keys)) as [Hin|Hnot],
             (decide (k ∈ key :: keys)) as [Hin'|Hnot']; try done.
    + destruct Hnot'. by right.
    + apply elem_of_cons in Hin' as [->|Hin']; [|done].
      apply lookup_delete_eq.
    + rewrite lookup_delete_ne; [done|]. intros <-. apply Hnot'. by left.
Qed.

(** Deleting every key leaves the empty object. *)
Lemma clearMapping_empty (m : Mapping) : clearMapping m = ∅.
Proof.
  apply map_eq. intros k. unfold clearMapping.
  rewrite delete_keys_lookup, lookup_empty.
  destruct (decide (k ∈ elements (dom m))) as [_|Hnot]; [done|].
  apply not_elem_of_dom. by rewrite <- elem_of_elements.
Qed.

Section Step.

Variable props : MapProps.
Variable parsedHeaders : list jsstring.

Local Abbreviation step := (autoMatchField toLowerCase props parsedHeaders).

(** A field that reads as unmapped is not [__proto__], and has no entry
    or the empty string as entry. *)
Lemma isMapped_false (m : Mapping) f :
  isMapped m f = false → f ≠ PROTO ∧ truthy (m !! f) = false.
Proof.
  unfold isMapped. destruct (decide (f = PROTO)); [done|].
  by destruct (m !! f).
Qed.

(** The read of a name depends on the entry under that name only. *)
Lemma isMapped_ext (m m' : Mapping) f :
  m !! f = m' !! f → isMapped m f = isMapped m' f.
Proof. unfold isMapped. by intros ->. Qed.

Lemma isMapped_own (m : Mapping) f h :
  f ≠ PROTO → m !! f = Some h → isMapped m f = truthy (Some h).
Proof.
  intros Hf Hm. unfold isMapped. by rewrite decide_False, Hm.
Qed.

(** One field either leaves the mapping as it is, or maps a field that
    read as unmapped. *)
Lemma autoMatchField_unmapped (m : Mapping) e :
  step m e = m
  ∨ (e.1 ≠ PROTO ∧ isMapped m e.1 = false
     ∧ ∃ h, matchedHeader toLowerCase props parsedHeaders e = Some h
            ∧ step m e = <[e.1 := h]> m).
Proof.
  unfold step, autoMatchField.
  destruct (isMapped m e.1) eqn:Hm; [by left|].
  destruct (isMapped_false m e.1 Hm) as [Hp _].
  destruct (matchedHeader toLowerCase props parsedHeaders e) as [h|];
    [|by left].
  right. unfold mapField, assign. rewrite decide_False by done. eauto.
Qed.

Lemma autoMatchField_cases (m : Mapping) e :
  step m e = m
  ∨ (e.1 ≠ PROTO ∧ truthy (m !! e.1) = false
     ∧ ∃ h, matchedHeader toLowerCase props parsedHeaders e = Some h
            ∧ step m e = <[e.1 := h]> m).
Proof.
  destruct (autoMatchField_unmapped m e) as [?|(Hp & Hm & Hh)]; [by left|].
  right. split; [done|]. split; [|done]. by apply isMapped_false.
Qed.

Lemma autoMatchField_keeps (m : Mapping) e f v :
  m !! f = Some v → v ≠ [] → step m e !! f = Some v.
Proof.
  intros Hf Hv.
  destruct (autoMatchField_cases m e) as [->|(_ & Ht & h & _ & ->)]; [done|].
  rewrite lookup_insert_ne; [done|]. intros <-. rewrite Hf in Ht.
  by destruct v.
Qed.

(** A field for which the mapping is settled stays so when another field
    is processed. *)
Lemma autoMatchField_settled (m : Mapping) e e' :
  step m e = m → step (step m e') e = step m e'.
Proof.
  intros Hst.
  destruct (autoMatchField_unmapped m e') as [->|(Hp' & Hu' & h' & _ & ->)];
    [done|].
  revert Hst. unfold step, autoMatchField.
  destruct (decide (e.1 = e'.1)) as [Heq|Hne].
  - assert (isMapped m e.1 = false) as -> by (by rewrite Heq).
    assert (isMapped (<[e'.1:=h']> m) e.1 = truthy (Some h')) as ->.
    { apply isMapped_own; rewrite Heq; [done|apply lookup_insert_eq]. }
    destruct h' as [|c h']; simpl; [|done].
    destruct (matchedHeader toLowerCase props parsedHeaders e) as [h|];
      [|done].
    unfold mapField, assign. rewrite Heq.
    destruct (decide (e'.1 = PROTO)); [done|].
    intros Hm. rewrite insert_insert_eq.
    assert (m !! e'.1 = Some h) as Hh by (rewrite <- Hm; apply lookup_insert_eq).
    apply isMapped_false in Hu' as [_ Ht']. rewrite Hh in Ht'.
    destruct h; [done|done].
  - rewrite (isMapped_ext (<[e'.1:=h']> m) m) by (by rewrite lookup_insert_ne).
    destruct (isMapped m e.1); [done|].
    destruct (matchedHeader toLowerCase props parsedHeaders e) as [h|];
      [|done].
    unfold mapField, assign. destruct (decide (e.1 = PROTO)); [done|].
    intros Hm. apply insert_id. rewrite lookup_insert_ne by done.
    rewrite <- Hm. apply lookup_insert_eq.
Qed.

Lemma autoMatchField_again (m : Mapping) e :
  step (step m e) e = step m e.
Proof.
  destruct (autoMatchField_cases m e) as [Heq|(Hp & Ht & h & Hh & Heq)].
  - by rewrite !Heq.
  - rewrite Heq. unfold step, autoMatchField.
    rewrite (isMapped_own _ e.1 h Hp) by apply lookup_insert_eq.
    rewrite Hh. unfold mapField, assign. rewrite decide_False by done.
    destruct (truthy (Some h)); [done|]. apply insert_insert_eq.
Qed.

Lemma foldl_settled (fields : Fields) : ∀ m : Mapping,
  (∀ e, e ∈ fields → step m e = m) → foldl step m fields = m.
Proof.
  induction fields as [|e fields IH]; intros m Hall; [done|]. simpl.
  rewrite (Hall e) by (by left). apply IH. intros e' He'. apply Hall.
  by right.
Qed.

Lemma foldl_settles (fields : Fields) : ∀ (m : Mapping) e,
  e ∈ fields → step (foldl step m fields) e = foldl step m fields.
Proof.
  induction fields as [|e0 fields IH] using rev_ind; intros m e He.
  - by apply elem_of_nil in He.
  - rewrite foldl_snoc. apply elem_of_app in He as [He|He].
    + apply autoMatchField_settled. by apply IH.
    + apply list_elem_of_singleton in He as ->. apply autoMatchField_again.
Qed.

Lemma foldl_keeps (fields : Fields) : ∀ (m : Mapping) f v,
  m !! f = Some v → v ≠ [] → foldl step m fields !! f = Some v.
Proof.
  induction fields as [|e fields IH]; intros m f v Hf Hv; [done|]. simpl.
  apply IH; [|done]. by apply autoMatchField_keeps.
Qed.

End Step.

(** C2, amended: [autoMatchFields] skips the fields already mapped: an
    entry of the mapping that is a non-empty string is in the result
    unchanged, and a second run on the same headers and fields changes
    nothing.  [autoMapColumns] does not keep the existing mapping: with
    headers present it clears it and computes the result from the headers
    and the fields alone; a second run changes nothing either. *)
Theorem autoMatch_idempotent :
  (∀ props fields parsedHeaders parsedData (m : Mapping) f v,
     m !! f = Some v → v ≠ [] →
     autoMatchFields toLowerCase props fields parsedHeaders parsedData m !! f
     = Some v)
  ∧ (∀ props fields parsedHeaders parsedData (m : Mapping),
       autoMatchFields toLowerCase props fields parsedHeaders parsedData
         (autoMatchFields toLowerCase props fields parsedHeaders parsedData m)
       = autoMatchFields toLowerCase props fields parsedHeaders parsedData m)
  ∧ (∀ fields parsedHeaders (m : Mapping),
       autoMapColumns toLowerCase fields parsedHeaders
         (autoMapColumns toLowerCase fields parsedHeaders m)
       = autoMapColumns toLowerCase fields parsedHeaders m)
  ∧ (∀ fields parsedHeaders (m : Mapping),
       parsedHeaders ≠ [] →
       autoMapColumns toLowerCase fields parsedHeaders m
       = autoMapColumns toLowerCase fields parsedHeaders ∅).
Proof.
  split; [|split; [|split]].
  - intros props fields hs dat m f v Hf Hv. unfold autoMatchFields.
    destruct (negb (autoMatch props) || _); [done|]. by apply foldl_keeps.
  - intros props fields hs dat m. unfold autoMatchFields.
    destruct (negb (autoMatch props) || _); [done|].
    apply foldl_settled. intros e He. by apply foldl_settles.
  - intros fields hs m. unfold autoMapColumns.
    destruct (length hs =? 0)%nat; [done|]. by rewrite !clearMapping_empty.
  - intros fields hs m Hne. unfold autoMapColumns.
    destruct hs; [done|]. simpl. by rewrite !clearMapping_empty.
Qed.

End AutoMatchFacts.

Section AutoMatchExamples.
Import Js AutoMatch.

(** The theorem on a mapping that already sends [name] to the column
    [Full name], with a column [name] present. *)
Lemma autoMatch_idempotent_witness :
  autoMatchFields asciiLower
    {| autoMatch := true; autoMatchIgnoreCase := true |}
    [(js "name", {| required := true; label := None |})]
    [js "name"; js "Full name"] [∅]
    {[ js "name" := js "Full name" ]} !! js "name"
  = Some (js "Full name").
Proof.
  apply (proj1 (autoMatch_idempotent asciiLower)); [reflexivity|discriminate].
Defined.

(** C2 as stated fails for [autoMapColumns]: the entry that sends [name]
    to the column [Full name] is replaced by the column [name]. *)
Lemma autoMapColumns_overwrites :
  ({[ js "name" := js "Full name" ]} : Mapping) !! js "name"
  = Some (js "Full name")
  ∧ autoMapColumns asciiLower
      [(js "name", {| required := true; label := None |})]
      [js "name"; js "Full name"]
      {[ js "name" := js "Full name" ]} !! js "name"
    = Some (js "name").
Proof.
  split; [reflexivity|].
  unfold autoMapColumns. rewrite clearMapping_empty. reflexivity.
Qed.

End AutoMatchExamples.

(** ** Further properties of the parser *)

Section TrimFacts.
Import Js.

Lemma trimStart_suffix s : ∃ pre, s = pre ++ trimStart s.
Proof.
  induction s as [|c s [pre IH]]; simpl.
  - by exists [].
  - destruct (isTrimmed c).
    + exists (c :: pre). simpl. by rewrite <- IH.
    + by exists [].
Qed.

Lemma trimStart_head s c : head (trimStart s) = Some c → isTrimmed c = false.
Proof.
  induction s as [|c' s IH]; simpl; [done|].
  destruct (isTrimmed c') eqn:E; [done|]. simpl. by intros [= <-].
Qed.

Lemma trimStart_fixed s :
  (∀ c, head s = Some c → isTrimmed c = false) → trimStart s = s.
Proof.
  destruct s as [|c s]; simpl; [done|]. intros H. by rewrite (H c eq_refl).
Qed.

Lemma trimStart_idemp s : trimStart (trimStart s) = trimStart s.
Proof. apply trimStart_fixed, trimStart_head. Qed.

Lemma trimStart_blank s : forallb isTrimmed s = true → trimStart s = [].
Proof.
  induction s as [|c s IH]; simpl; [done|].
  intros [Hc Hs]%andb_true_iff. rewrite Hc. by apply IH.
Qed.

(** A trimmed string starts and ends with characters that [trim] keeps. *)
Lemma trim_ends s :
  (∀ c, head (trim s) = Some c → isTrimmed c = false)
  ∧ (∀ c, last (trim s) = Some c → isTrimmed c = false).
Proof.
  unfold trim.
  set (a := trimStart s). set (b := trimStart (reverse a)).
  assert (Hb : ∀ c, head b = Some c → isTrimmed c = false)
    by apply trimStart_head.
  split; intros c Hc.
  - destruct (trimStart_suffix (reverse a)) as [pre Hpre]. fold b in Hpre.
    assert (a = reverse b ++ reverse pre) as Ha.
    { rewrite <- (reverse_involutive a), Hpre. by rewrite reverse_app. }
    apply (trimStart_head s). fold a. rewrite Ha.
    destruct (reverse b) as [|x l]; [done|]. simpl in *. done.
  - apply Hb. rewrite last_reverse in Hc. done.
Qed.

Lemma trim_fixed s :
  (∀ c, head s = Some c → isTrimmed c = false) →
  (∀ c, last s = Some c → isTrimmed c = false) →
  trim s = s.
Proof.
  intros Hh Hl. unfold trim. rewrite (trimStart_fixed s Hh).
  rewrite trimStart_fixed; [apply reverse_involutive|].
  intros c Hc. apply Hl. by rewrite <- head_reverse.
Qed.

Lemma trim_idemp s : trim (trim s) = trim s.
Proof. destruct (trim_ends s). by apply trim_fixed. Qed.

Lemma trim_blank s : forallb isTrimmed s = true → trim s = [].
Proof. intros H. unfold trim. by rewrite (trimStart_blank s H). Qed.

End TrimFacts.

Section TokenizerInvariants.
Import Js Csv.

(** Induction on the length of the text left to read. *)
Lemma text_length_ind (P : jsstring → Prop) :
  (∀ s, (∀ s', (length s' < length s)%nat → P s') → P s) → ∀ s, P s.
Proof.
  intros step s. remember (length s) as n eqn:Hn. revert s Hn.
  induction (lt_wf n) as [n _ IH]. intros s ->.
  apply step. intros s' Hlt. by eapply IH.
Qed.

Lemma skip_length rest : (length (skip rest) ≤ length rest)%nat.
Proof. destruct rest; simpl; lia. Qed.

(** What the four updates of the loop body keep, the loop keeps. *)
Lemma tokenize_invariant o (I : Tok → Prop) :
  (∀ c st, I st → I (addChar c st)) →
  (∀ st, I st → I (toggleQuotes st)) →
  (∀ st, I st → I (endField o st)) →
  (∀ st, I st → I (endLine o st)) →
  ∀ text st, I st → I (tokenize o text st).
Proof.
  intros Hadd Htog Hfield Hline text.
  induction text as [text IH] using text_length_ind. intros st Hst.
  destruct text as [|char rest]; [done|]. simpl.
  pose proof (skip_length rest) as Hskip.
  destruct (char =? DQUOTE)%N.
  - destruct (inQuotes st && nextIs rest DQUOTE).
    + apply IH; [simpl; lia|auto].
    + apply IH; [simpl; lia|auto].
  - destruct (isDelimiter o char && negb (inQuotes st)).
    + apply IH; [simpl; lia|auto].
    + destruct (((char =? LF)%N || (char =? CR)%N && nextIs rest LF)
                && negb (inQuotes st)).
      * apply IH; [|auto]. destruct (char =? CR)%N; simpl; lia.
      * apply IH; [simpl; lia|auto].
Qed.

(** The tokenizer reads [hasHeaders] and [encoding] nowhere. *)
Lemma tokenize_ext o o' :
  delimiter o = delimiter o' → trimFields o = trimFields o' →
  skipEmptyLines o = skipEmptyLines o' →
  ∀ text st, tokenize o text st = tokenize o' text st.
Proof.
  intros Hd Ht Hs text.
  assert (Hdel : ∀ c, isDelimiter o c = isDelimiter o' c)
    by (intros c; unfold isDelimiter; by rewrite Hd).
  assert (Hef : ∀ st, endField o st = endField o' st)
    by (intros st; unfold endField, finishField; by rewrite Ht).
  assert (Hel : ∀ st, endLine o st = endLine o' st)
    by (intros st; unfold endLine, finishField, keepLine; by rewrite Ht, Hs).
  induction text as [text IH] using text_length_ind. intros st.
  destruct text as [|char rest]; [done|]. simpl.
  pose proof (skip_length rest) as Hskip.
  rewrite Hdel, Hef, Hel.
  destruct (char =? DQUOTE)%N.
  - destruct (inQuotes st && nextIs rest DQUOTE); apply IH; simpl; lia.
  - destruct (isDelimiter o' char && negb (inQuotes st)).
    + apply IH; simpl; lia.
    + destruct (((char =? LF)%N || (char =? CR)%N && nextIs rest LF)
                && negb (inQuotes st)).
      * apply IH. destruct (char =? CR)%N; simpl; lia.
      * apply IH; simpl; lia.
Qed.

Lemma tokenLines_ext o o' csvText :
  delimiter o = delimiter o' → trimFields o = trimFields o' →
  skipEmptyLines o = skipEmptyLines o' →
  tokenLines o csvText = tokenLines o' csvText.
Proof.
  intros Hd Ht Hs. unfold tokenLines.
  rewrite (tokenize_ext o o' Hd Ht Hs).
  unfold lastLine, finishField, keepLine. by rewrite Ht, Hs.
Qed.

(** Every committed line passed the test of [keepLine] and holds at least
    one field. *)
Lemma tokenLines_kept o csvText :
  Forall (λ line, line ≠ [] ∧ keepLine o line = true) (tokenLines o csvText).
Proof.
  unfold tokenLines.
  set (I := λ st : Tok,
         Forall (λ line, line ≠ [] ∧ keepLine o line = true) (lines st)).
  assert (Hfin : I (tokenize o (stripBOM csvText) initTok)).
  { apply tokenize_invariant; unfold I; try done.
    intros st Hst. unfold endLine. simpl.
    destruct (keepLine o _) eqn:Hk; [|done].
    apply Forall_app. split; [done|]. constructor; [|constructor].
    split; [|done]. by destruct (currentLine st). }
  unfold lastLine. destruct (_ || _); [|done].
  destruct (keepLine o _) eqn:Hk; [|done].
  apply Forall_app. split; [done|]. constructor; [|constructor].
  split; [|done]. by destruct (currentLine _).
Qed.

(** With [trimFields], every field of every committed line is trimmed. *)
Lemma tokenLines_trimmed o csvText :
  trimFields o = true →
  Forall (Forall (λ field, trim field = field)) (tokenLines o csvText).
Proof.
  intros Ht. unfold tokenLines.
  set (T := λ field : jsstring, trim field = field).
  set (I := λ st : Tok, Forall (Forall T) (lines st) ∧ Forall T (currentLine st)).
  assert (Hfinish : ∀ field, T (finishField o field)).
  { intros field. unfold T, finishField. rewrite Ht. apply trim_idemp. }
  assert (Hfin : I (tokenize o (stripBOM csvText) initTok)).
  { apply tokenize_invariant; unfold I; try done.
    - intros st [Hl Hc]. simpl. split; [done|].
      apply Forall_app. split; [done|]. by repeat constructor.
    - intros st [Hl Hc]. unfold endLine. simpl. split; [|constructor].
      destruct (keepLine o _); [|done].
      apply Forall_app. split; [done|]. constructor; [|constructor].
      apply Forall_app. split; [done|]. by repeat constructor. }
  destruct Hfin as [Hl Hc]. unfold lastLine.
  destruct (_ || _); [|done]. destruct (keepLine o _); [|done].
  apply Forall_app. split; [done|]. constructor; [|constructor].
  apply Forall_app. split; [done|]. by repeat constructor.
Qed.

End TokenizerInvariants.

Section ParserMore.
Import Js Csv.

Lemma lineError_head lineIndex n m : head (lineError lineIndex n m) = Some 76%N.
Proof. reflexivity. Qed.

Lemma mismatch_heads hs ls : ∀ g : nat → nat,
  Forall (λ e, ∃ lineIndex n m, e = lineError lineIndex n m)
    (concat (imap (λ i line, mismatch hs (g i) line) ls)).
Proof.
  induction ls as [|line ls IH]; intros g; simpl; [constructor|].
  apply Forall_app. split.
  - unfold mismatch. destruct (decide _); constructor; [|constructor]. eauto.
  - exact (IH (g ∘ S)).
Qed.

Lemma mismatch_count hs ls : ∀ g : nat → nat,
  (length (concat (imap (λ i line, mismatch hs (g i) line) ls)) ≤ length ls)%nat
  ∧ (concat (imap (λ i line, mismatch hs (g i) line) ls) = []
     ↔ Forall (λ line, length line = length hs) ls).
Proof.
  induction ls as [|line ls IH]; intros g.
  - simpl. split; [lia|]. split; [constructor|done].
  - destruct (IH (g ∘ S)) as [Hlen Hiff].
    rewrite imap_cons. cbn [concat].
    change ((λ i line, mismatch hs (g i) line) ∘ S)
      with (λ i line, mismatch hs ((g ∘ S) i) line).
    rewrite length_app, Forall_cons, <- Hiff.
    unfold mismatch at 1 3.
    destruct (decide (length line = length hs)) as [E|E]; cbn [length app].
    + split; [lia|]. tauto.
    + split; [lia|]. split; [done|tauto].
Qed.

Lemma splitHeaders_headers_nonempty o ls hs dataLines :
  Forall (λ line, line ≠ []) ls → ls ≠ [] →
  splitHeaders o ls = (hs, dataLines) → hs ≠ [].
Proof.
  intros Hall Hne. destruct ls as [|first others]; [done|].
  apply Forall_cons in Hall as [Hfirst _]. unfold splitHeaders.
  destruct (hasHeaders o); intros [= <- <-]; [done|].
  by destruct first.
Qed.

(** A leading U+FEFF is dropped before tokenizing, and only one: a
    text and the same text after a BOM parse alike, provided the text
    does not itself start with a BOM. *)
Theorem parseCSV_leading_BOM (decoder : Decoder) csvText o :
  nextIs csvText BOM = false →
  parseCSV decoder (Text (BOM :: csvText)) o = parseCSV decoder (Text csvText) o.
Proof.
  intros Hn. unfold parseCSV, parseText, tokenLines. f_equal.
  assert (stripBOM csvText = csvText) as Hs.
  { destruct csvText as [|c rest]; [done|]. simpl in *. by rewrite Hn. }
  cbn [stripBOM]. change (BOM =? BOM)%N with true. cbv iota. by rewrite Hs.
Qed.

(** The theorem on the text [a,b] after a BOM. *)
Lemma parseCSV_leading_BOM_witness :
  parseCSV (λ _ _, None) (Text (BOM :: js "a,b")) defaultOptions
  = parseCSV (λ _ _, None) (Text (js "a,b")) defaultOptions.
Proof. apply parseCSV_leading_BOM. reflexivity. Defined.

(** X2: the result has no headers exactly when it is the result for empty
    content, with no rows and the one error [Empty CSV content]; in every
    other result the errors are all [Line i has n fields, expected m]. *)
Theorem empty_result_iff (decoder : Decoder) csvText o r :
  parseCSV decoder (Text csvText) o = Returns r →
  (headers r = [] ↔ tokenLines o csvText = [])
  ∧ (errors r = [js "Empty CSV content"] ↔ tokenLines o csvText = [])
  ∧ (headers r = [] → data r = [])
  ∧ (headers r ≠ [] →
     Forall (λ e, ∃ lineIndex n m, e = lineError lineIndex n m) (errors r)).
Proof.
  intros [= <-].
  destruct (tokenLines o csvText) as [|first others] eqn:Hls.
  - rewrite parseText_empty by done. simpl. by repeat split.
  - destruct (splitHeaders o (first :: others)) as [hs dataLines] eqn:Hsplit.
    rewrite (parseText_lines csvText o hs dataLines) by (by rewrite Hls).
    simpl.
    assert (hs ≠ []) as Hhs.
    { eapply (splitHeaders_headers_nonempty o (first :: others)); [|done..].
      rewrite <- Hls. eapply Forall_impl; [apply tokenLines_kept|].
      by intros line [? _]. }
    assert (Hheads : Forall (λ e, ∃ lineIndex n m, e = lineError lineIndex n m)
                       (concat (imap (mismatch hs) dataLines)))
      by exact (mismatch_heads hs dataLines id).
    split; [done|]. split; [|split; [done|done]].
    split; [|done]. intros He. rewrite He in Hheads.
    apply Forall_cons in Hheads as [(i & n & m & Habs) _]. done.
Qed.

(** The theorem on the empty text. *)
Lemma empty_result_iff_witness :
  headers (parseText [] defaultOptions) = []
  ↔ tokenLines defaultOptions [] = [].
Proof.
  exact (proj1 (empty_result_iff (λ _ _, None) [] defaultOptions
                  (parseText [] defaultOptions) eq_refl)).
Defined.

(** X3: every line the tokenizer commits holds at least one field, and
    with [skipEmptyLines] at least one field that is not empty: lines of
    empty fields only never reach the headers or the rows. *)
Theorem committed_lines_not_blank o csvText :
  Forall (λ line, line ≠ []
                  ∧ (skipEmptyLines o = true → ∃ field, field ∈ line ∧ field ≠ []))
    (tokenLines o csvText).
Proof.
  eapply Forall_impl; [apply tokenLines_kept|].
  intros line [Hne Hk]. split; [done|]. intros Hs.
  unfold keepLine in Hk. rewrite Hs in Hk. simpl in Hk.
  apply existsb_exists in Hk as (field & Hin & Hlen).
  exists field. split; [by apply list_elem_of_In|].
  by destruct field.
Qed.

(** The theorem on a text with blank lines between two lines. *)
Lemma committed_lines_not_blank_witness :
  Forall (λ line, ∃ field, field ∈ line ∧ field ≠ [])
    (tokenLines defaultOptions (js "a" ++ [LF; LF; LF] ++ js ",b")).
Proof.
  eapply Forall_impl;
    [exact (committed_lines_not_blank defaultOptions
              (js "a" ++ [LF; LF; LF] ++ js ",b"))|].
  intros line [_ H]. apply H. reflexivity.
Defined.

Lemma splitHeaders_subset o ls hs dataLines :
  splitHeaders o ls = (hs, dataLines) →
  (∀ line, line ∈ dataLines → line ∈ ls)
  ∧ (hasHeaders o = true → ls ≠ [] → hs ∈ ls).
Proof.
  destruct ls as [|first others]; simpl.
  - intros [= <- <-]. split; [done|done].
  - destruct (hasHeaders o); intros [= <- <-].
    + split; [intros line ?; by right|intros _ _; by left].
    + split; [done|done].
Qed.

Lemma cell_cases line index :
  cell line index = [] ∨ cell line index ∈ line.
Proof.
  unfold cell. destruct (index <? length line)%nat; [|by left].
  destruct (line !! index) as [v|] eqn:E; [|by left].
  right. by eapply list_elem_of_lookup_2.
Qed.

Lemma adjustLine_elements m line field :
  field ∈ adjustLine m line → field = [] ∨ field ∈ line.
Proof.
  unfold adjustLine. destruct (length line <? m)%nat.
  - intros [?|Hin]%elem_of_app; [by right|].
    apply elem_of_replicate in Hin as [-> _]. by left.
  - intros Hin. right. by eapply subseteq_take.
Qed.

(** Every value of a filled row was in the row or is a cell of the line. *)
Lemma fillRow_values hs : ∀ index line (row : Row) h v,
  fillRow hs index line row !! h = Some v →
  row !! h = Some v ∨ ∃ j, v = cell line j.
Proof.
  induction hs as [|h0 hs IH]; intros index line row h v; [by left|].
  rewrite fillRow_cell. intros Hv. apply IH in Hv as [Hv|Hv]; [|by right].
  rewrite assign_lookup in Hv.
  destruct (decide (h0 = PROTO)); [by left|].
  destruct (decide (h0 = h)); [|by left].
  right. exists index. congruence.
Qed.

(** X4: with [trimFields], no header read from the text and no value of
    any row starts or ends with a character that [trim] removes. *)
Theorem trimFields_result_trimmed (decoder : Decoder) csvText o r :
  trimFields o = true →
  parseCSV decoder (Text csvText) o = Returns r →
  (hasHeaders o = true →
   Forall (λ h, trim h = h
                ∧ (∀ c, head h = Some c → isTrimmed c = false)
                ∧ (∀ c, last h = Some c → isTrimmed c = false)) (headers r))
  ∧ Forall (λ row : Row, ∀ h v, row !! h = Some v →
              trim v = v
              ∧ (∀ c, head v = Some c → isTrimmed c = false)
              ∧ (∀ c, last v = Some c → isTrimmed c = false)) (data r).
Proof.
  intros Ht [= <-].
  assert (Hends : ∀ f, trim f = f →
            trim f = f ∧ (∀ c, head f = Some c → isTrimmed c = false)
            ∧ (∀ c, last f = Some c → isTrimmed c = false)).
  { intros f Hf. split; [done|]. rewrite <- Hf. apply trim_ends. }
  pose proof (tokenLines_trimmed o csvText Ht) as Htrim.
  rewrite Forall_forall in Htrim.
  destruct (tokenLines o csvText) as [|first others] eqn:Hls.
  - rewrite parseText_empty by done. simpl. split; constructor.
  - destruct (splitHeaders o (first :: others)) as [hs dataLines] eqn:Hsplit.
    rewrite (parseText_lines csvText o hs dataLines) by (by rewrite Hls).
    simpl. destruct (splitHeaders_subset _ _ _ _ Hsplit) as [Hsub Hhs].
    split.
    + intros Hh. specialize (Hhs Hh ltac:(done)).
      apply Htrim in Hhs.
      eapply Forall_impl; [exact Hhs|]. simpl. auto.
    + apply Forall_fmap, Forall_forall. intros line Hline h v Hv. simpl in Hv.
      apply Hends.
      apply fillRow_values in Hv as [Hv|[j ->]]; [by rewrite lookup_empty in Hv|].
      destruct (cell_cases (adjustLine (length hs) line) j) as [->|Hin];
        [done|].
      apply adjustLine_elements in Hin as [->|Hin]; [done|].
      apply Hsub, Htrim in Hline.
      rewrite Forall_forall in Hline. by apply Hline.
Qed.

(** The theorem on a text whose fields are padded with spaces. *)
Lemma trimFields_result_trimmed_witness :
  Forall (λ h, trim h = h) (headers (parseText (js " name , age ") defaultOptions)).
Proof.
  destruct (trimFields_result_trimmed (λ _ _, None) (js " name , age ")
              defaultOptions (parseText (js " name , age ") defaultOptions)
              eq_refl eq_refl) as [Hh _].
  eapply Forall_impl; [exact (Hh eq_refl)|]. by intros h [? _].
Defined.

End ParserMore.

Section HeadersAndRows.
Import Js Csv.

Lemma uintCodes_inj u : ∀ u', uintCodes u = uintCodes u' → u = u'.
Proof.
  induction u as [|u IH|u IH|u IH|u IH|u IH|u IH|u IH|u IH|u IH|u IH];
    intros [|u'|u'|u'|u'|u'|u'|u'|u'|u'|u']; simpl; intros H;
    try discriminate H; try done;
    injection H as H; f_equal; by apply IH.
Qed.

Lemma showNat_inj n n' : showNat n = showNat n' → n = n'.
Proof.
  intros H. by apply DecimalNat.Unsigned.to_uint_inj, uintCodes_inj.
Qed.

Lemma columnName_inj i j : columnName i = columnName j → i = j.
Proof.
  unfold columnName. intros H. apply app_inv_head, showNat_inj in H. lia.
Qed.

Lemma columnName_not_PROTO i : columnName i ≠ PROTO.
Proof. unfold columnName, PROTO. simpl. discriminate. Qed.

(** The synthesized headers are pairwise distinct and none is
    [__proto__]. *)
Lemma columnNames_NoDup (first : list jsstring) :
  NoDup (imap (λ index _, columnName index) first)
  ∧ PROTO ∉ imap (λ index _, columnName index) first.
Proof.
  split.
  - apply NoDup_alt. intros i j x. rewrite !list_lookup_imap.
    destruct (first !! i), (first !! j); simpl; try done.
    intros Hi Hj. apply columnName_inj. congruence.
  - intros Hin. apply list_elem_of_lookup in Hin as [i Hi].
    rewrite list_lookup_imap in Hi.
    destruct (first !! i); simpl in Hi; [|done].
    apply (columnName_not_PROTO i). congruence.
Qed.

(** X5: the tokenizer does not read [hasHeaders].  With it, the first
    committed line is the headers and each later line gives a row; without
    it, the headers are [Column 1] to [Column n] for the [n] fields of the
    first line, and that line gives the first row, so there is one row
    more. *)
Theorem hasHeaders_switch (decoder : Decoder) csvText o o' first others :
  hasHeaders o = true → hasHeaders o' = false →
  delimiter o = delimiter o' → trimFields o = trimFields o' →
  skipEmptyLines o = skipEmptyLines o' →
  tokenLines o csvText = first :: others →
  ∃ r r',
    parseCSV decoder (Text csvText) o = Returns r
    ∧ parseCSV decoder (Text csvText) o' = Returns r'
    ∧ headers r = first
    ∧ length (data r) = length others
    ∧ headers r' = imap (λ index _, columnName index) first
    ∧ length (headers r') = length first
    ∧ length (data r') = S (length (data r))
    ∧ data r' !! 0%nat = Some (fillRow (headers r') 0 first ∅)
    ∧ errors r' = concat (imap (λ i, mismatch (headers r') (S i)) others).
Proof.
  intros Hh Hh' Hd Ht Hs Hls.
  pose proof (tokenLines_ext o o' csvText Hd Ht Hs) as Hext.
  exists (parseText csvText o), (parseText csvText o').
  split; [done|]. split; [done|].
  rewrite (parseText_lines csvText o first others);
    [|by rewrite Hls|by rewrite Hls; unfold splitHeaders; rewrite Hh].
  rewrite (parseText_lines csvText o'
             (imap (λ index _, columnName index) first) (first :: others));
    [|by rewrite <- Hext, Hls
     |by rewrite <- Hext, Hls; unfold splitHeaders; rewrite Hh'].
  cbn [data headers errors]. rewrite !length_fmap, length_imap.
  repeat split.
  - cbn [fmap list_fmap lookup list_lookup]. by rewrite adjustLine_same.
  - rewrite imap_cons. cbn [concat]. unfold mismatch at 1.
    by rewrite decide_True by (by rewrite length_imap).
Qed.

(** The theorem on two lines of two fields. *)
Lemma hasHeaders_switch_witness :
  ∃ r r',
    parseCSV (λ _ _, None) (Text (js "a,b" ++ [LF] ++ js "1,2")) defaultOptions
    = Returns r
    ∧ parseCSV (λ _ _, None) (Text (js "a,b" ++ [LF] ++ js "1,2"))
        {| hasHeaders := false; delimiter := []; trimFields := true;
           encoding := js "UTF-8"; skipEmptyLines := true |} = Returns r'
    ∧ headers r = [js "a"; js "b"]
    ∧ headers r' = [js "Column 1"; js "Column 2"]
    ∧ length (data r') = S (length (data r)).
Proof.
  destruct (hasHeaders_switch (λ _ _, None) (js "a,b" ++ [LF] ++ js "1,2")
              defaultOptions
              {| hasHeaders := false; delimiter := []; trimFields := true;
                 encoding := js "UTF-8"; skipEmptyLines := true |}
              [js "a"; js "b"] [[js "1"; js "2"]]
              eq_refl eq_refl eq_refl eq_refl eq_refl eq_refl)
    as (r & r' & Hr & Hr' & Hh & _ & Hh' & _ & Hlen & _).
  exists r, r'. by rewrite Hh'.
Defined.

(** X6: when there is at least one committed line, there is at most one
    error per row, and no error at all exactly when every data line has as
    many fields as there are headers. *)
Theorem errors_iff_ragged (decoder : Decoder) csvText o hs dataLines r :
  tokenLines o csvText ≠ [] →
  splitHeaders o (tokenLines o csvText) = (hs, dataLines) →
  parseCSV decoder (Text csvText) o = Returns r →
  (length (errors r) ≤ length (data r))%nat
  ∧ (errors r = [] ↔ Forall (λ line, length line = length hs) dataLines).
Proof.
  intros Hne Hsplit [= <-].
  rewrite (parseText_lines csvText o hs dataLines) by done.
  cbn [data errors]. rewrite length_fmap.
  exact (mismatch_count hs dataLines id).
Qed.

(** The theorem on a header and two lines, one too short. *)
Lemma errors_iff_ragged_witness :
  (length (errors (parseText (js "a,b" ++ [LF] ++ js "1,2" ++ [LF] ++ js "3")
                     defaultOptions)) ≤ 2)%nat.
Proof.
  destruct (errors_iff_ragged (λ _ _, None)
              (js "a,b" ++ [LF] ++ js "1,2" ++ [LF] ++ js "3") defaultOptions
              [js "a"; js "b"] [[js "1"; js "2"]; [js "3"]]
              (parseText (js "a,b" ++ [LF] ++ js "1,2" ++ [LF] ++ js "3")
                 defaultOptions)) as [Hlen _].
  - vm_compute. discriminate.
  - vm_compute. reflexivity.
  - reflexivity.
  - exact Hlen.
Defined.

(** X7: all rows of a result have the same names: the headers, without
    [__proto__].  Without [hasHeaders] every row has exactly one entry per
    column. *)
Theorem rows_share_names (decoder : Decoder) (csvText : jsstring)
    (o : ParseOptions) (r : ParseResult) (row : Row) :
  parseCSV decoder (Text csvText) o = Returns r →
  row ∈ data r →
  dom row = list_to_set (headers r) ∖ {[PROTO]}
  ∧ (hasHeaders o = false → size row = length (headers r)).
Proof.
  intros [= <-] Hrow.
  destruct (tokenLines o csvText) as [|first others] eqn:Hls.
  { rewrite parseText_empty in Hrow by done. by apply elem_of_nil in Hrow. }
  destruct (splitHeaders o (first :: others)) as [hs dataLines] eqn:Hsplit.
  rewrite (parseText_lines csvText o hs dataLines) in Hrow |- *
    by (by rewrite Hls).
  cbn [data headers] in *.
  apply list_elem_of_fmap in Hrow as (line & -> & _).
  assert (Hdom : dom (fillRow hs 0 (adjustLine (length hs) line) ∅)
                 = list_to_set hs ∖ {[PROTO]}).
  { rewrite fillRow_dom, dom_empty_L. apply union_empty_l_L. }
  split; [done|].
  intros Hh. unfold splitHeaders in Hsplit. rewrite Hh in Hsplit.
  injection Hsplit as <- <-.
  destruct (columnNames_NoDup first) as [Hnd Hproto].
  rewrite <- size_dom, Hdom.
  rewrite difference_disjoint_L.
  - by apply size_list_to_set.
  - apply disjoint_singleton_r. by rewrite elem_of_list_to_set.
Qed.

(** The theorem on a text read without headers. *)
Lemma rows_share_names_witness :
  dom (<[js "Column 1" := js "4"]> (<[js "Column 2" := js "5"]>
         (<[js "Column 3" := []]> (∅ : Row))))
  = list_to_set [js "Column 1"; js "Column 2"; js "Column 3"] ∖ {[PROTO]}
  ∧ size (<[js "Column 1" := js "4"]> (<[js "Column 2" := js "5"]>
            (<[js "Column 3" := []]> (∅ : Row)))) = 3%nat.
Proof.
  destruct (rows_share_names (λ _ _, None) (js "1,2,3" ++ [LF] ++ js "4,5")
              {| hasHeaders := false; delimiter := []; trimFields := true;
                 encoding := js "UTF-8"; skipEmptyLines := true |}
              (parseText (js "1,2,3" ++ [LF] ++ js "4,5")
                 {| hasHeaders := false; delimiter := []; trimFields := true;
                    encoding := js "UTF-8"; skipEmptyLines := true |})
              (<[js "Column 1" := js "4"]> (<[js "Column 2" := js "5"]>
                 (<[js "Column 3" := []]> (∅ : Row))))
              eq_refl) as [Hdom Hsize].
  - vm_compute. apply list_elem_of_further, list_elem_of_here.
  - split; [exact Hdom|exact (Hsize eq_refl)].
Defined.

(** X8: rows are the headers zipped with the fields, by position: the
    entry of a row under a header, [__proto__] apart, is the field of the
    line at the column of that header (the last one, should the header
    come several times), and the empty string when the line is too
    short. *)
Theorem row_lookup_positional (decoder : Decoder) csvText o hs dataLines r
    i line j h :
  tokenLines o csvText ≠ [] →
  splitHeaders o (tokenLines o csvText) = (hs, dataLines) →
  parseCSV decoder (Text csvText) o = Returns r →
  dataLines !! i = Some line →
  hs !! j = Some h →
  (∀ k, (j < k)%nat → hs !! k ≠ Some h) →
  h ≠ PROTO →
  ∃ row : Row, data r !! i = Some row
               ∧ row !! h = Some (default [] (line !! j)).
Proof.
  intros Hne Hsplit [= <-] Hline Hj Hlast Hproto.
  rewrite (parseText_lines csvText o hs dataLines) by done.
  cbn [data]. rewrite list_lookup_fmap, Hline. simpl.
  eexists. split; [reflexivity|].
  rewrite (fillRow_lookup_last hs 0 _ ∅ h j Hj Hlast Hproto).
  unfold cell. rewrite adjustLine_length, adjustLine_lookup. simpl.
  apply lookup_lt_Some in Hj.
  destruct (Nat.ltb_spec j (length hs)); [|lia].
  by rewrite decide_True.
Qed.

(** The theorem on the second column of a line that lacks it. *)
Lemma row_lookup_positional_witness :
  ∃ row : Row,
    data (parseText (js "a,b" ++ [LF] ++ js "1") defaultOptions) !! 0%nat
    = Some row
    ∧ row !! js "b" = Some [].
Proof.
  apply (row_lookup_positional (λ _ _, None) (js "a,b" ++ [LF] ++ js "1")
           defaultOptions [js "a"; js "b"] [[js "1"]] _ 0 [js "1"] 1 (js "b")).
  - vm_compute. discriminate.
  - vm_compute. reflexivity.
  - reflexivity.
  - reflexivity.
  - reflexivity.
  - intros k Hk. destruct k as [|[|k]]; [lia|lia|discriminate].
  - discriminate.
Defined.

End HeadersAndRows.

Section ReadingBack.
Import Js Csv Writer.

Variable o : ParseOptions.

Lemma tokenize_plain v : ∀ rest st,
  forallb (plainChar o) v = true → inQuotes st = false →
  tokenize o (v ++ rest) st = tokenize o rest (appendField v st).
Proof.
  induction v as [|c v IH]; intros rest st Hv Hq.
  - by rewrite appendField_nil.
  - simpl in Hv. apply andb_true_iff in Hv as [Hc Hv].
    unfold plainChar in Hc.
    repeat (apply andb_true_iff in Hc as [Hc ?]).
    cbn [app tokenize].
    destruct (c =? DQUOTE)%N; [done|].
    destruct (isDelimiter o c); [done|].
    destruct (c =? LF)%N; [done|]. destruct (c =? CR)%N; [done|].
    cbn [andb orb]. rewrite IH by done.
    by rewrite addChar_appendField, appendField_app.
Qed.

Lemma tokenize_written f rest st :
  wellWritten o f = true → inQuotes st = false →
  nextIs rest DQUOTE = false →
  tokenize o (writeField f ++ rest) st = tokenize o rest (appendField f.2 st).
Proof.
  intros Hw Hq Hn. unfold wellWritten, writeField in *.
  destruct f.1; simpl in Hw.
  - unfold quoted. cbn [app]. rewrite <- app_assoc. cbn [app].
    by apply tokenize_quoted_field.
  - by apply tokenize_plain.
Qed.

Lemma tokenize_delimiter d rest st :
  isDelimiter o d = true → d ≠ DQUOTE → inQuotes st = false →
  tokenize o (d :: rest) st = tokenize o rest (endField o st).
Proof.
  intros Hd Hne Hq. simpl.
  destruct (N.eqb_spec d DQUOTE); [done|]. by rewrite Hd, Hq.
Qed.

Lemma tokenize_line_feed rest st :
  isDelimiter o LF = false → inQuotes st = false →
  tokenize o (LF :: rest) st = tokenize o rest (endLine o st).
Proof. intros Hd Hq. simpl. by rewrite Hd, Hq. Qed.

(** A written row and its line feed commit one line: the values of the
    row, after the fields already on the current line. *)
Lemma tokenize_row d (row : list (bool * jsstring)) : ∀ rest st,
  isDelimiter o d = true → d ≠ DQUOTE → isDelimiter o LF = false →
  row ≠ [] → Forall (λ f, wellWritten o f = true) row →
  inQuotes st = false → currentField st = [] →
  tokenize o (writeRow d row ++ LF :: rest) st
  = tokenize o rest
      {| lines :=
           if keepLine o (currentLine st ++ readRow o row)
           then lines st ++ [currentLine st ++ readRow o row]
           else lines st;
         currentLine := []; currentField := []; inQuotes := false |}.
Proof.
  intros rest st Hd Hne Hlf Hrow Hall. revert st.
  induction row as [|f row IH]; intros st Hq Hf; [done|].
  apply Forall_cons in Hall as [Hw Hall].
  destruct row as [|f' row].
  - cbn [writeRow]. rewrite tokenize_written by done.
    rewrite tokenize_line_feed by done.
    unfold endLine, appendField, readRow. simpl. by rewrite Hf, Hq.
  - change (writeRow d (f :: f' :: row))
      with (writeField f ++ d :: writeRow d (f' :: row)).
    rewrite <- app_assoc. cbn [app].
    rewrite tokenize_written; [|done|done|].
    2:{ simpl. by destruct (N.eqb_spec d DQUOTE). }
    rewrite tokenize_delimiter by done.
    rewrite IH; [|done|done|done|done].
    unfold endField, appendField, readRow. simpl. rewrite Hf. simpl.
    by rewrite <- !app_assoc.
Qed.

Lemma tokenize_table d (rows : list (list (bool * jsstring))) : ∀ st,
  isDelimiter o d = true → d ≠ DQUOTE → isDelimiter o LF = false →
  Forall (λ row, row ≠ [] ∧ Forall (λ f, wellWritten o f = true) row) rows →
  inQuotes st = false → currentField st = [] → currentLine st = [] →
  tokenize o (writeTable d rows) st
  = {| lines := lines st ++ readTable o rows;
       currentLine := []; currentField := []; inQuotes := false |}.
Proof.
  intros st Hd Hne Hlf Hall. revert st.
  induction rows as [|row rows IH]; intros st Hq Hf Hl.
  - destruct st. unfold readTable. simpl in *. subst. by rewrite app_nil_r.
  - apply Forall_cons in Hall as [[Hrow Hw] Hall].
    cbn [writeTable]. rewrite tokenize_row by done.
    rewrite IH by done. unfold readTable.
    cbn [lines fmap list_fmap]. rewrite Hl. cbn [app].
    rewrite filter_cons.
    destruct (decide (keepLine o (readRow o row) = true)) as [Hk|Hk].
    + rewrite Hk. by rewrite <- app_assoc.
    + apply not_true_is_false in Hk. by rewrite Hk.
Qed.

(** After an opening quote that is never closed, nothing ends a field or
    a line any more. *)
Lemma tokenize_unclosed rest : ∀ st,
  inQuotes st = true → DQUOTE ∉ rest →
  tokenize o rest st = appendField rest st.
Proof.
  induction rest as [|c rest IH]; intros st Hq Hnot.
  - by rewrite appendField_nil.
  - apply not_elem_of_cons in Hnot as [Hc Hnot].
    rewrite tokenize_quoted_char by done. rewrite IH by done.
    by rewrite addChar_appendField, appendField_app.
Qed.

End ReadingBack.

Section ReadingBackTheorems.
Import Js Csv Writer.

Lemma stripBOM_no_BOM s : nextIs s BOM = false → stripBOM s = s.
Proof. destruct s as [|c s]; simpl; [done|]. by intros ->. Qed.

Lemma lastLine_between_lines o ls :
  lastLine o {| lines := ls; currentLine := []; currentField := [];
                inQuotes := false |} = ls.
Proof. reflexivity. Qed.

(** X9: a table written with any mix of quoted fields (quotes doubled)
    and plain fields (free of quote, delimiter, line feed and carriage
    return), fields separated by the delimiter and each non-empty row
    ended by a line feed, is tokenized into its rows of values: each
    value as [finishField] leaves it, the rows that [keepLine] rejects
    left out. *)
Theorem written_table_lines o d (rows : list (list (bool * jsstring))) :
  isDelimiter o d = true → d ≠ DQUOTE → isDelimiter o LF = false →
  Forall (λ row, row ≠ [] ∧ Forall (λ f, wellWritten o f = true) row) rows →
  nextIs (writeTable d rows) BOM = false →
  tokenLines o (writeTable d rows) = readTable o rows.
Proof.
  intros Hd Hne Hlf Hall Hbom. unfold tokenLines.
  rewrite stripBOM_no_BOM by done.
  rewrite (tokenize_table o d rows initTok) by done.
  apply lastLine_between_lines.
Qed.

(** The theorem on two rows, with a quoted field that holds the
    delimiter and a quote. *)
Lemma written_table_lines_witness :
  tokenLines defaultOptions
    (writeTable COMMA
       [ [(false, js "id"); (true, js "note")];
         [(false, js "1"); (true, js "a, b" ++ [DQUOTE])] ])
  = [ [js "id"; js "note"]; [js "1"; js "a, b" ++ [DQUOTE]] ].
Proof.
  rewrite written_table_lines.
  - reflexivity.
  - reflexivity.
  - discriminate.
  - reflexivity.
  - repeat constructor; discriminate.
  - reflexivity.
Defined.

Lemma readRow_verbatim o row :
  trimFields o = false → readRow o row = rowValues row.
Proof.
  intros Ht. unfold readRow, rowValues, finishField. by rewrite Ht.
Qed.

Lemma readTable_verbatim o rows :
  trimFields o = false → skipEmptyLines o = false →
  readTable o rows = rowValues <$> rows.
Proof.
  intros Ht Hs. unfold readTable.
  induction rows as [|row rows IH]; [done|].
  cbn [fmap list_fmap]. rewrite filter_cons.
  rewrite decide_True by (unfold keepLine; by rewrite Hs).
  rewrite readRow_verbatim by done. f_equal. apply IH.
Qed.

(** X10: round trip.  With headers, without trimming and without
    skipping, a written table whose rows all have as many fields as the
    header row is parsed into exactly its values: the header row as
    headers, one row per body row, no error. *)
Theorem written_table_round_trip (decoder : Decoder) o d
    (header : list (bool * jsstring)) (body : list (list (bool * jsstring))) :
  hasHeaders o = true → trimFields o = false → skipEmptyLines o = false →
  isDelimiter o d = true → d ≠ DQUOTE → isDelimiter o LF = false →
  header ≠ [] → Forall (λ f, wellWritten o f = true) header →
  Forall (λ row, length row = length header
                 ∧ Forall (λ f, wellWritten o f = true) row) body →
  nextIs (writeTable d (header :: body)) BOM = false →
  parseCSV decoder (Text (writeTable d (header :: body))) o
  = Returns {| data := (λ row, fillRow (rowValues header) 0 (rowValues row) ∅)
                       <$> body;
               headers := rowValues header;
               errors := [] |}.
Proof.
  intros Hh Ht Hs Hd Hne Hlf Hhdr Hwh Hbody Hbom.
  assert (Hlines : tokenLines o (writeTable d (header :: body))
                   = rowValues header :: (rowValues <$> body)).
  { unfold tokenLines. rewrite stripBOM_no_BOM by done.
    rewrite (tokenize_table o d (header :: body) initTok); try done.
    - rewrite lastLine_between_lines. cbn [lines initTok app].
      by rewrite readTable_verbatim.
    - constructor; [done|]. eapply Forall_impl; [exact Hbody|].
      intros row [Hlen Hw]. split; [|done].
      intros ->. by destruct header. }
  unfold parseCSV. f_equal.
  rewrite (parseText_lines _ o (rowValues header) (rowValues <$> body));
    [|by rewrite Hlines|by rewrite Hlines; unfold splitHeaders; rewrite Hh].
  f_equal.
  - rewrite <- list_fmap_compose. apply Forall_fmap_ext_1.
    eapply Forall_impl; [exact Hbody|]. intros row [Hlen _]. simpl.
    assert (length (rowValues header) = length (rowValues row)) as ->
      by (unfold rowValues; by rewrite !length_fmap).
    by rewrite adjustLine_same.
  - apply (mismatch_count (rowValues header) (rowValues <$> body) id).
    apply Forall_fmap. eapply Forall_impl; [exact Hbody|].
    intros row [Hlen _]. simpl. unfold rowValues. by rewrite !length_fmap.
Qed.

(** The theorem on a header and one row, semicolon separated. *)
Lemma written_table_round_trip_witness :
  parseCSV (λ _ _, None)
    (Text (writeTable SEMICOLON
             [ [(false, js "id"); (true, js "note")];
               [(false, js " 1"); (true, js "a;b" ++ [LF])] ]))
    {| hasHeaders := true; delimiter := [SEMICOLON]; trimFields := false;
       encoding := js "UTF-8"; skipEmptyLines := false |}
  = Returns {| data := [ {[ js "id" := js " 1";
                            js "note" := js "a;b" ++ [LF] ]} ];
               headers := [js "id"; js "note"];
               errors := [] |}.
Proof.
  rewrite (written_table_round_trip (λ _ _, None) _ SEMICOLON
             [(false, js "id"); (true, js "note")]
             [[(false, js " 1"); (true, js "a;b" ++ [LF])]]).
  - reflexivity.
  - reflexivity.
  - reflexivity.
  - reflexivity.
  - reflexivity.
  - discriminate.
  - reflexivity.
  - discriminate.
  - repeat constructor.
  - repeat constructor.
  - reflexivity.
Defined.

End ReadingBackTheorems.

Section LineBreaksAndQuotes.
Import Js Csv Writer.

Lemma isDelimiter_iff o c :
  isDelimiter o c = true
  ↔ delimiter o = [c] ∨ (delimiter o = [] ∧ c = COMMA).
Proof.
  unfold isDelimiter.
  rewrite orb_true_iff, andb_true_iff, !bool_decide_eq_true, N.eqb_eq. tauto.
Qed.

Lemma tokenize_crlf o s : ∀ st,
  isDelimiter o CR = false → isDelimiter o LF = false →
  DQUOTE ∉ s → CR ∉ s → inQuotes st = false →
  tokenize o (lfToCrlf s) st = tokenize o s st.
Proof.
  intros st Hcr Hlf. revert st.
  induction s as [|c s IH]; intros st Hq Hc Hin; [done|].
  apply not_elem_of_cons in Hq as [Hq1 Hq].
  apply not_elem_of_cons in Hc as [Hc1 Hc].
  cbn [lfToCrlf]. destruct (N.eqb_spec c LF) as [->|Hne].
  - rewrite (tokenize_line_feed o s st) by done.
    cbn [tokenize]. change (CR =? DQUOTE)%N with false. cbv iota.
    rewrite Hcr, Hin. cbn. by apply IH.
  - cbn [tokenize].
    destruct (N.eqb_spec c DQUOTE); [done|].
    destruct (N.eqb_spec c LF); [done|].
    destruct (N.eqb_spec c CR); [done|]. cbn [andb orb].
    destruct (isDelimiter o c && negb (inQuotes st)); by apply IH.
Qed.

Lemma stripBOM_lfToCrlf s : stripBOM (lfToCrlf s) = lfToCrlf (stripBOM s).
Proof.
  destruct s as [|c s]; [done|]. cbn [lfToCrlf stripBOM].
  destruct (N.eqb_spec c LF) as [->|Hne]; [done|].
  cbn [stripBOM]. destruct (c =? BOM)%N; [done|].
  cbn [lfToCrlf]. by destruct (N.eqb_spec c LF).
Qed.

Lemma stripBOM_not_elem (x : N) s : x ∉ s → x ∉ stripBOM s.
Proof.
  destruct s as [|c s]; [done|]. simpl.
  destruct (c =? BOM)%N; [|done]. by intros [_ ?]%not_elem_of_cons.
Qed.

(** X11: outside quotes, line breaks written as carriage return and line
    feed are read as line feeds: a text without quotes and without
    carriage returns parses to the same result when each of its line
    feeds is written as CR LF (the delimiter being neither). *)
Theorem crlf_as_lf (decoder : Decoder) o csvText :
  delimiter o ≠ [CR] → delimiter o ≠ [LF] →
  DQUOTE ∉ csvText → CR ∉ csvText →
  parseCSV decoder (Text (lfToCrlf csvText)) o
  = parseCSV decoder (Text csvText) o.
Proof.
  intros Hd1 Hd2 Hq Hc.
  assert (isDelimiter o CR = false) as Hcr.
  { apply not_true_is_false. rewrite isDelimiter_iff. intros [?|[_ ?]]; done. }
  assert (isDelimiter o LF = false) as Hlf.
  { apply not_true_is_false. rewrite isDelimiter_iff. intros [?|[_ ?]]; done. }
  unfold parseCSV, parseText, tokenLines. f_equal.
  rewrite stripBOM_lfToCrlf.
  rewrite (tokenize_crlf o (stripBOM csvText) initTok);
    [done|done|done|by apply stripBOM_not_elem|by apply stripBOM_not_elem|done].
Qed.

(** The theorem on a header and two lines. *)
Lemma crlf_as_lf_witness :
  parseCSV (λ _ _, None)
    (Text (js "a,b" ++ [CR; LF] ++ js "1,2" ++ [CR; LF] ++ js "3,4" ++ [CR; LF]))
    defaultOptions
  = parseCSV (λ _ _, None)
      (Text (js "a,b" ++ [LF] ++ js "1,2" ++ [LF] ++ js "3,4" ++ [LF]))
      defaultOptions.
Proof.
  apply (crlf_as_lf (λ _ _, None) defaultOptions
           (js "a,b" ++ [LF] ++ js "1,2" ++ [LF] ++ js "3,4" ++ [LF]));
    try discriminate;
    vm_compute; intros H;
    repeat (apply elem_of_cons in H as [H|H]; [discriminate H|]);
    by apply elem_of_nil in H.
Defined.

(** X12: a quote that is opened and never closed takes all that follows
    into the field: no later delimiter or line break ends anything, and a
    text that is an opening quote and such a rest is one line of one
    field. *)
Theorem unclosed_quote_takes_rest o rest :
  DQUOTE ∉ rest →
  (∀ st, inQuotes st = true → tokenize o rest st = appendField rest st)
  ∧ (finishField o rest ≠ [] →
     tokenLines o (DQUOTE :: rest) = [[finishField o rest]]).
Proof.
  intros Hnot. split.
  - intros st Hq. by apply tokenize_unclosed.
  - intros Hf. unfold tokenLines. cbn [stripBOM].
    change (DQUOTE =? BOM)%N with false. cbv iota.
    rewrite tokenize_open_quote by done.
    rewrite tokenize_unclosed by done.
    unfold lastLine, appendField, keepLine. simpl.
    destruct rest as [|c rest]; [by rewrite finishField_nil in Hf|]. simpl.
    destruct (finishField o (c :: rest)) as [|c' v'] eqn:E; [done|].
    simpl. by rewrite orb_true_r.
Qed.

(** The theorem on an opening quote followed by two lines. *)
Lemma unclosed_quote_takes_rest_witness :
  tokenLines defaultOptions (DQUOTE :: js "a,b" ++ [LF] ++ js "c,d")
  = [[js "a,b" ++ [LF] ++ js "c,d"]].
Proof.
  apply (unclosed_quote_takes_rest defaultOptions (js "a,b" ++ [LF] ++ js "c,d")).
  - vm_compute. intros H.
    repeat (apply elem_of_cons in H as [H|H]; [discriminate H|]).
    by apply elem_of_nil in H.
  - discriminate.
Defined.

(** The state between lines, with only blank characters in the field. *)
Lemma tokenize_blank o s : ∀ st,
  trimFields o = true → skipEmptyLines o = true →
  forallb (λ c, isTrimmed c && negb (isDelimiter o c)) s = true →
  lines st = [] → currentLine st = [] → inQuotes st = false →
  forallb isTrimmed (currentField st) = true →
  ∃ field, forallb isTrimmed field = true
           ∧ tokenize o s st
             = {| lines := []; currentLine := []; currentField := field;
                  inQuotes := false |}.
Proof.
  intros st Ht Hs. revert st.
  induction s as [s IH] using text_length_ind.
  intros st Hall Hl Hc Hq Hf.
  destruct s as [|c rest].
  { exists (currentField st). split; [done|]. destruct st; simpl in *.
    by subst. }
  cbn [forallb] in Hall. apply andb_true_iff in Hall as [Hc1 Hall].
  apply andb_true_iff in Hc1 as [Hblank Hdel]. apply negb_true_iff in Hdel.
  assert (Hend : ∀ st', lines st' = [] → currentLine st' = [] →
            inQuotes st' = false → forallb isTrimmed (currentField st') = true →
            lines (endLine o st') = [] ∧ currentLine (endLine o st') = []
            ∧ inQuotes (endLine o st') = false
            ∧ forallb isTrimmed (currentField (endLine o st')) = true).
  { intros st' Hl' Hc' Hq' Hf'. unfold endLine, keepLine, finishField. simpl.
    rewrite Ht, Hs, Hl', Hc', Hq', (trim_blank _ Hf'). by simpl. }
  cbn [tokenize].
  destruct (N.eqb_spec c DQUOTE) as [->|Hne]; [done|].
  rewrite Hdel. cbn [andb].
  pose proof (skip_length rest) as Hskip.
  assert (Hskipall : forallb (λ c, isTrimmed c && negb (isDelimiter o c))
                       (skip rest) = true).
  { destruct rest; [done|]. simpl in *. by apply andb_true_iff in Hall as [_ ?]. }
  rewrite Hq. cbn [negb]. rewrite andb_true_r.
  destruct ((c =? LF)%N || (c =? CR)%N && nextIs rest LF).
  - destruct (Hend st Hl Hc Hq Hf) as (? & ? & ? & ?).
    destruct (c =? CR)%N; apply IH; try done; simpl; lia.
  - apply IH; try done; [simpl; lia|]. simpl.
    rewrite forallb_app, Hf. simpl. by rewrite Hblank.
Qed.

(** X13: with [trimFields] and [skipEmptyLines], a text of white space
    and line breaks only (none of them the delimiter) is empty content:
    no headers, no rows, the error [Empty CSV content]. *)
Theorem blank_text_is_empty (decoder : Decoder) o csvText :
  trimFields o = true → skipEmptyLines o = true →
  forallb (λ c, isTrimmed c && negb (isDelimiter o c)) csvText = true →
  parseCSV decoder (Text csvText) o
  = Returns {| data := []; headers := [];
               errors := [js "Empty CSV content"] |}.
Proof.
  intros Ht Hs Hall. unfold parseCSV. f_equal. apply parseText_empty.
  unfold tokenLines.
  assert (Hstrip : forallb (λ c, isTrimmed c && negb (isDelimiter o c))
                     (stripBOM csvText) = true).
  { destruct csvText as [|c s]; [done|]. simpl.
    destruct (c =? BOM)%N; [|done]. simpl in Hall.
    by apply andb_true_iff in Hall as [_ ?]. }
  destruct (tokenize_blank o (stripBOM csvText) initTok Ht Hs Hstrip)
    as (field & Hfield & ->); try done.
  unfold lastLine, keepLine, finishField. simpl.
  rewrite Ht, Hs, (trim_blank _ Hfield). simpl.
  by destruct (0 <? length field)%nat.
Qed.

(** The theorem on spaces, a tab and line breaks. *)
Lemma blank_text_is_empty_witness :
  parseCSV (λ _ _, None) (Text (js "  " ++ [LF; TAB; CR; LF; LF] ++ js " "))
    defaultOptions
  = Returns {| data := []; headers := [];
               errors := [js "Empty CSV content"] |}.
Proof. apply blank_text_is_empty; reflexivity. Defined.

End LineBreaksAndQuotes.
(** ** What the parser returns: trimming, errors and rows *)

Section TrimmedValue.
Import Js.

(** The characters [trimStart] removes are trimmed characters. *)
Lemma trimStart_split s :
  ∃ before, s = before ++ trimStart s
            ∧ Forall (λ c, isTrimmed c = true) before.
Proof.
  induction s as [|c s (before & Hs & Hb)]; simpl.
  - by exists [].
  - destruct (isTrimmed c) eqn:Hc.
    + exists (c :: before). simpl. split; [by rewrite <- Hs|].
      by constructor.
    + by exists [].
Qed.

Lemma trimStart_app_blank before s :
  Forall (λ c, isTrimmed c = true) before →
  trimStart (before ++ s) = trimStart s.
Proof.
  induction 1 as [|c before Hc _ IH]; [done|]. simpl. by rewrite Hc.
Qed.

(** [trim] removes white space at both ends and nothing else. *)
Lemma trim_split s :
  ∃ before after,
    s = before ++ trim s ++ after
    ∧ Forall (λ c, isTrimmed c = true) before
    ∧ Forall (λ c, isTrimmed c = true) after.
Proof.
  destruct (trimStart_split s) as (before & Hs & Hb).
  destruct (trimStart_split (reverse (trimStart s))) as (after & Ha & Hafter).
  exists before, (reverse after). split; [|split; [done|]].
  - rewrite Hs at 1. f_equal. unfold trim.
    rewrite <- reverse_app, <- Ha. by rewrite reverse_involutive.
  - by apply Forall_reverse.
Qed.

(** White space around a text that neither starts nor ends with white
    space is what [trim] takes away. *)
Lemma trim_strip before v after :
  Forall (λ c, isTrimmed c = true) before →
  Forall (λ c, isTrimmed c = true) after →
  (∀ c, head v = Some c → isTrimmed c = false) →
  (∀ c, last v = Some c → isTrimmed c = false) →
  trim (before ++ v ++ after) = v.
Proof.
  intros Hb Ha Hh Hl. unfold trim. rewrite trimStart_app_blank by done.
  destruct v as [|c v].
  - simpl. destruct (trimStart_split after) as (pre & Hafter & _).
    assert (trimStart after = []) as ->; [|done].
    clear Hafter. induction Ha as [|x after Hx _ IH]; [done|].
    simpl. by rewrite Hx.
  - rewrite (trimStart_fixed ((c :: v) ++ after)) by (intros x [= <-]; by apply Hh).
    rewrite reverse_app, trimStart_app_blank by (by apply Forall_reverse).
    rewrite trimStart_fixed; [apply reverse_involutive|].
    intros x Hx. apply Hl. by rewrite <- head_reverse.
Qed.

End TrimmedValue.

Section QuotedFields.
Import Js Csv.

(** C4, amended: a quoted stretch never splits the field or the line, and
    what stands between the quotes is appended to the field as it is,
    delimiters and line breaks included.  The value of the field is that
    content as [finishField] leaves it: verbatim when [trimFields] is
    off; when it is on, the content without the white space (line breaks
    and tabs included) that stands before its first and after its last
    character that is not white space, and nothing else removed.  The
    example of the specification gives the one row it announces. *)
Theorem quoted_field_contained :
  (∀ o v rest st,
     inQuotes st = false → nextIs rest DQUOTE = false → DQUOTE ∉ v →
     tokenize o (DQUOTE :: v ++ DQUOTE :: rest) st
     = tokenize o rest (appendField v st))
  ∧ (∀ (decoder : Decoder) o v,
       hasHeaders o = false → DQUOTE ∉ v → finishField o v ≠ [] →
       parseCSV decoder (Text (DQUOTE :: v ++ [DQUOTE])) o
       = Returns {| data := [ {[ columnName 0 := finishField o v ]} ];
                    headers := [columnName 0];
                    errors := [] |})
  ∧ (∀ o v, trimFields o = false → finishField o v = v)
  ∧ (∀ o v,
       trimFields o = true →
       (∃ before after,
          v = before ++ finishField o v ++ after
          ∧ Forall (λ c, isTrimmed c = true) before
          ∧ Forall (λ c, isTrimmed c = true) after)
       ∧ (∀ c, head (finishField o v) = Some c → isTrimmed c = false)
       ∧ (∀ c, last (finishField o v) = Some c → isTrimmed c = false))
  ∧ (∀ (decoder : Decoder) o before v after,
       hasHeaders o = false → trimFields o = true →
       DQUOTE ∉ before ++ v ++ after → v ≠ [] →
       Forall (λ c, isTrimmed c = true) before →
       Forall (λ c, isTrimmed c = true) after →
       (∀ c, head v = Some c → isTrimmed c = false) →
       (∀ c, last v = Some c → isTrimmed c = false) →
       parseCSV decoder (Text (DQUOTE :: (before ++ v ++ after) ++ [DQUOTE])) o
       = Returns {| data := [ {[ columnName 0 := v ]} ];
                    headers := [columnName 0];
                    errors := [] |})
  ∧ (Forall (λ c, isTrimmed c = true) [TAB; LF; CR; 32%N]
     ∧ isTrimmed COMMA = false ∧ isTrimmed DQUOTE = false)
  ∧ (∀ decoder : Decoder,
       parseCSV decoder
         (Text (js "name,note" ++ [LF; DQUOTE] ++ js "Doe, John"
                ++ [DQUOTE; COMMA; DQUOTE] ++ js "Line1" ++ [LF] ++ js "Line2"
                ++ [DQUOTE]))
         {| hasHeaders := true; delimiter := [COMMA]; trimFields := true;
            encoding := js "UTF-8"; skipEmptyLines := true |}
       = Returns
           {| data := [ {[ js "name" := js "Doe, John";
                           js "note" := js "Line1" ++ [LF] ++ js "Line2" ]} ];
              headers := [js "name"; js "note"];
              errors := [] |}).
Proof.
  split; [|split; [|split; [|split; [|split; [|split]]]]].
  - intros o v rest st Hq Hn Hv.
    rewrite <- (doubleQuotes_plain v Hv) at 1. by apply tokenize_quoted_field.
  - intros decoder o v Hh Hv Hf.
    rewrite <- (doubleQuotes_plain v Hv) at 1. by apply parseCSV_quoted_field.
  - intros o v Ht. unfold finishField. by rewrite Ht.
  - intros o v Ht. unfold finishField. rewrite Ht.
    split; [apply trim_split|apply trim_ends].
  - intros decoder o before v after Hh Ht Hq Hv Hb Ha Hhead Hlast.
    assert (finishField o (before ++ v ++ after) = v) as Hf.
    { unfold finishField. rewrite Ht. by apply trim_strip. }
    rewrite <- (doubleQuotes_plain _ Hq) at 1.
    rewrite parseCSV_quoted_field; [by rewrite Hf|done|by rewrite Hf].
  - split; [repeat constructor|done].
  - intros decoder. vm_compute. reflexivity.
Qed.

(** The theorem on the content [a,b], a line break and [c], with a space
    before and a line break and a space after: the white space at both
    ends is trimmed, the delimiter and the line break inside are kept. *)
Lemma quoted_field_contained_witness :
  parseCSV (λ _ _, None)
    (Text (DQUOTE :: ([32%N] ++ (js "a,b" ++ [LF] ++ js "c") ++ [LF; 32%N])
           ++ [DQUOTE]))
    {| hasHeaders := false; delimiter := [COMMA]; trimFields := true;
       encoding := js "UTF-8"; skipEmptyLines := true |}
  = Returns {| data := [ {[ columnName 0 := js "a,b" ++ [LF] ++ js "c" ]} ];
               headers := [columnName 0];
               errors := [] |}.
Proof.
  apply (proj1 (proj2 (proj2 (proj2 (proj2 quoted_field_contained))))).
  - reflexivity.
  - reflexivity.
  - vm_compute. intros H.
    repeat (apply elem_of_cons in H as [H|H]; [discriminate H|]).
    by apply elem_of_nil in H.
  - discriminate.
  - repeat constructor.
  - repeat constructor.
  - intros c [= <-]. reflexivity.
  - intros c [= <-]. reflexivity.
Defined.

(** C4 as stated fails: with the default options the line break that ends
    the quoted content [Line1\n] is not in the parsed value. *)
Lemma quoted_newline_trimmed :
  parseCSV (λ _ _, None)
    (Text (js "note" ++ [LF; DQUOTE] ++ js "Line1" ++ [LF] ++ [DQUOTE]))
    defaultOptions
  = Returns {| data := [ {[ js "note" := js "Line1" ]} ];
               headers := [js "note"];
               errors := [] |}
  ∧ js "Line1" ≠ js "Line1" ++ [LF].
Proof. split; [vm_compute; reflexivity | discriminate]. Qed.

End QuotedFields.

Section ReportedAnomalies.
Import Js Csv.

(** The errors pushed for the data lines are those of the lines whose
    field count differs from the header count. *)
Lemma mismatch_elem hs ls : ∀ (g : nat → nat) e,
  e ∈ concat (imap (λ i line, mismatch hs (g i) line) ls)
  ↔ ∃ i line, ls !! i = Some line ∧ length line ≠ length hs
              ∧ e = lineError (g i) (length line) (length hs).
Proof.
  induction ls as [|l ls IH]; intros g e.
  - simpl. split; [by intros ?%elem_of_nil|by intros (i & line & ? & _)].
  - rewrite imap_cons. cbn [concat].
    change ((λ i line, mismatch hs (g i) line) ∘ S)
      with (λ i line, mismatch hs ((g ∘ S) i) line).
    rewrite elem_of_app, (IH (g ∘ S)). unfold mismatch at 1. split.
    + intros [He|(i & line & Hi & Hne & ->)].
      * destruct (decide (length l = length hs)) as [|Hne];
          [by apply elem_of_nil in He|].
        apply list_elem_of_singleton in He as ->. by exists 0%nat, l.
      * by exists (S i), line.
    + intros ([|i] & line & Hi & Hne & ->).
      * injection Hi as ->. left. rewrite decide_False by done.
        by apply list_elem_of_singleton.
      * right. by exists i, line.
Qed.

(** One error for each such line. *)
Lemma mismatch_length hs ls : ∀ g : nat → nat,
  length (concat (imap (λ i line, mismatch hs (g i) line) ls))
  = length (filter (λ line, length line ≠ length hs) ls).
Proof.
  induction ls as [|l ls IH]; intros g; [done|].
  rewrite imap_cons. cbn [concat].
  change ((λ i line, mismatch hs (g i) line) ∘ S)
    with (λ i line, mismatch hs ((g ∘ S) i) line).
  rewrite length_app, (IH (g ∘ S)), filter_cons. unfold mismatch.
  destruct (decide (length l = length hs)) as [Heq|Hne].
  - by rewrite decide_False by (by intros ?).
  - by rewrite decide_True.
Qed.

(** The row built for a line: its names are the headers, and the entry
    under a header is the field at the last column of that name. *)
Lemma fillRow_entries hs line :
  dom (fillRow hs 0 (adjustLine (length hs) line) ∅)
  = list_to_set hs ∖ {[PROTO]}
  ∧ ∀ j h, hs !! j = Some h →
           (∀ k, (j < k)%nat → hs !! k ≠ Some h) → h ≠ PROTO →
           fillRow hs 0 (adjustLine (length hs) line) ∅ !! h
           = Some (default [] (line !! j)).
Proof.
  split.
  - rewrite fillRow_dom, dom_empty_L. apply union_empty_l_L.
  - intros j h Hj Hlast Hproto.
    rewrite (fillRow_lookup_last hs 0 _ ∅ h j Hj Hlast Hproto).
    unfold cell. rewrite adjustLine_length, adjustLine_lookup. simpl.
    apply lookup_lt_Some in Hj.
    destruct (Nat.ltb_spec j (length hs)); [|lia].
    by rewrite decide_True.
Qed.

(** A text that opens a quote and never closes it is one line of one
    field. *)
Lemma tokenLines_unclosed o rest :
  DQUOTE ∉ rest → finishField o rest ≠ [] →
  tokenLines o (DQUOTE :: rest) = [[finishField o rest]].
Proof.
  intros Hnot Hf. unfold tokenLines. cbn [stripBOM].
  change (DQUOTE =? BOM)%N with false. cbv iota.
  rewrite tokenize_open_quote by done.
  rewrite tokenize_unclosed by done.
  unfold lastLine, appendField, keepLine. simpl.
  destruct rest as [|c rest]; [by rewrite finishField_nil in Hf|]. simpl.
  destruct (finishField o (c :: rest)) as [|c' v'] eqn:E; [done|].
  simpl. by rewrite orb_true_r.
Qed.

(** C3, amended: on a string, [parseCSV] returns, for every text and
    every options, and nothing in the text can make it throw.  Content
    without any line gives the one error [Empty CSV content].  Otherwise
    every data line gives a row, ragged or not: its names are the headers
    and its entries the fields of the line by position (the empty string
    where the line is too short).  The errors are the strings
    [Line i has n fields, expected m] of the ragged lines, one for each
    in line order, and nothing else: an unbalanced quote is reported
    nowhere.  A quote
    that is opened and never closed takes the rest of the text into one
    field, without any error. *)
Theorem parseCSV_text_returns (decoder : Decoder) (csvText : jsstring)
    (o : ParseOptions) :
  ∃ r : ParseResult,
    parseCSV decoder (Text csvText) o = Returns r
    ∧ (tokenLines o csvText = [] →
       r = {| data := []; headers := [];
              errors := [js "Empty CSV content"] |})
    ∧ (∀ (hs : list jsstring) (dataLines : list (list jsstring)),
         tokenLines o csvText ≠ [] →
         splitHeaders o (tokenLines o csvText) = (hs, dataLines) →
         headers r = hs
         ∧ length (data r) = length dataLines
         ∧ (∀ (i : nat) (line : list jsstring),
              dataLines !! i = Some line →
              ∃ row : Row,
                data r !! i = Some row
                ∧ dom row = list_to_set hs ∖ {[PROTO]}
                ∧ ∀ (j : nat) (h : jsstring),
                    hs !! j = Some h →
                    (∀ k, (j < k)%nat → hs !! k ≠ Some h) → h ≠ PROTO →
                    row !! h = Some (default [] (line !! j)))
         ∧ errors r
           = concat (imap (λ i line,
                       if decide (length line = length hs) then []
                       else [js "Line " ++ showNat (i + 1) ++ js " has "
                             ++ showNat (length line)
                             ++ js " fields, expected "
                             ++ showNat (length hs)])
                     dataLines)
         ∧ (∀ e : jsstring,
              e ∈ errors r
              ↔ ∃ (i : nat) (line : list jsstring),
                  dataLines !! i = Some line ∧ length line ≠ length hs
                  ∧ e = lineError i (length line) (length hs))
         ∧ length (errors r)
           = length (filter (λ line, length line ≠ length hs) dataLines))
    ∧ (∀ rest : jsstring,
         csvText = DQUOTE :: rest → DQUOTE ∉ rest → finishField o rest ≠ [] →
         tokenLines o csvText = [[finishField o rest]] ∧ errors r = []).
Proof.
  exists (parseText csvText o). split; [reflexivity|].
  split; [apply parseText_empty|]. split.
  - intros hs dataLines Hne Hsplit.
    rewrite (parseText_lines csvText o hs dataLines) by done.
    cbn [headers data errors].
    split; [done|]. split; [by rewrite length_fmap|].
    split; [|split; [|split]].
    + intros i line Hline. rewrite list_lookup_fmap, Hline. simpl.
      eexists. split; [reflexivity|]. apply fillRow_entries.
    + reflexivity.
    + intros e. apply (mismatch_elem hs dataLines id).
    + apply (mismatch_length hs dataLines id).
  - intros rest -> Hnot Hf.
    pose proof (tokenLines_unclosed o rest Hnot Hf) as Hls.
    split; [done|].
    rewrite (parseText_lines (DQUOTE :: rest) o
               (splitHeaders o [[finishField o rest]]).1
               (splitHeaders o [[finishField o rest]]).2).
    + cbn [errors]. unfold splitHeaders. by destruct (hasHeaders o).
    + by rewrite Hls.
    + rewrite Hls. by destruct (splitHeaders o _).
Qed.

(** The theorem on a text with a ragged row: the header [a,b], then the
    lines [1,2,3] and [4]. *)
Lemma parseCSV_text_returns_witness :
  ∃ r : ParseResult,
    parseCSV (λ _ _, None)
      (Text (js "a,b" ++ [LF] ++ js "1,2,3" ++ [LF] ++ js "4")) defaultOptions
    = Returns r
    ∧ length (data r) = 2%nat
    ∧ js "Line 2 has 1 fields, expected 2" ∈ errors r
    ∧ length (errors r) = 2%nat
    ∧ ∃ row : Row, data r !! 1%nat = Some row
                   ∧ row !! js "a" = Some (js "4") ∧ row !! js "b" = Some [].
Proof.
  destruct (parseCSV_text_returns (λ _ _, None)
              (js "a,b" ++ [LF] ++ js "1,2,3" ++ [LF] ++ js "4")
              defaultOptions) as (r & Hr & _ & Hlines & _).
  destruct (Hlines [js "a"; js "b"] [[js "1"; js "2"; js "3"]; [js "4"]])
    as (_ & Hlen & Hrows & _ & Herr & Hcount).
  - vm_compute. discriminate.
  - vm_compute. reflexivity.
  - exists r. split; [exact Hr|]. split; [exact Hlen|].
    split; [|split; [exact Hcount|]].
    + apply Herr. exists 1%nat, [js "4"].
      split; [reflexivity|]. split; [discriminate|reflexivity].
    + destruct (Hrows 1%nat [js "4"] eq_refl) as (row & Hrow & _ & Hentry).
      exists row. split; [exact Hrow|]. split.
      * apply (Hentry 0%nat (js "a") eq_refl); [|discriminate].
        intros k Hk. destruct k as [|[|k]]; [lia|discriminate|discriminate].
      * apply (Hentry 1%nat (js "b") eq_refl); [|discriminate].
        intros k Hk. destruct k as [|[|k]]; [lia|lia|discriminate].
Defined.

(** C3 as stated fails for an unbalanced quote: in the text [a], a line
    break, then an opening quote before [1,2], a line break and [3], the
    quote is never closed; the rest of the text becomes one value and the
    errors are empty. *)
Lemma unbalanced_quote_not_reported :
  parseCSV (λ _ _, None)
    (Text (js "a" ++ [LF; DQUOTE] ++ js "1,2" ++ [LF] ++ js "3"))
    defaultOptions
  = Returns {| data := [ {[ js "a" := js "1,2" ++ [LF] ++ js "3" ]} ];
               headers := [js "a"];
               errors := [] |}.
Proof. vm_compute. reflexivity. Qed.

End ReportedAnomalies.

Section CarriageReturns.
Import Js Csv.

(** C10: a carriage return that no line feed follows is not a line
    break, in quotes or outside: it is appended to the current field as it
    is, and the committed lines, the current line and the quote mode stay
    as they are.  This holds for every delimiter other than the carriage
    return itself: for the delimiters of the specification (comma,
    semicolon, tab, pipe), for the default, and for every delimiter that
    [detectDelimiter] returns.  With these, the text [a\rb] is one line
    of one field that holds the carriage return. *)
Theorem lone_carriage_return :
  (∀ o rest st,
     isDelimiter o CR = false ∨ inQuotes st = true →
     nextIs rest LF = false →
     tokenize o (CR :: rest) st = tokenize o rest (addChar CR st))
  ∧ (∀ c st,
       lines (addChar c st) = lines st
       ∧ currentLine (addChar c st) = currentLine st
       ∧ currentField (addChar c st) = currentField st ++ [c]
       ∧ inQuotes (addChar c st) = inQuotes st)
  ∧ (∀ o,
       delimiter o ∈ [[]; [COMMA]; [SEMICOLON]; [TAB]; [PIPE]]
       ∨ (∃ csvContent, delimiter o = detectDelimiter csvContent) →
       isDelimiter o CR = false)
  ∧ (∀ o,
       delimiter o ∈ [[]; [COMMA]; [SEMICOLON]; [TAB]; [PIPE]] →
       tokenLines o (js "a" ++ [CR] ++ js "b") = [[js "a" ++ [CR] ++ js "b"]])
  ∧ (∀ (decoder : Decoder) o,
       delimiter o ∈ [[]; [COMMA]; [SEMICOLON]; [TAB]; [PIPE]] →
       hasHeaders o = false →
       parseCSV decoder (Text (js "a" ++ [CR] ++ js "b")) o
       = Returns {| data := [ {[ js "Column 1" := js "a" ++ [CR] ++ js "b" ]} ];
                    headers := [js "Column 1"];
                    errors := [] |}).
Proof.
  assert (Hlines : ∀ o,
            delimiter o ∈ [[]; [COMMA]; [SEMICOLON]; [TAB]; [PIPE]] →
            tokenLines o (js "a" ++ [CR] ++ js "b")
            = [[js "a" ++ [CR] ++ js "b"]]).
  { intros [h d t e s] Hd. cbn [delimiter] in Hd.
    repeat (apply elem_of_cons in Hd as [->|Hd]);
      [..|by apply elem_of_nil in Hd];
      destruct t, s; vm_compute; reflexivity. }
  split; [|split; [|split; [|split]]].
  - intros o rest st Hd Hn. rewrite tokenize_lone_CR by done.
    destruct Hd as [Hd|Hd]; rewrite Hd; [done|]. by rewrite andb_false_r.
  - done.
  - intros o [Hd|[csvContent Hd]].
    + unfold isDelimiter.
      repeat (apply elem_of_cons in Hd as [->|Hd]);
        [..|by apply elem_of_nil in Hd]; done.
    + pose proof (pick_first_maximum
                    (countChar COMMA (sampleLines csvContent))
                    (countChar SEMICOLON (sampleLines csvContent))
                    (countChar TAB (sampleLines csvContent))
                    (countChar PIPE (sampleLines csvContent))) as [Hin _].
      change (detectedChar csvContent ∈ candidates) in Hin.
      unfold isDelimiter. rewrite Hd. unfold detectDelimiter.
      change (CR =? COMMA)%N with false. rewrite andb_false_r, orb_false_r.
      apply bool_decide_eq_false. intros [= Heq]. rewrite Heq in Hin.
      unfold candidates in Hin.
      repeat (apply elem_of_cons in Hin as [Hin|Hin]; [discriminate Hin|]).
      by apply elem_of_nil in Hin.
  - exact Hlines.
  - intros decoder o Hd Hh. unfold parseCSV. f_equal.
    rewrite (parseText_lines _ o [js "Column 1"] [[js "a" ++ [CR] ++ js "b"]]).
    + reflexivity.
    + by rewrite Hlines.
    + rewrite Hlines by done. unfold splitHeaders. by rewrite Hh.
Qed.

(** The theorem on [\rb] read after [a] with the default options. *)
Lemma lone_carriage_return_witness :
  tokenize defaultOptions (CR :: js "b") (addChar 97%N initTok)
  = tokenize defaultOptions (js "b") (addChar CR (addChar 97%N initTok)).
Proof.
  apply (proj1 lone_carriage_return defaultOptions (js "b")
           (addChar 97%N initTok)); [left|]; reflexivity.
Defined.

(** The carriage return as delimiter is the one case left out: it is no
    delimiter of the specification and no caller passes it.  Outside
    quotes it then ends the field, as any delimiter does. *)
Lemma carriage_return_delimiter :
  parseCSV (λ _ _, None) (Text (js "a" ++ [CR] ++ js "b"))
    {| hasHeaders := false; delimiter := [CR]; trimFields := true;
       encoding := js "UTF-8"; skipEmptyLines := true |}
  = Returns {| data := [ {[ js "Column 1" := js "a"; js "Column 2" := js "b" ]} ];
               headers := [js "Column 1"; js "Column 2"];
               errors := [] |}.
Proof. vm_compute. reflexivity. Qed.

End CarriageReturns.

(** ** The detected delimiter, passed to the parser *)

Section DetectedDelimiter.
Import Js Csv.

(** X1: the delimiter that [detectDelimiter] returns, given to
    [parseCSV], makes the tokenizer split fields at exactly one
    character, one of comma, semicolon, tab and pipe: never at a quote, a
    line feed or a carriage return, and the fallback to the comma for an
    empty delimiter is not used. *)
Theorem detected_delimiter_splits csvContent o :
  delimiter o = detectDelimiter csvContent →
  (∀ c, isDelimiter o c = true ↔ c = detectedChar csvContent)
  ∧ detectedChar csvContent ∈ candidates
  ∧ isDelimiter o DQUOTE = false
  ∧ isDelimiter o LF = false
  ∧ isDelimiter o CR = false.
Proof.
  intros Hd.
  assert (Hiff : ∀ c, isDelimiter o c = true ↔ c = detectedChar csvContent).
  { intros c. rewrite isDelimiter_iff, Hd. unfold detectDelimiter.
    split; [intros [[= ->]|[? _]]; done|intros ->; by left]. }
  pose proof (pick_first_maximum
                (countChar COMMA (sampleLines csvContent))
                (countChar SEMICOLON (sampleLines csvContent))
                (countChar TAB (sampleLines csvContent))
                (countChar PIPE (sampleLines csvContent))) as [Hin _].
  change (detectedChar csvContent ∈ candidates) in Hin.
  split; [done|]. split; [done|].
  assert (Hnot : ∀ c, c ∉ candidates → isDelimiter o c = false).
  { intros c Hc. apply not_true_is_false. rewrite Hiff. by intros ->. }
  repeat split; apply Hnot; unfold candidates; intros Hc;
    repeat (apply elem_of_cons in Hc as [Hc|Hc]; [discriminate Hc|]);
    by apply elem_of_nil in Hc.
Qed.

(** The theorem on a text where the semicolon is the most frequent. *)
Lemma detected_delimiter_splits_witness :
  isDelimiter
    {| hasHeaders := true; delimiter := detectDelimiter (js "a;b;c,d");
       trimFields := true; encoding := js "UTF-8";
       skipEmptyLines := true |} SEMICOLON = true.
Proof.
  apply (proj1 (detected_delimiter_splits (js "a;b;c,d")
                  {| hasHeaders := true;
                     delimiter := detectDelimiter (js "a;b;c,d");
                     trimFields := true; encoding := js "UTF-8";
                     skipEmptyLines := true |} eq_refl) SEMICOLON).
  vm_compute. reflexivity.
Defined.

End DetectedDelimiter.

(** ** Further properties of the encoding detection *)

Section EncodingMore.
Import Js Enc EncTable.

Lemma byteIs_true bs k v :
  byteIs bs k v = true ↔ bs !! k = Some v.
Proof.
  unfold byteIs. destruct (bs !! k) as [b|]; [|done].
  rewrite Z.eqb_eq. split; congruence.
Qed.

(** X14: the BOM table as implemented.  [detectBOM] answers from the
    first bytes alone: UTF-8 exactly for buffers starting with EF BB BF,
    UTF-16LE exactly for FF FE, UTF-16BE exactly for FE FF, UTF-32BE
    exactly for 00 00 FE FF; and a detected BOM decides [detectEncoding]
    whatever bytes follow. *)
Theorem detectBOM_table buffer :
  (detectBOM buffer = Some UTF8
   ↔ ∃ rest, buffer = 0xEF :: 0xBB :: 0xBF :: rest)
  ∧ (detectBOM buffer = Some UTF16LE ↔ ∃ rest, buffer = 0xFF :: 0xFE :: rest)
  ∧ (detectBOM buffer = Some UTF16BE ↔ ∃ rest, buffer = 0xFE :: 0xFF :: rest)
  ∧ (detectBOM buffer = Some UTF32BE
     ↔ ∃ rest, buffer = 0x00 :: 0x00 :: 0xFE :: 0xFF :: rest)
  ∧ (∀ e, detectBOM buffer = Some e → detectEncoding buffer = e).
Proof.
  assert (Hlast : ∀ e, detectBOM buffer = Some e → detectEncoding buffer = e).
  { intros e He. unfold detectEncoding. by rewrite He. }
  unfold detectBOM, byteIs.
  destruct buffer as [|b0 [|b1 [|b2 [|b3 rest]]]]; simpl;
    repeat match goal with
    | |- context [?x =? ?y] => destruct (Z.eqb_spec x y); subst; simpl
    end;
    repeat split; try done; try (intros [rest' H]; by simplify_eq);
    try (intros _; eauto); try (intros H; by simplify_eq).
Qed.

(** The theorem on the UTF-16BE BOM followed by the letter A. *)
Lemma detectBOM_table_witness :
  detectEncoding [0xFE; 0xFF; 0x00; 0x41] = UTF16BE.
Proof.
  apply (proj2 (proj2 (proj2 (proj2
           (detectBOM_table [0xFE; 0xFF; 0x00; 0x41]))))).
  reflexivity.
Defined.

Lemma continuation_range c :
  isByte c → Z.land c 0xC0 = 0x80 → 0x80 ≤ c ≤ 0xBF.
Proof.
  intros [Hlo Hhi] Hland.
  assert (Z.testbit c 7 = true) as H7.
  { apply (f_equal (λ x, Z.testbit x 7)) in Hland.
    rewrite Z.land_spec in Hland. change (Z.testbit 192 7) with true in Hland.
    change (Z.testbit 128 7) with true in Hland. by rewrite andb_true_r in Hland. }
  assert (Z.testbit c 6 = false) as H6.
  { apply (f_equal (λ x, Z.testbit x 6)) in Hland.
    rewrite Z.land_spec in Hland. change (Z.testbit 192 6) with true in Hland.
    change (Z.testbit 128 6) with false in Hland. by rewrite andb_true_r in Hland. }
  apply Z.testbit_true in H7; [|lia]. apply Z.testbit_false in H6; [|lia].
  change (2 ^ 7) with 128 in H7. change (2 ^ 6) with 64 in H6.
  revert H7 H6. Z.div_mod_to_equations. lia.
Qed.

Lemma ascii_not_continuation c :
  0 ≤ c ≤ 127 → isContinuation c = false.
Proof.
  intros Hc. apply not_true_is_false. rewrite isContinuation_true. intros H.
  apply continuation_range in H; [lia|]. unfold isByte. lia.
Qed.

(** In a structured buffer of bytes, no byte is above F7 and the last
    byte is below C0. *)
Lemma structured_bytes bs :
  Utf8Structured bs → Forall isByte bs →
  Forall (λ b, b ≤ 0xF7) bs ∧ (∀ b, last bs = Some b → b ≤ 0xBF).
Proof.
  induction 1 as [|b rest Hb _ IH|b c1 rest Hb H1 _ IH
                  |b c1 c2 rest Hb H1 H2 _ IH
                  |b c1 c2 c3 rest Hb H1 H2 H3 _ IH]; intros Hbytes;
    repeat match goal with
    | H : Forall isByte (_ :: _) |- _ => apply Forall_cons in H as [? H]
    end;
    repeat match goal with
    | H : Z.land ?c _ = _, Hc : isByte ?c |- _ =>
        apply (continuation_range c Hc) in H
    end.
  - split; [constructor|done].
  - destruct (IH Hbytes) as [Hall Hlast]. split; [constructor; [lia|done]|].
    intros b'. destruct rest; [intros [= <-]; lia|]. apply Hlast.
  - destruct (IH Hbytes) as [Hall Hlast].
    split; [repeat (constructor; [lia|]); done|].
    intros b'. destruct rest; [intros [= <-]; lia|]. apply Hlast.
  - destruct (IH Hbytes) as [Hall Hlast].
    split; [repeat (constructor; [lia|]); done|].
    intros b'. destruct rest; [intros [= <-]; lia|]. apply Hlast.
  - destruct (IH Hbytes) as [Hall Hlast].
    split; [repeat (constructor; [lia|]); done|].
    intros b'. destruct rest; [intros [= <-]; lia|]. apply Hlast.
Qed.

(** X15: bytes that rule UTF-8 out.  A buffer of bytes without BOM that
    holds a byte from F8 to FF anywhere, or that ends with a byte from C0
    to FF (a sequence cut short), is detected as Windows-1252. *)
Theorem never_utf8_bytes buffer :
  Forall isByte buffer →
  detectBOM buffer = None →
  (∃ b, b ∈ buffer ∧ 0xF8 ≤ b) ∨ (∃ b, last buffer = Some b ∧ 0xC0 ≤ b) →
  detectEncoding buffer = Windows1252.
Proof.
  intros Hbytes Hbom Hbad.
  destruct (detectEncoding_no_bom buffer Hbom) as [Hiff [Hu|Hw]]; [|done].
  apply Hiff in Hu as [_ Hs].
  destruct (structured_bytes buffer Hs Hbytes) as [Hall Hlast].
  destruct Hbad as [(b & Hin & Hb)|(b & Hl & Hb)].
  - rewrite Forall_forall in Hall. specialize (Hall b Hin). simpl in Hall. lia.
  - specialize (Hlast b Hl). lia.
Qed.

(** The theorem on Latin-1 text that holds the byte FC. *)
Lemma never_utf8_bytes_witness :
  detectEncoding [0x4D; 0xFC; 0x6C; 0x6C; 0x65; 0x72] = Windows1252.
Proof.
  apply never_utf8_bytes.
  - repeat constructor; unfold isByte; lia.
  - reflexivity.
  - left. exists 0xFC. split; [|lia]. right. left.
Defined.

Lemma scan_ascii tail : ∀ h,
  Forall (λ b, 0 ≤ b ≤ 127) tail → scan tail h = (true, h).
Proof.
  induction tail as [|b tail IH]; intros h Hall; [done|].
  apply Forall_cons in Hall as [Hb Hall]. simpl.
  destruct (Z.ltb_spec 127 b); [lia|]. by apply IH.
Qed.

(** Bytes up to 127 after the buffer do not change what the scan says. *)
Lemma scan_app_ascii tail :
  Forall (λ b, 0 ≤ b ≤ 127) tail →
  ∀ bs h, scan (bs ++ tail) h = scan bs h.
Proof.
  intros Hall bs. induction bs as [bs IH] using buffer_length_ind. intros h.
  assert (Hcont : ∀ t tail', tail = t :: tail' → isContinuation t = false).
  { intros t tail' ->. apply Forall_cons in Hall as [Ht _].
    by apply ascii_not_continuation. }
  assert (Hcont2 : ∀ t t2 tail', tail = t :: t2 :: tail' →
                   isContinuation t2 = false).
  { intros t t2 tail' ->. apply Forall_cons in Hall as [_ Hall].
    apply Forall_cons in Hall as [Ht _]. by apply ascii_not_continuation. }
  assert (Hcont3 : ∀ t t2 t3 tail', tail = t :: t2 :: t3 :: tail' →
                   isContinuation t3 = false).
  { intros t t2 t3 tail' ->. do 2 apply Forall_cons in Hall as [_ Hall].
    apply Forall_cons in Hall as [Ht _]. by apply ascii_not_continuation. }
  destruct bs as [|b rest]; [by apply scan_ascii|].
  cbn [app scan].
  destruct (127 <? b); [|apply IH; simpl; lia].
  destruct ((0xC0 <=? b) && (b <=? 0xDF)).
  { destruct rest as [|c1 rest1]; cbn [app].
    - destruct tail as [|t tail'] eqn:E; [done|].
      by rewrite (Hcont t tail').
    - destruct (isContinuation c1); [|done]. apply IH. simpl. lia. }
  destruct ((0xE0 <=? b) && (b <=? 0xEF)).
  { destruct rest as [|c1 [|c2 rest2]]; cbn [app].
    - destruct tail as [|t [|t2 tail']] eqn:E; [done|done|].
      by rewrite (Hcont t (t2 :: tail')).
    - destruct tail as [|t tail'] eqn:E; [done|].
      by rewrite (Hcont t tail'), andb_false_r.
    - destruct (isContinuation c1 && isContinuation c2); [|done].
      apply IH. simpl. lia. }
  destruct ((0xF0 <=? b) && (b <=? 0xF7)); [|done].
  destruct rest as [|c1 [|c2 [|c3 rest3]]]; cbn [app].
  - destruct tail as [|t [|t2 [|t3 tail']]] eqn:E; [done|done|done|].
    by rewrite (Hcont t (t2 :: t3 :: tail')).
  - destruct tail as [|t [|t2 tail']] eqn:E; [done|done|].
    by rewrite (Hcont t (t2 :: tail')), andb_false_r.
  - destruct tail as [|t tail'] eqn:E; [done|].
    by rewrite (Hcont t tail'), andb_false_r.
  - destruct (isContinuation c1 && isContinuation c2 && isContinuation c3);
      [|done].
    apply IH. simpl. lia.
Qed.

(** Bytes up to 127 after the buffer complete no BOM. *)
Lemma detectBOM_app_ascii bs tail :
  Forall (λ b, 0 ≤ b ≤ 127) tail → detectBOM (bs ++ tail) = detectBOM bs.
Proof.
  intros Hall.
  assert (Hhigh : ∀ k v, (k < 4)%nat → 127 < v →
            byteIs (take 4 (bs ++ tail)) k v = byteIs (take 4 bs) k v).
  { intros k v Hk Hv. apply eq_true_iff_eq. rewrite !byteIs_true.
    rewrite !lookup_take_lt by done.
    destruct (decide (k < length bs)%nat).
    - by rewrite lookup_app_l.
    - rewrite lookup_app_r by lia. rewrite (lookup_ge_None_2 bs) by lia.
      split; [|done]. intros Hin%list_elem_of_lookup_2.
      rewrite Forall_forall in Hall. specialize (Hall v Hin). simpl in Hall.
      lia. }
  unfold detectBOM. cbv zeta.
  rewrite (Hhigh 0%nat 0xEF), (Hhigh 1%nat 0xBB), (Hhigh 2%nat 0xBF),
    (Hhigh 0%nat 0xFF), (Hhigh 1%nat 0xFE), (Hhigh 0%nat 0xFE),
    (Hhigh 1%nat 0xFF), (Hhigh 2%nat 0xFE), (Hhigh 3%nat 0xFF) by lia.
  destruct (byteIs (take 4 bs) 0 0xEF && _ && _); [done|].
  destruct (byteIs (take 4 bs) 0 0xFF && byteIs (take 4 bs) 1 0xFE); [done|].
  destruct (byteIs (take 4 bs) 0 0xFE && byteIs (take 4 bs) 1 0xFF); [done|].
  cbn [andb].
  destruct (byteIs (take 4 bs) 3 0xFF) eqn:H3; [|by rewrite !andb_false_r].
  apply byteIs_true, lookup_lt_Some in H3. rewrite length_take in H3.
  by rewrite take_app_le by lia.
Qed.

(** X16: plain ASCII text after a buffer never changes the detected
    encoding. *)
Theorem detectEncoding_ascii_tail buffer tail :
  Forall (λ b, 0 ≤ b ≤ 127) tail →
  detectEncoding (buffer ++ tail) = detectEncoding buffer.
Proof.
  intros Hall. unfold detectEncoding.
  by rewrite detectBOM_app_ascii, scan_app_ascii.
Qed.

(** The theorem on a lead byte cut short, then the letters [ab]. *)
Lemma detectEncoding_ascii_tail_witness :
  detectEncoding ([0x63; 0xC3] ++ [0x61; 0x62]) = detectEncoding [0x63; 0xC3].
Proof.
  apply detectEncoding_ascii_tail. repeat constructor; lia.
Defined.

(** X17: without BOM the detected encoding is one the table of supported
    encodings offers; the encodings detected from a UTF-16 or UTF-32 BOM
    are not in the table. *)
Theorem detected_encoding_supported buffer :
  (detectBOM buffer = None →
   encodingName (detectEncoding buffer) ∈ supportedValues)
  ∧ (∀ e, detectBOM buffer = Some e → e ≠ UTF8 →
          encodingName (detectEncoding buffer) ∉ supportedValues).
Proof.
  split.
  - intros Hbom.
    destruct (detectEncoding_no_bom buffer Hbom) as [_ [-> | ->]].
    + by left.
    + right. right. by left.
  - intros e He Hne. unfold detectEncoding. rewrite He.
    assert (e = UTF8 ∨ e = UTF16LE ∨ e = UTF16BE ∨ e = UTF32BE)
      as [->|[->|[->| ->]]]; [|done| | |].
    { clear Hne. unfold detectBOM in He.
      repeat case_match; simplify_eq; tauto. }
    all: refine (bool_decide_unpack _ _); by vm_compute.
Qed.

(** The theorem on the UTF-16LE BOM. *)
Lemma detected_encoding_supported_witness :
  encodingName (detectEncoding [0xFF; 0xFE; 0x41; 0x00]) ∉ supportedValues.
Proof.
  apply (proj2 (detected_encoding_supported [0xFF; 0xFE; 0x41; 0x00]) UTF16LE);
    [reflexivity|discriminate].
Defined.

End EncodingMore.

(** ** Further properties of the column matchers *)

Section MatcherMore.
Import Js AutoMatch Mapper.

Variable toLowerCase : jsstring → jsstring.

(** [findIndex] returns the first index whose element passes the test. *)
Lemma findIndex_Some {A} (p : A → bool) (a : list A) i :
  findIndex p a = Some i
  ↔ (∃ x, a !! i = Some x ∧ p x = true)
    ∧ ∀ j y, (j < i)%nat → a !! j = Some y → p y = false.
Proof.
  revert i. induction a as [|x a IH]; intros i; simpl.
  - split; [done|]. by intros [(y & Hy & _) _].
  - destruct (p x) eqn:Hp.
    + split.
      * intros [= <-]. split; [eauto|]. intros j y Hj. lia.
      * intros [(y & Hy & Hpy) Hfirst]. destruct i as [|i]; [done|].
        specialize (Hfirst 0%nat x ltac:(lia) eq_refl). congruence.
    + destruct i as [|i].
      * split.
        -- destruct (findIndex p a); done.
        -- intros [(y & [= <-] & Hpy) _]. congruence.
      * assert (S <$> findIndex p a = Some (S i) ↔ findIndex p a = Some i)
          as -> by (destruct (findIndex p a); simpl; split; congruence).
        rewrite IH. split; intros [Hex Hfirst]; (split; [done|]).
        -- intros [|j] y Hj Hy; [simpl in Hy; congruence|].
           apply (Hfirst j y); [lia|done].
        -- intros j y Hj Hy. apply (Hfirst (S j) y); [lia|done].
Qed.

Lemma findIndex_None {A} (p : A → bool) (a : list A) :
  findIndex p a = None ↔ ∀ x, x ∈ a → p x = false.
Proof.
  induction a as [|x a IH]; simpl.
  - split; [|done]. intros _ y Hy. by apply elem_of_nil in Hy.
  - destruct (p x) eqn:Hp.
    + split; [done|]. intros H. specialize (H x ltac:(by left)). congruence.
    + assert (S <$> findIndex p a = None ↔ findIndex p a = None) as ->
        by (destruct (findIndex p a); simpl; split; congruence).
      rewrite IH. split.
      * intros H y [->|Hy]%elem_of_cons; auto.
      * intros H y Hy. apply H. by right.
Qed.

(** A fold whose steps each write their own key only: with distinct
    keys, the final entry of a key is what its step makes of a mapping
    that has the initial entry for that key. *)
Lemma foldl_own_key (g : Mapping → jsstring * FieldDefinition → Mapping)
    (fields : Fields) :
  (∀ (m : Mapping) e k, k ≠ e.1 → g m e !! k = m !! k) →
  NoDup fields.*1 →
  ∀ (m : Mapping) e, e ∈ fields →
    ∃ m' : Mapping, m' !! e.1 = m !! e.1
                    ∧ foldl g m fields !! e.1 = g m' e !! e.1.
Proof.
  intros Hlocal Hnd.
  assert (Hother : ∀ l (m : Mapping) k, k ∉ l.*1 → foldl g m l !! k = m !! k).
  { induction l as [|e0 l IHl]; intros m k Hk; [done|]. simpl in *.
    apply not_elem_of_cons in Hk as [Hne Hk].
    rewrite IHl by done. by apply Hlocal. }
  induction fields as [|e0 fields IH]; intros m e He.
  { by apply elem_of_nil in He. }
  simpl in Hnd. apply NoDup_cons in Hnd as [Hnot Hnd].
  apply elem_of_cons in He as [->|He]; simpl.
  - exists m. split; [done|]. by apply Hother.
  - destruct (IH Hnd (g m e0) e He) as (m' & Hm' & Heq).
    exists m'. split; [|done]. rewrite Hm'. apply Hlocal.
    intros Hk. apply Hnot. rewrite <- Hk.
    apply list_elem_of_fmap. by exists e.
Qed.

(** A property of mappings that every step keeps holds after the fold. *)
Lemma foldl_fields_invariant (g : Mapping → jsstring * FieldDefinition → Mapping)
    (P : Mapping → Prop) (fields : Fields) :
  (∀ (m : Mapping) e, e ∈ fields → P m → P (g m e)) →
  ∀ m : Mapping, P m → P (foldl g m fields).
Proof.
  induction fields as [|e fields IH]; intros Hstep m Hm; [done|]. simpl.
  apply IH.
  - intros m' e' He'. apply Hstep. by right.
  - apply Hstep; [by left|done].
Qed.

Lemma autoMapColumn_other (parsedHeaders : list jsstring) (m : Mapping)
    (e : jsstring * FieldDefinition) (k : jsstring) :
  k ≠ e.1 → autoMapColumn toLowerCase parsedHeaders m e !! k = m !! k.
Proof.
  intros Hk. destruct e as [f def]. unfold autoMapColumn. simpl in *.
  destruct (findColumn _ _ _) as [i|]; [|done].
  destruct (parsedHeaders !! i); [|done].
  rewrite assign_lookup. destruct (decide (f = PROTO)); [done|].
  by rewrite decide_False.
Qed.

(** The entry a field gets from [autoMapColumn]. *)
Lemma autoMapColumn_own (parsedHeaders : list jsstring) (m : Mapping)
    (f : jsstring) (def : FieldDefinition) :
  f ≠ PROTO →
  autoMapColumn toLowerCase parsedHeaders m (f, def) !! f
  = match findColumn toLowerCase parsedHeaders (labelOrName f def) with
    | Some i =>
      match parsedHeaders !! i with Some h => Some h | None => m !! f end
    | None => m !! f
    end.
Proof.
  intros Hf. unfold autoMapColumn.
  destruct (findColumn _ _ _) as [i|]; [|done].
  destruct (parsedHeaders !! i); [|done].
  by rewrite assign_lookup, decide_False, decide_True.
Qed.

(** Starting from the empty mapping, the steps of [autoMapColumns] only
    write field keys and headers. *)
Lemma foldl_autoMapColumn_entries (fields : Fields)
    (parsedHeaders : list jsstring) (f h : jsstring) :
  foldl (autoMapColumn toLowerCase parsedHeaders) ∅ fields !! f = Some h →
  f ∈ fields.*1 ∧ h ∈ parsedHeaders.
Proof.
  revert f h.
  apply (foldl_fields_invariant (autoMapColumn toLowerCase parsedHeaders)
           (λ m' : Mapping, ∀ f h : jsstring, m' !! f = Some h →
                f ∈ fields.*1 ∧ h ∈ parsedHeaders)).
  - intros m' [f' def] He Hm' f h. unfold autoMapColumn.
    destruct (findColumn _ _ _) as [i|]; [|apply Hm'].
    destruct (parsedHeaders !! i) as [h'|] eqn:Hi; [|apply Hm'].
    rewrite assign_lookup. destruct (decide (f' = PROTO)); [apply Hm'|].
    destruct (decide (f' = f)) as [<-|]; [|apply Hm'].
    intros [= <-]. split.
    + apply list_elem_of_fmap. by exists (f', def).
    + by eapply list_elem_of_lookup_2.
  - intros f h. by rewrite lookup_empty.
Qed.

Lemma autoMapColumns_fresh (fields : Fields) (parsedHeaders : list jsstring)
    (m : Mapping) :
  parsedHeaders ≠ [] →
  autoMapColumns toLowerCase fields parsedHeaders m
  = foldl (autoMapColumn toLowerCase parsedHeaders) ∅ fields.
Proof.
  intros Hne. unfold autoMapColumns.
  destruct (Nat.eqb_spec (length parsedHeaders) 0) as [E|_];
    [by destruct parsedHeaders|].
  by rewrite clearMapping_empty.
Qed.

(** X18: what [autoMapColumns] puts in the mapping.  With headers
    present, every entry of the result sends a key of [fields] to one of
    the headers, whatever the mapping held before; without headers the
    mapping is left as it is. *)
Theorem autoMapColumns_entries (fields : Fields) (parsedHeaders : list jsstring)
    (m : Mapping) :
  (parsedHeaders ≠ [] →
   ∀ f h : jsstring,
     autoMapColumns toLowerCase fields parsedHeaders m !! f = Some h →
     f ∈ fields.*1 ∧ h ∈ parsedHeaders)
  ∧ (parsedHeaders = [] →
     autoMapColumns toLowerCase fields parsedHeaders m = m).
Proof.
  split.
  - intros Hne f h. rewrite autoMapColumns_fresh by done.
    apply foldl_autoMapColumn_entries.
  - by intros ->.
Qed.

Lemma findColumn_exact (parsedHeaders : list jsstring) fieldLabel i :
  findIndex (exactMatch toLowerCase fieldLabel) parsedHeaders = Some i →
  findColumn toLowerCase parsedHeaders fieldLabel = Some i.
Proof. unfold findColumn, exactMatch. by intros ->. Qed.

Lemma findColumn_partial (parsedHeaders : list jsstring) fieldLabel :
  findIndex (exactMatch toLowerCase fieldLabel) parsedHeaders = None →
  findColumn toLowerCase parsedHeaders fieldLabel
  = findIndex (partialMatch toLowerCase fieldLabel) parsedHeaders.
Proof. unfold findColumn, exactMatch, partialMatch. by intros ->. Qed.

(** X19: how [autoMapColumns] chooses the column of a field.  With
    headers present and distinct field keys, a field (not named
    [__proto__]) is mapped to the first header equal to its label up to
    case; failing that, to the first header that contains the label or
    is contained in it, up to case; failing that, it is left unmapped.
    The label is the field's label, or its name when it has none. *)
Theorem autoMapColumns_choice (fields : Fields) (parsedHeaders : list jsstring)
    (m : Mapping) (f : jsstring) (def : FieldDefinition) :
  parsedHeaders ≠ [] → NoDup fields.*1 → (f, def) ∈ fields → f ≠ PROTO →
  (∀ i h, parsedHeaders !! i = Some h →
          exactMatch toLowerCase (labelOrName f def) h = true →
          (∀ j y, (j < i)%nat → parsedHeaders !! j = Some y →
                  exactMatch toLowerCase (labelOrName f def) y = false) →
          autoMapColumns toLowerCase fields parsedHeaders m !! f = Some h)
  ∧ ((∀ y, y ∈ parsedHeaders →
           exactMatch toLowerCase (labelOrName f def) y = false) →
     ∀ i h, parsedHeaders !! i = Some h →
            partialMatch toLowerCase (labelOrName f def) h = true →
            (∀ j y, (j < i)%nat → parsedHeaders !! j = Some y →
                    partialMatch toLowerCase (labelOrName f def) y = false) →
            autoMapColumns toLowerCase fields parsedHeaders m !! f = Some h)
  ∧ ((∀ y, y ∈ parsedHeaders →
           exactMatch toLowerCase (labelOrName f def) y = false
           ∧ partialMatch toLowerCase (labelOrName f def) y = false) →
     autoMapColumns toLowerCase fields parsedHeaders m !! f = None).
Proof.
  intros Hne Hnd Hin Hf. unfold autoMapColumns.
  destruct (Nat.eqb_spec (length parsedHeaders) 0) as [E|_];
    [by destruct parsedHeaders|].
  rewrite clearMapping_empty.
  destruct (foldl_own_key (autoMapColumn toLowerCase parsedHeaders) fields
              (autoMapColumn_other parsedHeaders) Hnd ∅ (f, def) Hin)
    as (m' & Hm' & Heq).
  cbn [fst] in Hm', Heq. rewrite lookup_empty in Hm'.
  rewrite Heq, autoMapColumn_own, Hm' by done.
  split; [|split].
  - intros i h Hi Hex Hfirst.
    rewrite (findColumn_exact parsedHeaders _ i), Hi; [done|].
    apply findIndex_Some. split; [eauto|done].
  - intros Hnone i h Hi Hpart Hfirst.
    rewrite findColumn_partial by (by apply findIndex_None).
    assert (findIndex (partialMatch toLowerCase (labelOrName f def))
              parsedHeaders = Some i) as ->.
    { apply findIndex_Some. split; [eauto|done]. }
    by rewrite Hi.
  - intros Hnone.
    rewrite findColumn_partial by (apply findIndex_None; apply Hnone).
    assert (findIndex (partialMatch toLowerCase (labelOrName f def))
              parsedHeaders = None) as ->; [|done].
    apply findIndex_None. apply Hnone.
Qed.

Lemma includes_nil s : includes s [] = true.
Proof. by destruct s. Qed.

(** X20: an empty header matches every field in the partial pass of
    [autoMapColumns]: when one of the headers is the empty string
    ([toLowerCase] leaves the empty string empty), every field of
    [fields] not named [__proto__] ends up with an entry in the
    mapping. *)
Theorem autoMapColumns_empty_header (fields : Fields)
    (parsedHeaders : list jsstring) (m : Mapping) (f : jsstring)
    (def : FieldDefinition) :
  toLowerCase [] = [] →
  [] ∈ parsedHeaders → (f, def) ∈ fields → f ≠ PROTO →
  is_Some (autoMapColumns toLowerCase fields parsedHeaders m !! f).
Proof.
  intros Hlow Hempty Hin Hf. unfold autoMapColumns.
  destruct (Nat.eqb_spec (length parsedHeaders) 0) as [E|_].
  { destruct parsedHeaders; [by apply elem_of_nil in Hempty|done]. }
  generalize (clearMapping m). intros m0.
  assert (Hfound : ∀ lbl, is_Some (findColumn toLowerCase parsedHeaders lbl)).
  { intros lbl. unfold findColumn.
    destruct (findIndex (λ header, bool_decide _) parsedHeaders); [done|].
    destruct (findIndex _ parsedHeaders) eqn:E; [done|].
    pose proof (proj1 (findIndex_None _ _) E [] Hempty) as E'. simpl in E'.
    by rewrite Hlow, includes_nil, orb_true_r in E'. }
  assert (Hkeep : ∀ l (m1 : Mapping), is_Some (m1 !! f) →
            is_Some (foldl (autoMapColumn toLowerCase parsedHeaders) m1 l !! f)).
  { intros l. apply (foldl_fields_invariant _ (λ m1 : Mapping, is_Some (m1 !! f))).
    intros m1 [f' def'] _ Hm1. unfold autoMapColumn.
    destruct (findColumn _ _ _) as [i|]; [|done].
    destruct (parsedHeaders !! i); [|done].
    rewrite assign_lookup. destruct (decide (f' = PROTO)); [done|].
    by destruct (decide (f' = f)). }
  revert m0. induction fields as [|e fields IH]; intros m0.
  { by apply elem_of_nil in Hin. }
  apply elem_of_cons in Hin as [<-|Hin]; cbn [foldl].
  - apply Hkeep. rewrite autoMapColumn_own by done.
    destruct (Hfound (labelOrName f def)) as [i Hi]. rewrite Hi.
    unfold findColumn in Hi.
    assert (is_Some (parsedHeaders !! i)) as [h ->]; [|done].
    destruct (findIndex (λ header, bool_decide _) parsedHeaders) eqn:E1.
    + injection Hi as <-. apply findIndex_lookup in E1 as (x & -> & _). done.
    + apply findIndex_lookup in Hi as (x & -> & _). done.
  - by apply IH.
Qed.

End MatcherMore.

Section MatcherExamples1.
Import Js AutoMatch Mapper.

(** The theorem on a field and two headers. *)
Lemma autoMapColumns_entries_witness :
  js "email"
    ∈ [ (js "email", {| required := true; label := Some (js "e-mail") |}) ].*1
  ∧ js "E-Mail" ∈ [js "Name"; js "E-Mail"].
Proof.
  apply (proj1 (autoMapColumns_entries asciiLower
           [ (js "email", {| required := true; label := Some (js "e-mail") |}) ]
           [js "Name"; js "E-Mail"] ∅) ltac:(discriminate)
           (js "email") (js "E-Mail")).
  unfold autoMapColumns. simpl. rewrite clearMapping_empty. reflexivity.
Defined.

(** The theorem on a label that one header equals and an earlier header
    contains. *)
Lemma autoMapColumns_choice_witness :
  autoMapColumns asciiLower
    [ (js "name", {| required := true; label := None |}) ]
    [js "First name"; js "NAME"] ∅ !! js "name"
  = Some (js "NAME").
Proof.
  apply (proj1 (autoMapColumns_choice asciiLower
                  [ (js "name", {| required := true; label := None |}) ]
                  [js "First name"; js "NAME"] ∅ (js "name")
                  {| required := true; label := None |}
                  ltac:(discriminate)
                  ltac:(repeat constructor; by intros ?%elem_of_nil)
                  ltac:(by left) ltac:(discriminate)) 1%nat (js "NAME")).
  - reflexivity.
  - reflexivity.
  - intros j y Hj Hy. destruct j as [|j]; [|lia].
    injection Hy as <-. reflexivity.
Defined.

(** The theorem on a header row with a blank cell. *)
Lemma autoMapColumns_empty_header_witness :
  is_Some (autoMapColumns asciiLower
             [ (js "phone", {| required := false; label := None |}) ]
             [js "name"; []] ∅ !! js "phone").
Proof.
  apply (autoMapColumns_empty_header asciiLower _ _ _ _
           {| required := false; label := None |}).
  - reflexivity.
  - right. left.
  - left.
  - discriminate.
Defined.

End MatcherExamples1.

Section FieldMatcherMore.
Import Js AutoMatch Mapper.

Variable toLowerCase : jsstring → jsstring.

Lemma findMatch_fieldMatch (props : MapProps) (parsedHeaders : list jsstring)
    (fieldName fieldLabel : jsstring) :
  findMatch toLowerCase props parsedHeaders fieldName fieldLabel
  = findIndex (fieldMatch toLowerCase props fieldName fieldLabel) parsedHeaders.
Proof.
  unfold findMatch, fieldMatch. by destruct (autoMatchIgnoreCase props).
Qed.

(** A matched header is a header that passes the test, before which no
    header passes. *)
Lemma matchedHeader_Some (props : MapProps) (parsedHeaders : list jsstring)
    (f : jsstring) (def : FieldDefinition) (h : jsstring) :
  matchedHeader toLowerCase props parsedHeaders (f, def) = Some h
  ↔ ∃ i, parsedHeaders !! i = Some h
         ∧ fieldMatch toLowerCase props f (labelOrName f def) h = true
         ∧ ∀ j y, (j < i)%nat → parsedHeaders !! j = Some y →
                  fieldMatch toLowerCase props f (labelOrName f def) y = false.
Proof.
  unfold matchedHeader. rewrite findMatch_fieldMatch. split.
  - destruct (findIndex _ parsedHeaders) as [i|] eqn:E; [|done]. simpl.
    intros Hi. apply findIndex_Some in E as [(x & Hx & Hp) Hfirst].
    exists i. split; [done|]. split; [congruence|done].
  - intros (i & Hi & Hp & Hfirst).
    assert (findIndex (fieldMatch toLowerCase props f (labelOrName f def))
              parsedHeaders = Some i) as ->; [|done].
    apply findIndex_Some. split; [eauto|done].
Qed.

Lemma matchedHeader_None (props : MapProps) (parsedHeaders : list jsstring)
    (f : jsstring) (def : FieldDefinition) :
  (∀ y, y ∈ parsedHeaders →
        fieldMatch toLowerCase props f (labelOrName f def) y = false) →
  matchedHeader toLowerCase props parsedHeaders (f, def) = None.
Proof.
  intros Hnone. unfold matchedHeader. rewrite findMatch_fieldMatch.
  by rewrite (proj2 (findIndex_None _ _) Hnone).
Qed.

Lemma matchedHeader_None_iff (props : MapProps) (parsedHeaders : list jsstring)
    (f : jsstring) (def : FieldDefinition) :
  matchedHeader toLowerCase props parsedHeaders (f, def) = None
  ↔ ∀ y, y ∈ parsedHeaders →
         fieldMatch toLowerCase props f (labelOrName f def) y = false.
Proof.
  split; [|apply matchedHeader_None].
  unfold matchedHeader. rewrite findMatch_fieldMatch.
  destruct (findIndex _ parsedHeaders) as [i|] eqn:E.
  - simpl. apply findIndex_lookup in E as (x & -> & _). done.
  - intros _. by apply findIndex_None.
Qed.

(** A mapped entry is kept by the whole of [autoMatchFields]. *)
Lemma autoMatch_keeps_entries (props : MapProps) (fields : Fields)
    (parsedHeaders : list jsstring) (parsedData : list object) (m : Mapping)
    (f v : jsstring) :
  m !! f = Some v → v ≠ [] →
  autoMatchFields toLowerCase props fields parsedHeaders parsedData m !! f
  = Some v.
Proof.
  intros Hf Hv. unfold autoMatchFields.
  destruct (negb _ || negb _); [done|]. by apply foldl_keeps.
Qed.

Lemma autoMatchField_other (props : MapProps) (parsedHeaders : list jsstring) (m : Mapping)
    (e : jsstring * FieldDefinition) (k : jsstring) :
  k ≠ e.1 →
  autoMatchField toLowerCase props parsedHeaders m e !! k = m !! k.
Proof.
  intros Hk.
  destruct (autoMatchField_cases toLowerCase props parsedHeaders m e)
    as [->|(_ & _ & h & _ & ->)]; [done|].
  by rewrite lookup_insert_ne.
Qed.

Lemma autoMatchFields_runs (props : MapProps) (fields : Fields)
    (parsedHeaders : list jsstring) (parsedData : list object) (m : Mapping) :
  autoMatch props = true → parsedData ≠ [] → parsedHeaders ≠ [] →
  autoMatchFields toLowerCase props fields parsedHeaders parsedData m
  = foldl (autoMatchField toLowerCase props parsedHeaders) m fields.
Proof.
  intros Hauto Hdata Hhs. unfold autoMatchFields. rewrite Hauto.
  by destruct parsedData, parsedHeaders.
Qed.

Lemma autoMatchFields_idle (props : MapProps) (fields : Fields)
    (parsedData : list object) (m : Mapping) :
  autoMatchFields toLowerCase props fields [] parsedData m = m.
Proof.
  unfold autoMatchFields. simpl. by rewrite andb_false_r, orb_true_r.
Qed.

(** A field that reads as mapped is left alone, and reads as mapped
    whatever the other fields get. *)
Lemma autoMatchField_stays_mapped (props : MapProps)
    (parsedHeaders : list jsstring) (m : Mapping)
    (e : jsstring * FieldDefinition) (f : jsstring) :
  isMapped m f = true →
  autoMatchField toLowerCase props parsedHeaders m e !! f = m !! f.
Proof.
  intros Hm.
  destruct (autoMatchField_unmapped toLowerCase props parsedHeaders m e)
    as [->|(_ & Hu & h & _ & ->)]; [done|].
  apply lookup_insert_ne. intros Heq. congruence.
Qed.

Lemma autoMatchFields_stays (props : MapProps) (fields : Fields)
    (parsedHeaders : list jsstring) (parsedData : list object) (f : jsstring) :
  ∀ m : Mapping,
    isMapped m f = true →
    autoMatchFields toLowerCase props fields parsedHeaders parsedData m !! f
    = m !! f.
Proof.
  intros m Hm. unfold autoMatchFields.
  destruct (negb _ || negb _); [done|].
  revert m Hm. induction fields as [|e fields IH]; intros m Hm; [done|].
  cbn [foldl].
  pose proof (autoMatchField_stays_mapped props parsedHeaders m e f Hm) as He.
  rewrite IH; [done|]. by rewrite (isMapped_ext _ m f He).
Qed.

Lemma autoMatchFields_stays_mapped (props : MapProps) (fields : Fields)
    (parsedHeaders : list jsstring) (parsedData : list object) (m : Mapping)
    (f : jsstring) :
  isMapped m f = true →
  isMapped
    (autoMatchFields toLowerCase props fields parsedHeaders parsedData m) f
  = true.
Proof.
  intros Hm. rewrite <- Hm. apply isMapped_ext.
  by apply autoMatchFields_stays.
Qed.

(** A field named as a property of [Object.prototype] reads as mapped
    although the mapping has no entry for it: it is skipped, and gets no
    column even when a header bears its name. *)
Lemma autoMatchFields_inherited_name (props : MapProps) (fields : Fields)
    (parsedHeaders : list jsstring) (parsedData : list object) (m : Mapping)
    (f : jsstring) :
  f ∈ objectPrototypeNames → m !! f = None →
  autoMatchFields toLowerCase props fields parsedHeaders parsedData m !! f
  = None.
Proof.
  intros Hin Hm. rewrite autoMatchFields_stays; [done|].
  unfold isMapped. destruct (decide (f = PROTO)); [done|].
  rewrite Hm. by apply bool_decide_eq_true.
Qed.

(** X21: what [autoMatchFields] adds to the mapping.  Every entry of the
    result was in the mapping before, or sends a key of [fields] to a
    header equal to the field's label or name (up to case when
    [autoMatchIgnoreCase]). *)
Theorem autoMatchFields_entries (props : MapProps) (fields : Fields)
    (parsedHeaders : list jsstring) (parsedData : list object) (m : Mapping)
    (f h : jsstring) :
  autoMatchFields toLowerCase props fields parsedHeaders parsedData m !! f
  = Some h →
  m !! f = Some h
  ∨ ∃ def, (f, def) ∈ fields ∧ h ∈ parsedHeaders
           ∧ fieldMatch toLowerCase props f (labelOrName f def) h = true.
Proof.
  unfold autoMatchFields. destruct (negb _ || negb _); [by left|].
  revert f h.
  apply (foldl_fields_invariant (autoMatchField toLowerCase props parsedHeaders)
           (λ m' : Mapping, ∀ f h : jsstring, m' !! f = Some h →
              m !! f = Some h
              ∨ ∃ def, (f, def) ∈ fields ∧ h ∈ parsedHeaders
                       ∧ fieldMatch toLowerCase props f (labelOrName f def) h
                         = true)); [|by left].
  intros m' [f' def] He Hm' f h.
  destruct (autoMatchField_cases toLowerCase props parsedHeaders m' (f', def))
    as [->|(_ & _ & h' & Hh' & ->)]; [apply Hm'|].
  simpl. destruct (decide (f' = f)) as [<-|Hne].
  - rewrite lookup_insert_eq. intros [= <-]. right. exists def.
    apply matchedHeader_Some in Hh' as (i & Hi & Hp & _).
    split; [done|]. split; [by eapply list_elem_of_lookup_2|done].
  - rewrite lookup_insert_ne by done. apply Hm'.
Qed.

(** X22: how [autoMatchFields] chooses the column of a field.  When it
    runs (auto-matching on, rows and headers present) over distinct field
    keys, a field that reads as unmapped is mapped to the first header
    equal to its label or to its name (up to case when
    [autoMatchIgnoreCase]); when no header is, its entry is left as it
    was. *)
Theorem autoMatchFields_choice (props : MapProps) (fields : Fields)
    (parsedHeaders : list jsstring) (parsedData : list object) (m : Mapping)
    (f : jsstring) (def : FieldDefinition) :
  autoMatch props = true → parsedData ≠ [] →
  NoDup fields.*1 → (f, def) ∈ fields → isMapped m f = false →
  (∀ i h, parsedHeaders !! i = Some h →
          fieldMatch toLowerCase props f (labelOrName f def) h = true →
          (∀ j y, (j < i)%nat → parsedHeaders !! j = Some y →
                  fieldMatch toLowerCase props f (labelOrName f def) y = false) →
          autoMatchFields toLowerCase props fields parsedHeaders parsedData m
            !! f = Some h)
  ∧ ((∀ y, y ∈ parsedHeaders →
           fieldMatch toLowerCase props f (labelOrName f def) y = false) →
     autoMatchFields toLowerCase props fields parsedHeaders parsedData m !! f
     = m !! f).
Proof.
  intros Hauto Hdata Hnd Hin Hunmapped.
  assert (Hf : f ≠ PROTO) by (by apply (isMapped_false m)).
  assert (Hown : ∀ m' : Mapping, m' !! f = m !! f →
            autoMatchField toLowerCase props parsedHeaders m' (f, def) !! f
            = match matchedHeader toLowerCase props parsedHeaders (f, def) with
              | Some h => Some h
              | None => m !! f
              end).
  { intros m' Hm'. unfold autoMatchField. cbn [fst].
    rewrite (isMapped_ext m' m f Hm'), Hunmapped.
    destruct (matchedHeader _ _ _ _) as [h|]; [|done].
    unfold mapField. by rewrite assign_lookup, decide_False, decide_True. }
  destruct (foldl_own_key (autoMatchField toLowerCase props parsedHeaders)
              fields (autoMatchField_other props parsedHeaders) Hnd m (f, def)
              Hin) as (m' & Hm' & Heq).
  cbn [fst] in Hm', Heq.
  split.
  - intros i h Hi Hp Hfirst.
    rewrite autoMatchFields_runs; [|done|done|by destruct parsedHeaders].
    rewrite Heq, Hown by done.
    assert (matchedHeader toLowerCase props parsedHeaders (f, def) = Some h)
      as ->; [|done].
    apply matchedHeader_Some. eauto.
  - intros Hnone. destruct parsedHeaders as [|h0 hs] eqn:Ehs.
    + by rewrite autoMatchFields_idle.
    + rewrite <- Ehs in *. rewrite autoMatchFields_runs;
        [|done|done|by rewrite Ehs].
      rewrite Heq, Hown by done. by rewrite matchedHeader_None.
Qed.

(** X23: after [autoMatchFields] has run over headers that are not empty
    strings, no required field is missing provided each required field
    was mapped or has a header equal to its label or name (up to case
    when [autoMatchIgnoreCase]). *)
Theorem autoMatchFields_required (props : MapProps) (fields : Fields)
    (parsedHeaders : list jsstring) (parsedData : list object) (m : Mapping) :
  autoMatch props = true → parsedData ≠ [] →
  Forall (λ h, h ≠ []) parsedHeaders →
  (∀ f def, (f, def) ∈ fields → required def = true →
            isMapped m f = true
            ∨ ∃ h, h ∈ parsedHeaders
                   ∧ fieldMatch toLowerCase props f (labelOrName f def) h = true) →
  hasMissingRequiredFields fields
    (autoMatchFields toLowerCase props fields parsedHeaders parsedData m)
  = false.
Proof.
  intros Hauto Hdata Hheaders Hreq.
  apply not_true_is_false. unfold hasMissingRequiredFields.
  rewrite existsb_exists. intros ([f def] & Hin & Hmiss).
  apply list_elem_of_In in Hin. cbn [fst snd] in Hmiss.
  apply andb_true_iff in Hmiss as [Hr Hun]. apply negb_true_iff in Hun.
  destruct (Hreq f def Hin Hr) as [Hm|(h & Hh & Hp)].
  - (* mapped before: it stays mapped *)
    rewrite (autoMatchFields_stays_mapped props fields parsedHeaders
               parsedData m f Hm) in Hun.
    done.
  - assert (parsedHeaders ≠ []) as Hne
      by (intros ->; by apply elem_of_nil in Hh).
    rewrite autoMatchFields_runs in Hun by done.
    pose proof (foldl_settles toLowerCase props parsedHeaders fields m
                  (f, def) Hin) as Hst.
    set (F := foldl (autoMatchField toLowerCase props parsedHeaders) m fields)
      in *.
    unfold autoMatchField in Hst. cbn [fst] in Hst. rewrite Hun in Hst.
    destruct (matchedHeader toLowerCase props parsedHeaders (f, def))
      as [h'|] eqn:Hm.
    + apply matchedHeader_Some in Hm as (i & Hi & _ & _).
      assert (h' ≠ []) as Hne'.
      { rewrite Forall_forall in Hheaders. apply Hheaders.
        by eapply list_elem_of_lookup_2. }
      apply isMapped_false in Hun as [Hproto Hun].
      unfold mapField, assign in Hst. rewrite decide_False in Hst by done.
      assert (F !! f = Some h') as Hf
        by (rewrite <- Hst; apply lookup_insert_eq).
      rewrite Hf in Hun. by destruct h'.
    + rewrite matchedHeader_None_iff in Hm. specialize (Hm h Hh). congruence.
Qed.

End FieldMatcherMore.

Section MatcherExamples2.
Import Js AutoMatch Mapper.

(** The theorem on a required field whose label is a header. *)
Lemma autoMatchFields_required_witness :
  hasMissingRequiredFields
    [ (js "email", {| required := true; label := Some (js "E-mail") |}) ]
    (autoMatchFields asciiLower
       {| autoMatch := true; autoMatchIgnoreCase := true |}
       [ (js "email", {| required := true; label := Some (js "E-mail") |}) ]
       [js "Name"; js "e-mail"] [∅] ∅)
  = false.
Proof.
  apply autoMatchFields_required.
  - reflexivity.
  - discriminate.
  - repeat constructor; discriminate.
  - intros f def Hin _. apply list_elem_of_singleton in Hin.
    injection Hin as -> ->. right. exists (js "e-mail").
    split; [right; left|reflexivity].
Defined.

(** The theorem on a field matched by its name, second header. *)
Lemma autoMatchFields_choice_witness :
  autoMatchFields asciiLower
    {| autoMatch := true; autoMatchIgnoreCase := false |}
    [ (js "age", {| required := false; label := Some (js "Age (years)") |}) ]
    [js "Age"; js "age"] [∅] ∅ !! js "age"
  = Some (js "age").
Proof.
  apply (proj1 (autoMatchFields_choice asciiLower
                  {| autoMatch := true; autoMatchIgnoreCase := false |}
                  [ (js "age",
                     {| required := false; label := Some (js "Age (years)") |}) ]
                  [js "Age"; js "age"] [∅] ∅ (js "age")
                  {| required := false; label := Some (js "Age (years)") |}
                  eq_refl ltac:(discriminate)
                  ltac:(repeat constructor; by intros ?%elem_of_nil)
                  ltac:(by left) eq_refl) 1%nat (js "age")).
  - reflexivity.
  - reflexivity.
  - intros j y Hj Hy. destruct j as [|j]; [|lia].
    injection Hy as <-. reflexivity.
Defined.

(** The theorem on a mapping computed from nothing. *)
Lemma autoMatchFields_entries_witness :
  (∅ : Mapping) !! js "age" = Some (js "age")
  ∨ ∃ def, (js "age", def)
           ∈ [ (js "age", {| required := false; label := None |}) ]
           ∧ js "age" ∈ [js "Age"; js "age"]
           ∧ fieldMatch asciiLower
               {| autoMatch := true; autoMatchIgnoreCase := false |}
               (js "age") (labelOrName (js "age") def) (js "age") = true.
Proof.
  apply (autoMatchFields_entries asciiLower
           {| autoMatch := true; autoMatchIgnoreCase := false |}
           [ (js "age", {| required := false; label := None |}) ]
           [js "Age"; js "age"] [∅] ∅ (js "age") (js "age")).
  reflexivity.
Defined.

(** A field named [constructor], without entry in the mapping: the read
    [mapping[fieldName]] gives the function inherited from
    [Object.prototype], so the field is skipped although a header bears
    its name, and it does not count as missing. *)
Lemma inherited_name_reads_as_mapped :
  autoMatchFields asciiLower
    {| autoMatch := true; autoMatchIgnoreCase := true |}
    [ (js "constructor", {| required := true; label := None |}) ]
    [js "constructor"] [∅] ∅
  = ∅
  ∧ hasMissingRequiredFields
      [ (js "constructor", {| required := true; label := None |}) ] ∅
    = false.
Proof. split; vm_compute; reflexivity. Qed.

End MatcherExamples2.

(** ** The processor *)

Section ProcessorFacts.
Import Js Enc EncTable Csv AutoMatch Processor.

Variable decoder : Decoder.
Variable decoderMessage : jsstring → jsstring.
Variable toLowerCase : jsstring → jsstring.
Variable props : Props.

Local Abbreviation processFile' :=
  (processFile decoder decoderMessage toLowerCase props).
Local Abbreviation toggleHeaders' :=
  (toggleHeaders decoder decoderMessage toLowerCase props).

(** No headers means empty content. *)
Lemma parseText_no_headers csvText o :
  headers (parseText csvText o) = [] → tokenLines o csvText = [].
Proof.
  destruct (tokenLines o csvText) as [|first others] eqn:Hls; [done|].
  destruct (splitHeaders o (first :: others)) as [hs dataLines] eqn:Hsplit.
  rewrite (parseText_lines csvText o hs dataLines) by (by rewrite Hls).
  simpl. intros ->. exfalso.
  eapply (splitHeaders_headers_nonempty o (first :: others)); [|done|done|done].
  rewrite <- Hls. eapply Forall_impl; [apply tokenLines_kept|].
  by intros line [? _].
Qed.

Lemma parseText_headers_nil_iff csvText o :
  headers (parseText csvText o) = [] ↔ tokenLines o csvText = [].
Proof.
  split; [apply parseText_no_headers|]. intros H.
  by rewrite parseText_empty.
Qed.

(** [processFile] when the file is held, read and decoded. *)
Lemma processFile_decoded st buffer raw :
  file st = true → fileBuffer st = Some buffer →
  decoder (Processor.encoding st) buffer = Some raw →
  processFile' st
  = let result := parseText raw (parseOptions st (detectDelimiter raw)) in
    {| file := true; fileBuffer := Some buffer; rawContent := raw;
       hasHeaders := hasHeaders st;
       parsedData := data result;
       parsedHeaders := headers result;
       errors := Processor.errors st ++ Csv.errors result;
       encoding := Processor.encoding st;
       mapping :=
         if Processor.autoMatch props
         then autoMapColumns toLowerCase (fields props) (headers result)
                (mapping st)
         else mapping st |}.
Proof.
  intros Hf Hb Hd. unfold processFile. rewrite Hf, Hb, Hd. cbn [negb].
  cbv zeta. f_equal.
  destruct (Csv.errors _) as [|e es]; [by rewrite app_nil_r|done].
Qed.

(** X24: processing a file whose content gives no headers (empty
    content) leaves the mapping of the previous file as it is: the rows
    and headers become empty and [Empty CSV content] is added to the
    errors. *)
Theorem processFile_empty_content st buffer raw :
  file st = true → fileBuffer st = Some buffer →
  decoder (Processor.encoding st) buffer = Some raw →
  parsedHeaders (processFile' st) = [] →
  mapping (processFile' st) = mapping st
  ∧ parsedData (processFile' st) = []
  ∧ Processor.errors (processFile' st)
    = Processor.errors st ++ [js "Empty CSV content"].
Proof.
  intros Hf Hb Hd. rewrite (processFile_decoded st buffer raw) by done.
  cbn. intros Hh. rewrite Hh.
  apply parseText_no_headers in Hh. rewrite parseText_empty by done. cbn.
  unfold autoMapColumns. cbn. by destruct (Processor.autoMatch props).
Qed.

(** X25: after a file has been processed with auto-matching on and
    headers found, the mapping holds only field keys sent to parsed
    headers, and is the one computed from these headers alone: nothing of
    the previous mapping is left. *)
Theorem processFile_mapping st buffer raw :
  Processor.autoMatch props = true →
  file st = true → fileBuffer st = Some buffer →
  decoder (Processor.encoding st) buffer = Some raw →
  parsedHeaders (processFile' st) ≠ [] →
  mapping (processFile' st)
  = autoMapColumns toLowerCase (fields props) (parsedHeaders (processFile' st)) ∅
  ∧ ∀ f h : jsstring,
      mapping (processFile' st) !! f = Some h →
      f ∈ (fields props).*1 ∧ h ∈ parsedHeaders (processFile' st).
Proof.
  intros Hauto Hf Hb Hd. rewrite (processFile_decoded st buffer raw) by done.
  cbn. rewrite Hauto. intros Hne.
  rewrite !(autoMapColumns_fresh toLowerCase) by done.
  split; [done|]. intros f h. apply foldl_autoMapColumn_entries.
Qed.

Lemma tokenLines_parseOptions st st' delimiter csvText :
  tokenLines (parseOptions st delimiter) csvText
  = tokenLines (parseOptions st' delimiter) csvText.
Proof. by apply tokenLines_ext. Qed.

(** X26: switching the header flag twice on a held, decodable file
    brings back the flag, the rows, the headers and the mapping that
    processing the file gives, but the errors pile up: those of the parse
    with the flag switched stay, and those of the final parse are added
    once more. *)
Theorem toggleHeaders_twice st buffer raw :
  file st = true → fileBuffer st = Some buffer →
  decoder (Processor.encoding st) buffer = Some raw →
  let st2 := toggleHeaders' (toggleHeaders' st) in
  let switched :=
    parseText raw
      (parseOptions (toggleHeaders' st) (detectDelimiter raw)) in
  let final := parseText raw (parseOptions st (detectDelimiter raw)) in
  hasHeaders st2 = hasHeaders st
  ∧ parsedData st2 = parsedData (processFile' st)
  ∧ parsedHeaders st2 = parsedHeaders (processFile' st)
  ∧ mapping st2 = mapping (processFile' st)
  ∧ Processor.errors st2
    = Processor.errors st ++ Csv.errors switched ++ Csv.errors final.
Proof.
  intros Hf Hb Hd. cbv zeta.
  set (st0' := {| file := file st; fileBuffer := fileBuffer st;
                  rawContent := rawContent st;
                  hasHeaders := negb (hasHeaders st);
                  parsedData := parsedData st;
                  parsedHeaders := parsedHeaders st;
                  errors := Processor.errors st;
                  encoding := Processor.encoding st; mapping := mapping st |}).
  assert (Hst1 : toggleHeaders' st = processFile' st0').
  { unfold toggleHeaders. cbv zeta. fold st0'. by rewrite Hf. }
  rewrite (processFile_decoded st0' buffer raw) in Hst1 by done.
  cbv zeta in Hst1.
  assert (Hopt0 : parseOptions (toggleHeaders' st) (detectDelimiter raw)
                  = parseOptions st0' (detectDelimiter raw))
    by (by rewrite Hst1).
  rewrite Hopt0.
  set (switched := parseText raw (parseOptions st0' (detectDelimiter raw)))
    in *.
  set (st1 := toggleHeaders' st) in *.
  set (st1' := {| file := file st1; fileBuffer := fileBuffer st1;
                  rawContent := rawContent st1;
                  hasHeaders := negb (hasHeaders st1);
                  parsedData := parsedData st1;
                  parsedHeaders := parsedHeaders st1;
                  errors := Processor.errors st1;
                  encoding := Processor.encoding st1;
                  mapping := mapping st1 |}).
  assert (Hst2 : toggleHeaders' st1 = processFile' st1').
  { unfold toggleHeaders. cbv zeta. fold st1'.
    assert (file st1 = true) as -> by (by rewrite Hst1). done. }
  assert (Hopt1 : parseOptions st1' (detectDelimiter raw)
                  = parseOptions st (detectDelimiter raw)).
  { unfold parseOptions, st1'. rewrite Hst1. cbn.
    by rewrite negb_involutive. }
  rewrite Hst2.
  rewrite (processFile_decoded st1' buffer raw);
    [|unfold st1'; by rewrite Hst1..].
  rewrite (processFile_decoded st buffer raw) by done.
  cbv zeta. rewrite Hopt1.
  set (final := parseText raw (parseOptions st (detectDelimiter raw))).
  unfold st1'. rewrite Hst1. cbn.
  rewrite negb_involutive, <- app_assoc.
  repeat split.
  destruct (Processor.autoMatch props); [|done].
  destruct (decide (headers final = [])) as [Hnil|Hne].
  - rewrite Hnil. cbn.
    assert (headers switched = []) as ->; [|done].
    apply parseText_headers_nil_iff.
    rewrite (tokenLines_parseOptions st0' st).
    by apply parseText_headers_nil_iff.
  - by rewrite !(autoMapColumns_fresh toLowerCase _ (headers final)) by done.
Qed.

(** X27: a file that is read and decoded replaces all that was held of
    the previous file: the state after [setFile] is the same from any two
    states that agree on the header flag, the encoding and the mapping,
    whatever their rows, headers, text, buffer and errors. *)
Theorem setFile_replaces st st' buffer :
  hasHeaders st = hasHeaders st' →
  Processor.encoding st = Processor.encoding st' →
  mapping st = mapping st' →
  is_Some (decoder
             (if bool_decide (Processor.encoding st = defaultEncoding props)
              then detectedOrDefault props buffer else Processor.encoding st)
             buffer) →
  setFile decoder decoderMessage toLowerCase props (Some (Some buffer)) st
  = setFile decoder decoderMessage toLowerCase props (Some (Some buffer)) st'.
Proof.
  intros Hh He Hm [raw Hraw]. unfold setFile.
  rewrite <- He, <- Hh, <- Hm.
  by rewrite !(processFile_decoded _ buffer raw).
Qed.

(** X28: changing to an encoding that the decoder rejects, for a held
    file, sets the encoding all the same, adds the one error
    [encodingError: message], and leaves the text, the rows, the headers
    and the mapping of the last successful decoding in place. *)
Theorem changeEncoding_rejected newEncoding st buffer :
  file st = true → fileBuffer st = Some buffer →
  decoder newEncoding buffer = None →
  let st' := changeEncoding decoder decoderMessage toLowerCase props
               newEncoding st in
  Processor.encoding st' = newEncoding
  ∧ rawContent st' = rawContent st
  ∧ parsedData st' = parsedData st
  ∧ parsedHeaders st' = parsedHeaders st
  ∧ mapping st' = mapping st
  ∧ Processor.errors st'
    = Processor.errors st
      ++ [encodingError props ++ js ": " ++ decoderMessage newEncoding].
Proof.
  intros Hf Hb Hd. cbv zeta. unfold changeEncoding.
  rewrite Hf, Hb. cbn [andb]. rewrite bool_decide_true by done.
  unfold processFile. cbn. by rewrite Hd.
Qed.

End ProcessorFacts.

Section ProcessorExamples.
Import Js Enc EncTable Csv AutoMatch Processor.

(** The theorem on an empty file, the mapping of an earlier file held. *)
Lemma processFile_empty_content_witness :
  mapping (processFile exampleDecoder (λ _, []) asciiLower exampleProps
             (heldState [] true {[ js "name" := js "name" ]}))
  = {[ js "name" := js "name" ]}.
Proof.
  exact (proj1 (processFile_empty_content exampleDecoder (λ _, []) asciiLower
                  exampleProps (heldState [] true {[ js "name" := js "name" ]})
                  [] [] eq_refl eq_refl eq_refl eq_refl)).
Defined.

(** The theorem on a file of one header line, an older mapping held. *)
Lemma processFile_mapping_witness :
  mapping (processFile exampleDecoder (λ _, []) asciiLower exampleProps
             (heldState (asciiBytes "Name;Age") true
                {[ js "old" := js "column" ]}))
  = autoMapColumns asciiLower (fields exampleProps) [js "Name"; js "Age"] ∅.
Proof.
  refine (proj1 (processFile_mapping exampleDecoder (λ _, []) asciiLower
                   exampleProps
                   (heldState (asciiBytes "Name;Age") true
                      {[ js "old" := js "column" ]})
                   (asciiBytes "Name;Age") (js "Name;Age")
                   eq_refl eq_refl eq_refl eq_refl _)).
  vm_compute. discriminate.
Defined.

(** The theorem on a file whose second line is too short: the error of
    the parse with headers stays when the flag is switched back. *)
Lemma toggleHeaders_twice_witness :
  Processor.errors
    (toggleHeaders exampleDecoder (λ _, []) asciiLower exampleProps
       (toggleHeaders exampleDecoder (λ _, []) asciiLower exampleProps
          (heldState (asciiBytes "a,b" ++ [10] ++ asciiBytes "1") false ∅)))
  = [ js "Line 1 has 1 fields, expected 2";
      js "Line 2 has 1 fields, expected 2" ].
Proof.
  pose proof (toggleHeaders_twice exampleDecoder (λ _, []) asciiLower
    exampleProps (heldState (asciiBytes "a,b" ++ [10] ++ asciiBytes "1") false ∅)
    (asciiBytes "a,b" ++ [10] ++ asciiBytes "1") (js "a,b" ++ [LF] ++ js "1")
    eq_refl eq_refl eq_refl) as (_ & _ & _ & _ & He).
  rewrite He. vm_compute. reflexivity.
Defined.

(** The theorem on a load after another file, and on the same load into
    the state the component starts with. *)
Lemma setFile_replaces_witness :
  setFile exampleDecoder (λ _, []) asciiLower exampleProps
    (Some (Some (asciiBytes "x,y")))
    {| file := true; fileBuffer := Some (asciiBytes "old");
       rawContent := js "old"; hasHeaders := true; parsedData := [∅];
       parsedHeaders := [js "old"]; errors := [js "Empty CSV content"];
       encoding := js "UTF-8"; mapping := ∅ |}
  = setFile exampleDecoder (λ _, []) asciiLower exampleProps
      (Some (Some (asciiBytes "x,y"))) (initialState exampleProps).
Proof.
  apply setFile_replaces; try reflexivity.
  vm_compute. eauto.
Defined.

(** The theorem on a label that is not in the table. *)
Lemma changeEncoding_rejected_witness :
  Processor.errors
    (changeEncoding exampleDecoder (λ label, js "unknown label") asciiLower
       exampleProps (js "klingon") (heldState (asciiBytes "a,b") true ∅))
  = [ js "Error processing file with selected encoding: unknown label" ].
Proof.
  refine (proj2 (proj2 (proj2 (proj2 (proj2
    (changeEncoding_rejected exampleDecoder (λ label, js "unknown label")
       asciiLower exampleProps (js "klingon")
       (heldState (asciiBytes "a,b") true ∅) (asciiBytes "a,b")
       eq_refl eq_refl eq_refl)))))).
Defined.

End ProcessorExamples.
